(** * ChatGLM-3 model: forward pass, loss stage and checkpoint adapter

    A shallow embedding of [megatron/model/chatglm3_model.py].

    - [Py]: the few Python notions the module relies on (exceptions,
      the substring test [in], the slice bound of [x[:k]]).
    - [Torch]: tensors as a dtype, a shape and row-major data, with the
      tensor operations the module calls; where a tensor lives (storage,
      offset, strides) is kept apart from its value, as a [View].
    - [Binary]: the arithmetic of the floating-point dtypes, on the
      standard library's specification of IEEE 754.
    - [ChatGLM3]: the functions and methods of the module, written in a
      state-and-error monad that records the calls made to the
      collaborators (projection, cross entropies, inner language model,
      loaders).
    - [Sample]: concrete collaborators and inputs.
    - [Properties]: what the module guarantees.
    - [Further]: its behaviour at the edges: errors, settings, keys. *)

From Stdlib Require Import ZArith List String Ascii Lia SpecFloat.
From stdpp Require Import gmap strings list fin_maps.

Set Warnings "-register-all".
Local Open Scope Z_scope.

(* ===================================================================== *)
(** * Python preliminaries *)
(* ===================================================================== *)

Module Py.

(** The exceptions the module can raise, by their Python class. *)
Inductive exn : Type :=
| AssertionError
| IndexError
| KeyError (key : string)
| AttributeError
| RuntimeError
| TypeError.

(** [needle in hay] on [str]. *)
Fixpoint contains (needle hay : string) : bool :=
  String.prefix needle hay ||
  match hay with
  | EmptyString => false
  | String _ hay' => contains needle hay'
  end.

(** The number of items [x[:k]] keeps from a sequence of [n] items: a
    negative [k] counts from the end, and both ends are clipped. *)
Definition slice_stop (k : Z) (n : nat) : nat :=
  if k <? 0 then Z.to_nat (Z.max 0 (Z.of_nat n + k))
  else Z.to_nat (Z.min k (Z.of_nat n)).

Lemma slice_stop_le k n : (slice_stop k n ≤ n)%nat.
Proof. unfold slice_stop. destruct (k <? 0) eqn:E; lia. Qed.

Lemma slice_stop_nonneg k n :
  0 ≤ k → k ≤ Z.of_nat n → slice_stop k n = Z.to_nat k.
Proof.
  intros H0 Hn. unfold slice_stop.
  destruct (k <? 0) eqn:E; [lia|]. f_equal. lia.
Qed.

Lemma slice_stop_ge k n : Z.of_nat n ≤ k → slice_stop k n = n.
Proof.
  intros Hn. unfold slice_stop.
  destruct (k <? 0) eqn:E; lia.
Qed.

End Py.

(* ===================================================================== *)
(** * Tensors *)
(* ===================================================================== *)

Module Torch.
Import Py.

Inductive dtype : Type :=
| torch_half
| torch_bfloat16
| torch_float
| torch_double
| torch_long
| torch_bool.

#[global] Instance dtype_eq_dec : EqDecision dtype.
Proof. solve_decision. Defined.

(** A tensor: its dtype, its shape and its elements in row-major order. *)
Record Tensor (A : Type) : Type := mkTensor {
  t_dtype : dtype;
  t_shape : list nat;
  t_data : list A
}.
Arguments mkTensor {A} _ _ _.
Arguments t_dtype {A} _.
Arguments t_shape {A} _.
Arguments t_data {A} _.

(** Number of elements of a shape. *)
Definition numel (sh : list nat) : nat := foldr Nat.mul 1%nat sh.

(** A tensor is well formed when it holds as many elements as its shape
    says. *)
Definition wf {A} (t : Tensor A) : Prop :=
  length (t_data t) = numel (t_shape t).

(** Row-major position of a multi-index, [None] when out of range. *)
Fixpoint ravel (sh idx : list nat) : option nat :=
  match sh, idx with
  | [], [] => Some 0%nat
  | d :: sh', i :: idx' =>
      if decide (i < d)%nat
      then (λ r, i * numel sh' + r)%nat <$> ravel sh' idx'
      else None
  | _, _ => None
  end.

(** [t[idx]] *)
Definition item {A} (t : Tensor A) (idx : list nat) : option A :=
  ravel (t_shape t) idx ≫= λ p, t_data t !! p.

(** [t.size()[dim]] *)
Definition size_at {A} (t : Tensor A) (dim : nat) : exn + nat :=
  match t_shape t !! dim with
  | Some d => inr d
  | None => inl IndexError
  end.

(** [t.contiguous()]: affects the memory layout only; the dtype, the shape
    and the elements are those of [t]. *)
Definition contiguous {A} (t : Tensor A) : Tensor A := t.

(** The elements of [t] along one axis: the value of [t.view(-1)] when the
    view can be made. *)
Definition flatten {A} (t : Tensor A) : Tensor A :=
  mkTensor (t_dtype t) [numel (t_shape t)] (t_data t).

(** [len] elements of [l] from position [off]. *)
Definition block {A} (len off : nat) (l : list A) : list A :=
  take len (drop off l).

(** [t.transpose(0, 1)] *)
Definition transpose01 {A} (t : Tensor A) : exn + Tensor A :=
  match t_shape t with
  | d0 :: d1 :: rest =>
      let r := numel rest in
      inr (mkTensor (t_dtype t) (d1 :: d0 :: rest)
             (seq 0 d1 ≫= λ j, seq 0 d0 ≫= λ i,
                block r ((i * d1 + j) * r) (t_data t)))
  | _ => inl IndexError
  end.

(** [t[..., :k, ...]] with the slice at axis [dim] and full slices before
    it. *)
Definition slice_to {A} (dim : nat) (k : Z) (t : Tensor A) : exn + Tensor A :=
  match t_shape t !! dim with
  | None => inl IndexError
  | Some d =>
      let outer := numel (take dim (t_shape t)) in
      let inner := numel (drop (S dim) (t_shape t)) in
      let d' := slice_stop k d in
      inr (mkTensor (t_dtype t) (<[dim := d']> (t_shape t))
             (seq 0 outer ≫= λ o,
                block (d' * inner) (o * (d * inner)) (t_data t)))
  end.


(** ** Memory layout *)

(** Where the elements of a tensor live: a storage, an offset in it, and
    the sizes and strides of the axes. *)
Record View : Type := mkView {
  v_storage : nat;
  v_offset : nat;
  v_sizes : list nat;
  v_strides : list nat
}.

(** The strides of a tensor packed in row-major order. *)
Fixpoint row_major (sizes : list nat) : list nat :=
  match sizes with
  | [] => []
  | _ :: rest => numel rest :: row_major rest
  end.

(** Every axis of size other than one has the stride of the packed
    layout. *)
Fixpoint packed (sizes strides : list nat) : bool :=
  match sizes, strides with
  | [], _ => true
  | d :: sizes', st :: strides' =>
      (bool_decide (d = 1%nat) || bool_decide (st = numel sizes'))
      && packed sizes' strides'
  | _ :: _, [] => false
  end.

(** [t.is_contiguous()]: a tensor without elements is contiguous, and the
    stride of an axis of size one does not matter. *)
Definition view_is_contiguous (v : View) : bool :=
  bool_decide (numel (v_sizes v) = 0%nat) || packed (v_sizes v) (v_strides v).

(** The layout of [t[..., :k, ...]]: a view of the same storage. *)
Definition view_slice_to (dim : nat) (k : Z) (v : View) : exn + View :=
  match v_sizes v !! dim with
  | None => inl IndexError
  | Some d =>
      inr (mkView (v_storage v) (v_offset v)
             (<[dim := slice_stop k d]> (v_sizes v)) (v_strides v))
  end.

(** The layout of [t.contiguous()]: the tensor itself when it is
    contiguous already, and otherwise a packed copy in a new storage,
    [fresh]. *)
Definition view_contiguous (fresh : nat) (v : View) : View :=
  if view_is_contiguous v then v
  else mkView fresh 0 (v_sizes v) (row_major (v_sizes v)).

(** [view(-1)] makes one axis of all the axes without moving an element,
    which the strides must allow.  Torch goes from the last axis to the
    first: the axes seen so far form a chunk as long as the next axis,
    unless its size is one, has the stride that continues them; where a
    chunk ends, the single axis of the result has to take it whole, and a
    chunk of one element takes no axis.

    [merge_axes n dims base chunk merged] is that walk for a tensor of
    [n] elements: [dims] are the axes still to see, last one first, each
    with its size and stride; [base] is the stride the chunk started at,
    [chunk] its number of elements, and [merged] the stride of the single
    axis once it is assigned.  The result is [None] when the axes cannot
    be merged. *)
Fixpoint merge_axes (n : nat) (dims : list (nat * nat)) (base chunk : nat)
    (merged : option nat) : option nat :=
  match dims with
  | [] => merged
  | (d, _) :: rest =>
      let chunk := (chunk * d)%nat in
      let ends :=
        match rest with
        | [] => true
        | (d', st') :: _ =>
            bool_decide (d' ≠ 1%nat) && bool_decide (st' ≠ (chunk * base)%nat)
        end in
      if ends then
        let '(viewed, merged) :=
          match merged with
          | None =>
              if bool_decide (1 < chunk)%nat || bool_decide (n = 1%nat)
              then (n, Some base) else (1%nat, None)
          | Some _ => (1%nat, merged)
          end in
        if bool_decide (viewed = chunk) then
          match rest with
          | [] => merged
          | (_, st') :: _ => merge_axes n rest st' 1 merged
          end
        else None
      else merge_axes n rest base chunk merged
  end.

(** The stride of the single axis of [t.view(-1)], [None] when the view
    cannot be made.  A tensor without axes and a tensor without elements
    can always be viewed flat. *)
Definition flat_stride (v : View) : option nat :=
  match reverse (zip (v_sizes v) (v_strides v)) with
  | [] => Some 1%nat
  | (d, st) :: rest =>
      if bool_decide (numel (v_sizes v) = 0%nat) then
        Some (if bool_decide (v_sizes v = [0%nat]) then st else 1%nat)
      else merge_axes (numel (v_sizes v)) ((d, st) :: rest) st 1 None
  end.

(** The layout of [t.view(-1)]: a view of the same storage. *)
Definition view_view_flat (v : View) : exn + View :=
  match flat_stride v with
  | Some st =>
      inr (mkView (v_storage v) (v_offset v) [numel (v_sizes v)] [st])
  | None => inl RuntimeError
  end.

(** A tensor with its memory layout, for the operations whose outcome
    depends on the layout. *)
Record Strided (A : Type) : Type := mkStrided {
  s_tensor : Tensor A;
  s_view : View
}.
Arguments mkStrided {A} _ _.
Arguments s_tensor {A} _.
Arguments s_view {A} _.

(** The layout describes the tensor: the same sizes, and a stride for
    every axis. *)
Definition laid_out {A} (t : Strided A) : Prop :=
  v_sizes (s_view t) = t_shape (s_tensor t) ∧
  length (v_strides (s_view t)) = length (v_sizes (s_view t)).

(** A tensor packed in row-major order in a storage of its own, as
    [torch.zeros] and [torch.ones] make them. *)
Definition packed_in {A} (storage : nat) (t : Tensor A) : Strided A :=
  mkStrided t (mkView storage 0 (t_shape t) (row_major (t_shape t))).

(** [t.view(-1)]: a [RuntimeError] when the layout does not allow the
    view. *)
Definition view_flat {A} (t : Strided A) : exn + Tensor A :=
  match view_view_flat (s_view t) with
  | inr _ => inr (flatten (s_tensor t))
  | inl e => inl e
  end.


Section facts.
Context {A : Type}.
Implicit Types (t : Tensor A) (l : list A).

Lemma length_block len off l :
  (off + len ≤ length l)%nat → length (block len off l) = len.
Proof. intros H. unfold block. rewrite length_take, length_drop. lia. Qed.

Lemma lookup_block len off l q :
  (q < len)%nat → block len off l !! q = l !! (off + q)%nat.
Proof. intros H. unfold block. rewrite lookup_take_lt by done. apply lookup_drop. Qed.

(** Concatenating [n] blocks of [m] items each: item [q] of block [o] sits at
    position [o * m + q]. *)
Lemma length_bind_seq {B} (f : nat → list B) n m :
  (∀ o, (o < n)%nat → length (f o) = m) →
  length (seq 0 n ≫= f) = (n * m)%nat.
Proof.
  induction n as [|n IH]; intros Hf; [done|].
  rewrite seq_S, bind_app, length_app, IH by (intros; apply Hf; lia).
  simpl. rewrite app_nil_r, Hf by lia. lia.
Qed.

Lemma lookup_bind_seq {B} (f : nat → list B) n m o q :
  (∀ o, (o < n)%nat → length (f o) = m) →
  (o < n)%nat → (q < m)%nat →
  (seq 0 n ≫= f) !! (o * m + q)%nat = f o !! q.
Proof.
  induction n as [|n IH]; intros Hf Ho Hq; [lia|].
  rewrite seq_S, bind_app. simpl. rewrite app_nil_r.
  assert (Hlen : length (seq 0 n ≫= f) = (n * m)%nat)
    by (apply length_bind_seq; intros; apply Hf; lia).
  destruct (decide (o = n)) as [->|Hne].
  - rewrite lookup_app_r by lia. f_equal. lia.
  - rewrite lookup_app_l by nia. apply IH; [intros; apply Hf|..]; lia.
Qed.

Lemma numel_cons d sh : numel (d :: sh) = (d * numel sh)%nat.
Proof. done. Qed.

Lemma block_bound d0 d1 r i j :
  (i < d0)%nat → (j < d1)%nat → ((i * d1 + j) * r + r ≤ d0 * (d1 * r))%nat.
Proof.
  intros Hi Hj.
  assert (i * d1 + j + 1 ≤ d0 * d1)%nat by nia.
  replace ((i * d1 + j) * r + r)%nat with ((i * d1 + j + 1) * r)%nat by lia.
  rewrite Nat.mul_assoc. by apply Nat.mul_le_mono_r.
Qed.

Lemma split_position n m p :
  (p < n * m)%nat → ∃ o q, p = (o * m + q)%nat ∧ (o < n)%nat ∧ (q < m)%nat.
Proof.
  intros Hp. assert (m ≠ 0)%nat by lia.
  exists (p / m)%nat, (p mod m)%nat. split; [|split].
  - pose proof (Nat.div_mod_eq p m). lia.
  - apply Nat.Div0.div_lt_upper_bound. lia.
  - by apply Nat.mod_upper_bound.
Qed.

Lemma bind_seq_ext {B} (f : nat → list B) n m (l : list B) :
  (∀ o, (o < n)%nat → length (f o) = m) →
  length l = (n * m)%nat →
  (∀ o q, (o < n)%nat → (q < m)%nat → f o !! q = l !! (o * m + q)%nat) →
  seq 0 n ≫= f = l.
Proof.
  intros Hf Hl Hlk. apply list_eq. intros p.
  destruct (decide (p < n * m)%nat) as [Hp|Hp].
  - destruct (split_position _ _ _ Hp) as (o & q & -> & Ho & Hq).
    rewrite (lookup_bind_seq f n m) by done. by apply Hlk.
  - rewrite !lookup_ge_None_2; [done|lia|].
    rewrite (length_bind_seq f n m) by done. lia.
Qed.

Lemma ravel_lt sh idx p : ravel sh idx = Some p → (p < numel sh)%nat.
Proof.
  revert idx p. induction sh as [|d sh IH]; intros [|i idx] p; simpl; try done.
  - intros [= <-]. lia.
  - case_decide; [|done]. destruct (ravel sh idx) as [r|] eqn:E; [|done].
    simpl. intros [= <-]. specialize (IH _ _ E). nia.
Qed.

(** ** Transposition *)

Lemma transpose01_shape t d0 d1 rest :
  t_shape t = d0 :: d1 :: rest →
  ∃ t', transpose01 t = inr t' ∧ t_shape t' = d1 :: d0 :: rest ∧
        t_dtype t' = t_dtype t.
Proof. intros Hs. unfold transpose01. rewrite Hs. eauto. Qed.

Lemma transpose01_wf t t' :
  wf t → transpose01 t = inr t' → wf t'.
Proof.
  unfold wf, transpose01. intros Hwf.
  destruct (t_shape t) as [|d0 [|d1 rest]] eqn:Hs; try done.
  intros [= <-]. cbn [t_data t_shape]. rewrite !numel_cons in *.
  rewrite (length_bind_seq _ d1 (d0 * numel rest)); [done|].
  intros j Hj. apply length_bind_seq. intros i Hi.
  apply length_block. rewrite Hwf. by apply block_bound.
Qed.

Lemma transpose01_lookup t d0 d1 rest t' i j q :
  wf t → t_shape t = d0 :: d1 :: rest → transpose01 t = inr t' →
  (i < d0)%nat → (j < d1)%nat → (q < numel rest)%nat →
  t_data t' !! (j * (d0 * numel rest) + (i * numel rest + q))%nat
  = t_data t !! (i * (d1 * numel rest) + (j * numel rest + q))%nat.
Proof.
  unfold wf, transpose01. intros Hwf Hs. rewrite Hs in *.
  intros [= <-] Hi Hj Hq. cbn [t_data t_shape]. rewrite !numel_cons in *.
  assert (Hb : ∀ i j, (i < d0)%nat → (j < d1)%nat →
            length (block (numel rest) ((i * d1 + j) * numel rest) (t_data t))
            = numel rest).
  { intros. apply length_block. rewrite Hwf. by apply block_bound. }
  rewrite (lookup_bind_seq _ d1 (d0 * numel rest)); [| |done|nia].
  - rewrite (lookup_bind_seq _ d0 (numel rest)) by auto.
    rewrite lookup_block by done. f_equal. lia.
  - intros. apply length_bind_seq. auto.
Qed.

(** Element [[j, i, ...]] of the transpose is element [[i, j, ...]]. *)
Lemma item_transpose01 t t' i j idx :
  wf t → transpose01 t = inr t' →
  item t' (j :: i :: idx) = item t (i :: j :: idx).
Proof.
  intros Hwf Ht.
  destruct (t_shape t) as [|d0 [|d1 rest]] eqn:Hs;
    try (unfold transpose01 in Ht; rewrite Hs in Ht; done).
  destruct (transpose01_shape t d0 d1 rest Hs) as (t2 & Ht2 & Hs2 & _).
  rewrite Ht in Ht2. injection Ht2 as <-.
  unfold item. rewrite Hs, Hs2. simpl.
  destruct (decide (j < d1)%nat), (decide (i < d0)%nat); try done.
  destruct (ravel rest idx) as [q|] eqn:Hq; [|done]. simpl.
  apply ravel_lt in Hq.
  by apply transpose01_lookup.
Qed.

(** Transposing twice gives the tensor back. *)
Lemma transpose01_involutive t t' :
  wf t → transpose01 t = inr t' → transpose01 t' = inr t.
Proof.
  intros Hwf Ht.
  destruct (t_shape t) as [|d0 [|d1 rest]] eqn:Hs;
    try (unfold transpose01 in Ht; rewrite Hs in Ht; done).
  destruct (transpose01_shape t d0 d1 rest Hs) as (t2 & Ht2 & Hs2 & Hd2).
  rewrite Ht in Ht2. injection Ht2 as <-.
  pose proof (transpose01_wf _ _ Hwf Ht) as Hwf'.
  destruct (transpose01_shape t' d1 d0 rest Hs2) as (t3 & Ht3 & Hs3 & Hd3).
  rewrite Ht3. f_equal.
  assert (Hdata : t_data t3 = t_data t).
  { pose proof Ht3 as Ht3'. unfold transpose01 in Ht3'. rewrite Hs2 in Ht3'.
    injection Ht3' as <-. simpl.
    apply (bind_seq_ext _ d0 (d1 * numel rest)).
    - intros. apply length_bind_seq. intros. apply length_block.
      unfold wf in Hwf'. rewrite Hs2, !numel_cons in Hwf'. rewrite Hwf'.
      by apply block_bound.
    - unfold wf in Hwf. by rewrite Hs, !numel_cons in Hwf.
    - intros i p Hi Hp.
      destruct (split_position _ _ _ Hp) as (j & q & -> & Hj & Hq).
      rewrite (lookup_bind_seq _ d1 (numel rest)); [| |done|done].
      + rewrite lookup_block by done.
        replace ((j * d0 + i) * numel rest + q)%nat
          with (j * (d0 * numel rest) + (i * numel rest + q))%nat by lia.
        by apply (transpose01_lookup t d0 d1 rest t').
      + intros. apply length_block.
        unfold wf in Hwf'. rewrite Hs2, !numel_cons in Hwf'. rewrite Hwf'.
        by apply block_bound. }
  destruct t3, t; simpl in *. congruence.
Qed.

(** ** Slicing *)

Lemma numel_insert sh dim d d' :
  sh !! dim = Some d →
  numel (<[dim := d']> sh)
  = (numel (take dim sh) * (d' * numel (drop (S dim) sh)))%nat.
Proof.
  revert sh. induction dim as [|dim IH]; intros [|e sh] Hd; [done| |done|].
  - cbn. rewrite drop_0. unfold numel. simpl. lia.
  - simpl in Hd. cbn [take drop].
    change (<[S dim:=d']> (e :: sh)) with (e :: <[dim:=d']> sh).
    rewrite !numel_cons, (IH _ Hd). lia.
Qed.

Lemma numel_split sh dim d :
  sh !! dim = Some d →
  numel sh = (numel (take dim sh) * (d * numel (drop (S dim) sh)))%nat.
Proof.
  intros Hd. rewrite <-(numel_insert sh dim d d Hd).
  by rewrite list_insert_id.
Qed.

Lemma slice_to_shape t dim k d :
  t_shape t !! dim = Some d →
  ∃ t', slice_to dim k t = inr t' ∧
        t_shape t' = <[dim := slice_stop k d]> (t_shape t) ∧
        t_dtype t' = t_dtype t.
Proof. intros Hd. unfold slice_to. rewrite Hd. eauto. Qed.

Lemma slice_block_bound outer d d' inner o :
  (d' ≤ d)%nat → (o < outer)%nat →
  (o * (d * inner) + d' * inner ≤ outer * (d * inner))%nat.
Proof.
  intros Hd Ho.
  assert (d' * inner ≤ d * inner)%nat by (by apply Nat.mul_le_mono_r).
  assert ((o + 1) * (d * inner) ≤ outer * (d * inner))%nat
    by (apply Nat.mul_le_mono_r; lia).
  lia.
Qed.

Lemma slice_to_wf t dim k t' :
  wf t → slice_to dim k t = inr t' → wf t'.
Proof.
  unfold wf, slice_to. intros Hwf.
  destruct (t_shape t !! dim) as [d|] eqn:Hd; [|done].
  intros [= <-]. cbn [t_data t_shape].
  rewrite (numel_insert _ _ _ _ Hd).
  apply length_bind_seq. intros o Ho. apply length_block.
  rewrite Hwf, (numel_split _ _ _ Hd).
  apply slice_block_bound; [apply slice_stop_le|done].
Qed.

Lemma ravel_split sh idx dim d i :
  sh !! dim = Some d → idx !! dim = Some i →
  ravel sh idx =
    o ← ravel (take dim sh) (take dim idx);
    (if decide (i < d)%nat
     then r ← ravel (drop (S dim) sh) (drop (S dim) idx);
          Some (o * (d * numel (drop (S dim) sh)) + (i * numel (drop (S dim) sh) + r))%nat
     else None).
Proof.
  revert sh idx. induction dim as [|dim IH]; intros [|e sh] [|a idx] Hd Hi; try done.
  - simpl in *. injection Hd as ->. injection Hi as ->. rewrite ?drop_0.
    destruct (decide (i < d)%nat); [|done]. by destruct (ravel sh idx).
  - simpl in Hd, Hi. cbn [take drop ravel].
    destruct (decide (a < e)%nat); [|done]. rewrite (IH _ _ Hd Hi).
    destruct (ravel (take dim sh) (take dim idx)) as [o|]; [|done]. simpl.
    destruct (decide (i < d)%nat); [|done].
    destruct (ravel (drop (S dim) sh) (drop (S dim) idx)) as [r|]; [|done].
    simpl. f_equal. rewrite (numel_split sh dim d Hd). lia.
Qed.

(** Below the bound the slice holds the elements of the tensor, at the same
    indices; at and above it, it holds nothing. *)
Lemma item_slice_to t dim k t' d idx i :
  wf t → t_shape t !! dim = Some d → slice_to dim k t = inr t' →
  idx !! dim = Some i →
  item t' idx = if decide (i < slice_stop k d)%nat then item t idx else None.
Proof.
  intros Hwf Hd Ht Hi.
  destruct (slice_to_shape t dim k d Hd) as (t2 & Ht2 & Hs2 & _).
  rewrite Ht in Ht2. injection Ht2 as <-.
  pose proof (slice_stop_le k d) as Hle.
  assert (Hd' : t_shape t' !! dim = Some (slice_stop k d)).
  { rewrite Hs2. apply list_lookup_insert_eq. by eapply lookup_lt_Some. }
  unfold item.
  rewrite (ravel_split _ _ _ _ _ Hd' Hi), (ravel_split _ _ _ _ _ Hd Hi).
  rewrite Hs2, take_insert_ge, drop_insert_lt by lia.
  destruct (ravel (take dim (t_shape t)) (take dim idx)) as [o|] eqn:Ho;
    [|by destruct (decide (i < slice_stop k d)%nat)].
  apply ravel_lt in Ho. simpl.
  destruct (decide (i < slice_stop k d)%nat) as [Hlt|]; [|done].
  rewrite decide_True by lia.
  destruct (ravel (drop (S dim) (t_shape t)) (drop (S dim) idx)) as [r|] eqn:Hr;
    [|done].
  apply ravel_lt in Hr. simpl.
  unfold slice_to in Ht. rewrite Hd in Ht. injection Ht as <-. cbn [t_data].
  set (inner := numel (drop (S dim) (t_shape t))) in *.
  rewrite (lookup_bind_seq _ _ (slice_stop k d * inner)); [| |done|nia].
  - rewrite lookup_block by nia. done.
  - intros o' Ho'. apply length_block. rewrite Hwf, (numel_split _ _ _ Hd).
    by apply slice_block_bound.
Qed.

End facts.

(** ** Memory layout *)

Lemma packed_row_major sizes : packed sizes (row_major sizes) = true.
Proof.
  induction sizes as [|d sizes IH]; [done|]. simpl.
  rewrite IH, (bool_decide_eq_true_2 (numel sizes = numel sizes)) by done.
  by rewrite orb_true_r.
Qed.

(** The result of [contiguous] is contiguous. *)
Lemma view_contiguous_is_contiguous fresh v :
  view_is_contiguous (view_contiguous fresh v) = true.
Proof.
  unfold view_contiguous. destruct (view_is_contiguous v) eqn:Hv; [done|].
  unfold view_is_contiguous. simpl. by rewrite packed_row_major, orb_true_r.
Qed.

(** It is a copy exactly when the tensor is not contiguous. *)
Lemma view_contiguous_storage fresh v :
  v_storage (view_contiguous fresh v)
  = if view_is_contiguous v then v_storage v else fresh.
Proof. unfold view_contiguous. by destruct (view_is_contiguous v). Qed.

Lemma view_contiguous_sizes fresh v :
  v_sizes (view_contiguous fresh v) = v_sizes v.
Proof. unfold view_contiguous. by destruct (view_is_contiguous v). Qed.

(** ** Viewing flat *)

Lemma numel_app sh1 sh2 : numel (sh1 ++ sh2) = (numel sh1 * numel sh2)%nat.
Proof.
  induction sh1 as [|d sh1 IH]; [unfold numel; simpl; lia|].
  cbn [app]. rewrite !numel_cons, IH. lia.
Qed.

Lemma numel_reverse sh : numel (reverse sh) = numel sh.
Proof.
  induction sh as [|d sh IH]; [done|].
  rewrite reverse_cons, numel_app, IH, numel_cons. unfold numel. simpl. lia.
Qed.

Lemma numel_nonzero sh : numel sh ≠ 0%nat ↔ Forall (λ d, d ≠ 0%nat) sh.
Proof.
  induction sh as [|d sh IH]; [by split; [constructor|]|].
  rewrite numel_cons, Forall_cons, <-IH. lia.
Qed.

(** The axes [dims], given from the last to the first, are packed above
    [below] elements: every axis of size other than one has for stride
    the number of elements of the axes after it. *)
Fixpoint packed_from (below : nat) (dims : list (nat * nat)) : Prop :=
  match dims with
  | [] => True
  | (d, st) :: rest =>
      (d = 1%nat ∨ st = below) ∧ packed_from (below * d) rest
  end.

Lemma packed_from_app below dims1 dims2 :
  packed_from below (dims1 ++ dims2)
  ↔ packed_from below dims1 ∧ packed_from (below * numel dims1.*1) dims2.
Proof.
  revert below. induction dims1 as [|[d st] dims1 IH]; intros below.
  - simpl. rewrite Nat.mul_1_r. tauto.
  - cbn [app packed_from fmap list_fmap fst]. rewrite IH, numel_cons.
    rewrite Nat.mul_assoc. tauto.
Qed.

Lemma packed_packed_from sizes strides :
  length strides = length sizes → packed sizes strides = true →
  packed_from 1 (reverse (zip sizes strides)).
Proof.
  revert strides. induction sizes as [|d sizes IH]; intros [|st strides];
    try done.
  intros Hlen Hp. simpl in Hlen, Hp.
  apply andb_true_iff in Hp as [Hd Hp].
  cbn [zip zip_with]. rewrite reverse_cons. apply packed_from_app. split.
  - apply IH; [lia|done].
  - rewrite fmap_reverse, numel_reverse, fst_zip by lia. simpl.
    split; [|done]. apply orb_true_iff in Hd as [Hd|Hd];
      apply bool_decide_eq_true in Hd; [by left|right; lia].
Qed.

(** Packed axes can be merged: the single axis takes the last chunk, and
    every chunk before it has one element. *)
Lemma merge_axes_packed n dims base chunk :
  dims ≠ [] → Forall (λ d, d ≠ 0%nat) dims.*1 →
  packed_from chunk dims →
  (chunk ≠ 1%nat → base = 1%nat) →
  match dims with
  | (d, st) :: _ => d ≠ 1%nat → st = (base * chunk)%nat
  | [] => True
  end →
  chunk ≠ 0%nat → n = (chunk * numel dims.*1)%nat →
  is_Some (merge_axes n dims base chunk None).
Proof.
  revert base chunk.
  induction dims as [|[d st] rest IH]; intros base chunk Hne Hpos Hp Hbase
    Hhead Hchunk Hn; [done|].
  cbn [fmap list_fmap fst] in Hpos, Hn.
  apply Forall_cons in Hpos as [Hd Hpos]. rewrite numel_cons in Hn.
  destruct Hp as [Hst Hp].
  assert (Hbase' : (chunk * d)%nat ≠ 1%nat → base = 1%nat).
  { intros Hc. destruct (decide (chunk = 1%nat)) as [->|]; [|auto].
    assert (d ≠ 1%nat) by lia. destruct Hst as [?|Hst]; [done|].
    rewrite Hhead in Hst by done. lia. }
  cbn [merge_axes]. destruct rest as [|[d' st'] rest].
  - simpl in Hn. cbn [andb].
    destruct (bool_decide (1 < chunk * d)%nat || bool_decide (n = 1%nat))
      eqn:Hc.
    + rewrite bool_decide_eq_true_2 by lia. eauto.
    + apply orb_false_iff in Hc as [Hc1 Hc2].
      apply bool_decide_eq_false in Hc1, Hc2. lia.
  - destruct Hp as [Hst' Hp]. cbn [fmap list_fmap fst] in Hpos, Hn.
    pose proof Hpos as Hpos'. apply Forall_cons in Hpos' as [Hd' _].
    rewrite numel_cons in Hn.
    assert (Hrest : numel rest.*1 ≠ 0%nat).
    { apply numel_nonzero. by apply Forall_cons in Hpos as [_ ?]. }
    destruct (bool_decide (d' ≠ 1%nat)
              && bool_decide (st' ≠ (chunk * d * base)%nat)) eqn:Hends.
    + apply andb_true_iff in Hends as [He1 He2].
      apply bool_decide_eq_true in He1, He2.
      destruct Hst' as [?|Hst']; [done|].
      assert (Hone : (chunk * d)%nat = 1%nat).
      { destruct (decide ((chunk * d)%nat = 1%nat)) as [|Hc]; [done|].
        rewrite (Hbase' Hc) in He2. lia. }
      rewrite Hone.
      replace (bool_decide (1 < 1)%nat || bool_decide (n = 1%nat))
        with false.
      2:{ symmetry. apply orb_false_iff. split.
          - apply bool_decide_eq_false. lia.
          - apply bool_decide_eq_false. nia. }
      rewrite bool_decide_eq_true_2 by done.
      apply IH; try done.
      * split; [by right; lia|]. by rewrite Hone in Hp.
      * intros _. lia.
      * cbn [fmap list_fmap fst].
        rewrite Hn, numel_cons, !Nat.mul_assoc, Hone. lia.
    + apply IH; try done.
      * intros Hd1. apply andb_false_iff in Hends as [He|He];
          apply bool_decide_eq_false in He; [done|lia].
      * lia.
      * cbn [fmap list_fmap fst]. rewrite Hn, numel_cons. lia.
Qed.

(** A contiguous tensor can always be viewed flat. *)
Lemma flat_stride_contiguous v :
  length (v_strides v) = length (v_sizes v) →
  view_is_contiguous v = true → is_Some (flat_stride v).
Proof.
  intros Hlen Hc. unfold flat_stride.
  destruct (reverse (zip (v_sizes v) (v_strides v))) as [|[d st] rest] eqn:Hr;
    [eauto|].
  case_bool_decide as Hz; [eauto|]. rewrite <-Hr.
  unfold view_is_contiguous in Hc. rewrite bool_decide_eq_false_2 in Hc by done.
  simpl in Hc.
  assert (Hfst : (reverse (zip (v_sizes v) (v_strides v))).*1
                 = reverse (v_sizes v))
    by (rewrite fmap_reverse, fst_zip by lia; done).
  apply merge_axes_packed.
  - by rewrite Hr.
  - rewrite Hfst. apply Forall_reverse. by apply numel_nonzero.
  - by apply packed_packed_from.
  - done.
  - rewrite Hr. lia.
  - done.
  - rewrite Hfst, numel_reverse. lia.
Qed.

(** The view of a contiguous tensor holds its elements along one axis. *)
Lemma view_flat_contiguous {A} (t : Strided A) :
  length (v_strides (s_view t)) = length (v_sizes (s_view t)) →
  view_is_contiguous (s_view t) = true →
  view_flat t = inr (flatten (s_tensor t)).
Proof.
  intros Hlen Hc. unfold view_flat, view_view_flat.
  by destruct (flat_stride_contiguous _ Hlen Hc) as [st ->].
Qed.

(** So can a tensor packed in row-major order. *)
Lemma view_flat_packed_in {A} storage (t : Tensor A) :
  view_flat (packed_in storage t) = inr (flatten t).
Proof.
  apply (view_flat_contiguous (packed_in storage t)); simpl.
  - induction (t_shape t) as [|d sh IH]; simpl; [done|]. by rewrite IH.
  - unfold view_is_contiguous. simpl.
    by rewrite packed_row_major, orb_true_r.
Qed.


(** ** Floating-point arithmetic *)

(** The arithmetic torch performs on the elements of a floating-point
    tensor; the first argument is the dtype of the result. *)
Class TorchArith (F : Type) : Type := {
  fmul : dtype → F → F → F;
  fdiv : dtype → F → F → F;
  fsum : dtype → list F → F;
  fcast : dtype → dtype → F → F
}.

(** [torch.promote_types] *)
Definition promote_types (a b : dtype) : dtype :=
  match a, b with
  | torch_double, _ | _, torch_double => torch_double
  | torch_float, _ | _, torch_float => torch_float
  | torch_half, torch_bfloat16 | torch_bfloat16, torch_half => torch_float
  | torch_half, _ | _, torch_half => torch_half
  | torch_bfloat16, _ | _, torch_bfloat16 => torch_bfloat16
  | torch_long, _ | _, torch_long => torch_long
  | torch_bool, torch_bool => torch_bool
  end.

Definition is_floating_point (d : dtype) : bool :=
  match d with
  | torch_half | torch_bfloat16 | torch_float | torch_double => true
  | torch_long | torch_bool => false
  end.

(** The dtype of a sum: integers for booleans and integers. *)
Definition sum_dtype (d : dtype) : dtype :=
  if is_floating_point d then d else torch_long.

Section arith.
Context {F : Type} `{TorchArith F}.

(** [t.float()]: the tensor itself when it is [torch.float] already. *)
Definition float (t : Tensor F) : Tensor F :=
  if bool_decide (t_dtype t = torch_float) then t
  else mkTensor torch_float (t_shape t)
         (fcast (t_dtype t) torch_float <$> t_data t).

Lemma float_dtype (t : Tensor F) : t_dtype (float t) = torch_float.
Proof. unfold float. by case_bool_decide. Qed.

(** [a * b] for two 1-D tensors: elementwise, a one-element tensor being
    broadcast, a [RuntimeError] when the sizes do not match. *)
Definition mul (a b : Tensor F) : exn + Tensor F :=
  let dt := promote_types (t_dtype a) (t_dtype b) in
  match t_shape a, t_shape b with
  | [n], [m] =>
      if decide (n = m) then
        inr (mkTensor dt [n] (zip_with (fmul dt) (t_data a) (t_data b)))
      else if decide (n = 1%nat) then
        inr (mkTensor dt [m]
               (t_data a ≫= λ x, fmul dt x <$> t_data b))
      else if decide (m = 1%nat) then
        inr (mkTensor dt [n]
               (t_data b ≫= λ y, (λ x, fmul dt x y) <$> t_data a))
      else inl RuntimeError
  | _, _ => inl RuntimeError
  end.

(** [torch.sum(t)], [t.sum()]: a 0-dim tensor; booleans are summed as
    integers. *)
Definition sum (t : Tensor F) : Tensor F :=
  let dt := sum_dtype (t_dtype t) in
  mkTensor dt [] [fsum dt (t_data t)].

(** [a / b] for two 0-dim tensors; true division gives a floating-point
    result. *)
Definition div (a b : Tensor F) : exn + Tensor F :=
  let dt := promote_types (t_dtype a) (t_dtype b) in
  let dt := if is_floating_point dt then dt else torch_float in
  match t_shape a, t_shape b with
  | [], [] => inr (mkTensor dt [] (zip_with (fdiv dt) (t_data a) (t_data b)))
  | _, _ => inl RuntimeError
  end.

End arith.

(** What the loss computation uses of IEEE 754: zeros and NaNs under
    product, sum and quotient. *)
Class IEEE (F : Type) `{TorchArith F} : Type := {
  is_zero : F → bool;
  is_nan : F → bool;
  fmul_zero d x z :
    is_zero z = true → is_zero (fmul d x z) || is_nan (fmul d x z) = true;
  fsum_zero d l :
    Forall (λ x, is_zero x = true) l → is_zero (fsum d l) = true;
  fsum_zero_or_nan d l :
    Forall (λ x, is_zero x || is_nan x = true) l →
    is_zero (fsum d l) || is_nan (fsum d l) = true;
  fdiv_zero d x z :
    is_zero x || is_nan x = true → is_zero z = true →
    is_nan (fdiv d x z) = true
}.

End Torch.

(* ===================================================================== *)
(** * Binary floating-point numbers *)
(* ===================================================================== *)

Module Binary.
Import Torch.

(** Precision and exponent bound of the floating-point dtypes.  Integers
    and booleans are kept exact: with 64 bits of precision no integer that
    fits 64 bits is rounded. *)
Definition format (d : dtype) : Z * Z :=
  match d with
  | torch_half => (11, 16)
  | torch_bfloat16 => (8, 128)
  | torch_float => (24, 128)
  | torch_double => (53, 1024)
  | torch_long | torch_bool => (64, 128)
  end.

(** Rounding to a format. *)
Definition round (d : dtype) (x : spec_float) : spec_float :=
  match x with
  | S754_finite s m e => binary_round (format d).1 (format d).2 s m e
  | _ => x
  end.

(** Sum from left to right, one of the orders torch may sum in. *)
Definition sum_list (d : dtype) (l : list spec_float) : spec_float :=
  foldl (SFadd (format d).1 (format d).2) (S754_zero false) l.

#[global] Instance binary_arith : TorchArith spec_float := {|
  fmul d := SFmul (format d).1 (format d).2;
  fdiv d := SFdiv (format d).1 (format d).2;
  fsum := sum_list;
  fcast _ to := round to
|}.

Definition zero (x : spec_float) : bool :=
  match x with S754_zero _ => true | _ => false end.

Definition nan (x : spec_float) : bool :=
  match x with S754_nan => true | _ => false end.

Lemma SFmul_zero p e x z :
  zero z = true → zero (SFmul p e x z) || nan (SFmul p e x z) = true.
Proof. by destruct x, z. Qed.

Lemma SFadd_zero p e x y :
  zero x = true → zero y = true → zero (SFadd p e x y) = true.
Proof. by destruct x as [[]| | |], y as [[]| | |]. Qed.

Lemma SFadd_zero_or_nan p e x y :
  zero x || nan x = true → zero y || nan y = true →
  zero (SFadd p e x y) || nan (SFadd p e x y) = true.
Proof. by destruct x as [[]| | |], y as [[]| | |]. Qed.

Lemma SFdiv_zero p e x z :
  zero x || nan x = true → zero z = true → nan (SFdiv p e x z) = true.
Proof. by destruct x, z. Qed.

Lemma foldl_SFadd_zero p e l acc :
  zero acc = true → Forall (λ x, zero x = true) l →
  zero (foldl (SFadd p e) acc l) = true.
Proof.
  intros Hacc Hl. revert acc Hacc.
  induction Hl as [|x l Hx _ IH]; intros acc Hacc; [done|].
  simpl. apply IH. by apply SFadd_zero.
Qed.

Lemma foldl_SFadd_zero_or_nan p e l acc :
  zero acc || nan acc = true → Forall (λ x, zero x || nan x = true) l →
  zero (foldl (SFadd p e) acc l) || nan (foldl (SFadd p e) acc l) = true.
Proof.
  intros Hacc Hl. revert acc Hacc.
  induction Hl as [|x l Hx _ IH]; intros acc Hacc; [done|].
  simpl. apply IH. by apply SFadd_zero_or_nan.
Qed.

Lemma sum_list_zero d l :
  Forall (λ x, zero x = true) l → zero (sum_list d l) = true.
Proof. by apply foldl_SFadd_zero. Qed.

Lemma sum_list_zero_or_nan d l :
  Forall (λ x, zero x || nan x = true) l →
  zero (sum_list d l) || nan (sum_list d l) = true.
Proof. by apply foldl_SFadd_zero_or_nan. Qed.

#[global] Instance binary_ieee : IEEE spec_float := {|
  is_zero := zero;
  is_nan := nan;
  fmul_zero d := SFmul_zero _ _;
  fsum_zero := sum_list_zero;
  fsum_zero_or_nan := sum_list_zero_or_nan;
  fdiv_zero d := SFdiv_zero _ _
|}.

End Binary.

(* ===================================================================== *)
(** * The model *)
(* ===================================================================== *)

Module ChatGLM3.
Import Py Torch.


(** ** Checkpoint dictionaries *)

(** A value of a state dict: a parameter tensor or a nested dict. *)
Inductive StateValue (F : Type) : Type :=
| SVTensor (t : Tensor F)
| SVDict (d : gmap string (StateValue F)).
Arguments SVTensor {F} _.
Arguments SVDict {F} _.

Abbreviation StateDict F := (gmap string (StateValue F)).

(** [d[key]] *)
Definition getitem {V} (d : gmap string V) (key : string) : exn + V :=
  match d !! key with
  | Some v => inr v
  | None => inl (KeyError key)
  end.

(** [d.pop(key)]: the value and the dict without the key. *)
Definition pop {V} (d : gmap string V) (key : string)
  : exn + (V * gmap string V) :=
  match d !! key with
  | Some v => inr (v, delete key d)
  | None => inl (KeyError key)
  end.

(** [list(d.keys())] *)
Definition keys {V} (d : gmap string V) : list string := (map_to_list d).*1.

(** ** Process-wide settings, collaborators and effects *)

(** The fields of [get_args()] the module reads or writes. *)
Record Args : Type := mkArgs {
  args_curriculum_seqlen : option Z;
  args_curriculum_learning_legacy : bool;
  args_seq_length : Z;
  args_fp16_lm_cross_entropy : bool;
  args_untie_embeddings_and_output_weights : bool;
  args_num_experts : list nat
}.

Definition set_args_curriculum_seqlen (v : Z) (a : Args) : Args :=
  mkArgs (Some v) (args_curriculum_learning_legacy a) (args_seq_length a)
    (args_fp16_lm_cross_entropy a)
    (args_untie_embeddings_and_output_weights a) (args_num_experts a).

(** The two vocabulary cross entropies. *)
Inductive Algorithm : Type :=
| vocab_sequence_parallel_cross_entropy
| vocab_parallel_cross_entropy.

#[global] Instance Algorithm_eq_dec : EqDecision Algorithm.
Proof. solve_decision. Defined.

Section model.
Context {F : Type} `{TorchArith F} {InferenceParams : Type}.

(** What the module imports and calls without defining it: the projection,
    the two cross entropies, the sequence-parallel world size, and the
    names DeepSpeed exports when its universal checkpoint is available. *)
Record Env : Type := mkEnv {
  parallel_lm_logits : Tensor F → Tensor F → bool → Tensor F;
  cross_entropy_of : Algorithm → Tensor F → Tensor Z → Tensor F;
  get_sequence_parallel_world_size : Z;
  DS_UNIVERSAL_CHECKPOINT_INFO : bool;
  VOCABULARY_PARAMETER_PATTERNS : string;
  TP_REPLICATED_PARAMETER_PATTERNS : string;
  PARAMETER_WITH_ROW_PARALLELISM_PATTERNS : string
}.

(** The inner embedding and transformer stage, [self.language_model]. *)
Record LanguageModel : Type := mkLanguageModel {
  lm_forward :
    Args → Tensor Z → Tensor Z → Tensor bool →
    option (Tensor Z) → option (Tensor Z) → option (Tensor bool) →
    option InferenceParams → Tensor F * list (Tensor F);
  lm_output_layer_weight : Tensor F;
  lm_state_dict_for_save_checkpoint : string → bool → StateDict F
}.

(** The calls the module makes to its collaborators. *)
Inductive event : Type :=
| call_parallel_lm_logits
    (input_ weight : Tensor F) (parallel_output : bool)
| call_cross_entropy (alg : Algorithm) (logits : Tensor F) (labels : Tensor Z)
| call_language_model
    (input_ids position_ids : Tensor Z) (attention_mask : Tensor bool)
    (retriever_input_ids retriever_position_ids : option (Tensor Z))
    (retriever_attn_mask : option (Tensor bool))
    (inference_params : option InferenceParams)
| call_set_input_tensor (input_tensor : Tensor F)
| call_word_embeddings_load_state_dict (sd : StateValue F) (strict : bool)
| call_language_model_load_state_dict (sd : StateValue F) (strict : bool).

(** The state a call runs in: the process-wide settings and the calls made
    so far, oldest first. *)
Record World : Type := mkWorld {
  w_args : Args;
  w_trace : list event
}.

(** Computations that read and write the world and may raise. *)
Definition M (X : Type) : Type := World → (exn + X) * World.

Definition ret {X} (x : X) : M X := λ w, (inr x, w).

Definition bind {X Y} (m : M X) (k : X → M Y) : M Y :=
  λ w, match m w with
       | (inr x, w') => k x w'
       | (inl e, w') => (inl e, w')
       end.

Definition raise {X} (e : exn) : M X := λ w, (inl e, w).

Definition lift {X} (r : exn + X) : M X := λ w, (r, w).

Definition get_args : M Args := λ w, (inr (w_args w), w).

Definition put_args (a : Args) : M unit :=
  λ w, (inr tt, mkWorld a (w_trace w)).

Definition emit (e : event) : M unit :=
  λ w, (inr tt, mkWorld (w_args w) (w_trace w ++ [e])).

(** [assert b] *)
Definition assert (b : bool) : M unit :=
  if b then ret tt else raise AssertionError.

End model.

Declare Scope py_scope.
Delimit Scope py_scope with py.
Notation "x <- m ;; k" := (bind m (λ x, k))
  (at level 100, m at next level, right associativity) : py_scope.
Notation "m ;; k" := (bind m (λ _, k))
  (at level 100, right associativity) : py_scope.
Local Open Scope py_scope.

Section code.
Context {F : Type} `{TorchArith F} {InferenceParams : Type}.
Variable env : Env (F := F).

#[local] Abbreviation M := (M (F := F) (InferenceParams := InferenceParams)).

(** The call [cross_entropy(logits, labels)] of the algorithm [alg]. *)
Definition cross_entropy_call (alg : Algorithm)
    (logits : Tensor F) (labels : Tensor Z) : M (Tensor F) :=
  emit (call_cross_entropy alg logits labels) ;;
  ret (cross_entropy_of env alg logits labels).

(** The conditional expression that picks the cross entropy. *)
Definition select_cross_entropy : Algorithm :=
  if 1 <? get_sequence_parallel_world_size env
  then vocab_sequence_parallel_cross_entropy
  else vocab_parallel_cross_entropy.

Definition post_language_model_processing
    (lm_output : Tensor F) (labels : option (Tensor Z))
    (logit_weights : Tensor F)
    (parallel_output fp16_lm_cross_entropy : bool) : M (Tensor F) :=
  (* Output. Format [s b h] *)
  emit (call_parallel_lm_logits lm_output logit_weights parallel_output) ;;
  let output := parallel_lm_logits env lm_output logit_weights parallel_output in
  match labels with
  | None =>
      (* [s b h] => [b s h] *)
      t <- lift (transpose01 output) ;;
      ret (contiguous t)
  | Some labels =>
      (* [b s] => [s b] *)
      labels <- lift (transpose01 labels) ;;
      let labels := contiguous labels in
      let cross_entropy := select_cross_entropy in
      loss <-
        (if fp16_lm_cross_entropy then
           assert (bool_decide (t_dtype output = torch_half)) ;;
           cross_entropy_call cross_entropy output labels
         else
           cross_entropy_call cross_entropy (float output) labels) ;;
      (* [s b] => [b, s] *)
      loss <- lift (transpose01 loss) ;;
      ret (contiguous loss)
  end.

(** What [MegatronModule] provides to the model: the key and the module of
    the head's copy of the word embeddings, and the weight shared between
    embedding and head. *)
Record MegatronModule : Type := mkMegatronModule {
  _word_embeddings_for_head_key : string;
  word_embeddings_state_dict : string → bool → StateDict F;
  shared_embedding_or_output_weight : Tensor F
}.

Record ChatGLM3Model : Type := mkChatGLM3Model {
  base : MegatronModule;
  parallel_output : bool;
  pre_process : bool;
  post_process : bool;
  fp16_lm_cross_entropy : bool;
  return_moe_loss : bool;
  untie_embeddings_and_output_weights : bool;
  language_model : LanguageModel (F := F) (InferenceParams := InferenceParams);
  _language_model_key : string
}.

(** [ChatGLM3Model.__init__]; [get_language_model] and the base class are
    collaborators. *)
Definition __init__
    (get_language_model :
       bool → bool → list nat →
       LanguageModel (F := F) (InferenceParams := InferenceParams) * string)
    (super : MegatronModule)
    (parallel_output pre_process post_process return_moe_loss : bool)
    : M ChatGLM3Model :=
  args <- get_args ;;
  let lm := get_language_model pre_process post_process (args_num_experts args) in
  ret (mkChatGLM3Model super parallel_output pre_process post_process
         (args_fp16_lm_cross_entropy args) return_moe_loss
         (args_untie_embeddings_and_output_weights args)
         (fst lm) (snd lm)).

Definition set_input_tensor (self : ChatGLM3Model) (input_tensor : Tensor F)
    : M unit :=
  emit (call_set_input_tensor input_tensor).

(** An element of the tuple [forward] returns. *)
Inductive Returned : Type :=
| RTensor (t : Tensor F)
| RLosses (l : list (Tensor F)).

Definition language_model_call (self : ChatGLM3Model)
    (input_ids position_ids : Tensor Z) (attention_mask : Tensor bool)
    (retriever_input_ids retriever_position_ids : option (Tensor Z))
    (retriever_attn_mask : option (Tensor bool))
    (inference_params : option InferenceParams)
    : M (Tensor F * list (Tensor F)) :=
  emit (call_language_model input_ids position_ids attention_mask
          retriever_input_ids retriever_position_ids retriever_attn_mask
          inference_params) ;;
  args <- get_args ;;
  ret (lm_forward (language_model self) args input_ids position_ids
         attention_mask retriever_input_ids retriever_position_ids
         retriever_attn_mask inference_params).

(** [x[:, :k].contiguous()] *)
Definition truncate {A} (k : Z) (x : Tensor A) : M (Tensor A) :=
  x <- lift (slice_to 1 k x) ;;
  ret (contiguous x).

(** [x[:, :, :k, :k].contiguous()] *)
Definition truncate_mask {A} (k : Z) (x : Tensor A) : M (Tensor A) :=
  x <- lift (slice_to 2 k x) ;;
  x <- lift (slice_to 3 k x) ;;
  ret (contiguous x).

(** The memory layout of [x[:, :k].contiguous()], for [x] laid out as [v];
    [fresh] is the storage a copy is allocated in. *)
Definition truncate_layout (fresh : nat) (k : Z) (v : View) : exn + View :=
  match view_slice_to 1 k v with
  | inr v => inr (view_contiguous fresh v)
  | inl e => inl e
  end.

(** The memory layout of [x[:, :, :k, :k].contiguous()]. *)
Definition truncate_mask_layout (fresh : nat) (k : Z) (v : View)
    : exn + View :=
  match view_slice_to 2 k v with
  | inr v =>
      match view_slice_to 3 k v with
      | inr v => inr (view_contiguous fresh v)
      | inl e => inl e
      end
  | inl e => inl e
  end.

(** The first part of [forward]: the inputs after the curriculum-length
    truncation. *)
Definition curriculum_inputs
    (input_ids position_ids : Tensor Z) (attention_mask : Tensor bool)
    (labels : option (Tensor Z)) (curriculum_seqlen : option Z)
    : M (Tensor Z * Tensor Z * option (Tensor Z) * Tensor bool) :=
  args <- get_args ;;
  match curriculum_seqlen with
  | Some curriculum_seqlen =>
      put_args (set_args_curriculum_seqlen curriculum_seqlen args) ;;
      seqlen <- lift (size_at input_ids 1) ;;
      if curriculum_seqlen <? Z.of_nat seqlen then
        (* seqlen-based curriculum learning *)
        (* input_ids, position_ids, labels have size [batch size, seqlen] *)
        input_ids <- truncate curriculum_seqlen input_ids ;;
        position_ids <- truncate curriculum_seqlen position_ids ;;
        labels <-
          match labels with
          | Some labels =>
              labels <- truncate curriculum_seqlen labels ;;
              ret (Some labels)
          | None => ret None
          end ;;
        (* attention_mask has size [1, 1, seqlen, seqlen] *)
        attention_mask <- truncate_mask curriculum_seqlen attention_mask ;;
        ret (input_ids, position_ids, labels, attention_mask)
      else
        ret (input_ids, position_ids, labels, attention_mask)
  | None =>
      (if args_curriculum_learning_legacy args then
         (* If got a None input, need to reset curriculum_seqlen on user
            side *)
         put_args (set_args_curriculum_seqlen (args_seq_length args) args)
       else ret tt) ;;
      ret (input_ids, position_ids, labels, attention_mask)
  end.

Definition forward (self : ChatGLM3Model)
    (input_ids position_ids : Tensor Z) (attention_mask : Tensor bool)
    (retriever_input_ids retriever_position_ids : option (Tensor Z))
    (retriever_attn_mask : option (Tensor bool))
    (labels : option (Tensor Z)) (tokentype_ids : option (Tensor Z))
    (inference_params : option InferenceParams)
    (curriculum_seqlen : option Z) : M (list Returned) :=
  inputs <- curriculum_inputs input_ids position_ids attention_mask labels
              curriculum_seqlen ;;
  let '(input_ids, position_ids, labels, attention_mask) := inputs in
  out <- language_model_call self input_ids position_ids attention_mask
           retriever_input_ids retriever_position_ids retriever_attn_mask
           inference_params ;;
  let '(lm_output, moe_losses) := out in
  lm_output <-
    (if post_process self then
       post_language_model_processing lm_output labels
         (if untie_embeddings_and_output_weights self
          then lm_output_layer_weight (language_model self)
          else shared_embedding_or_output_weight (base self))
         (parallel_output self) (fp16_lm_cross_entropy self)
     else ret lm_output) ;;
  (* the tuple [lm_output, (moe_losses if ... else lm_output)] *)
  ret [RTensor lm_output;
       if return_moe_loss self then RLosses moe_losses else RTensor lm_output].


(** [for x in l: body], threading the variables the body assigns. *)
Fixpoint for_each {X S} (l : list X) (body : X → S → M S) (s : S) : M S :=
  match l with
  | [] => ret s
  | x :: l' => s' <- body x s ;; for_each l' body s'
  end.

(** A state-dict value used as a dict. *)
Definition as_dict (v : StateValue F) : exn + StateDict F :=
  match v with
  | SVDict d => inr d
  | SVTensor _ => inl AttributeError
  end.

(** [v[key] = x] *)
Definition setitem (v : StateValue F) (key : string) (x : StateValue F)
    : exn + StateValue F :=
  match v with
  | SVDict d => inr (SVDict (<[key := x]> d))
  | SVTensor _ => inl TypeError
  end.

(** The head's copy of the word embeddings is part of the checkpoint. *)
Definition saves_word_embeddings (self : ChatGLM3Model) : bool :=
  post_process self && negb (pre_process self)
  && negb (untie_embeddings_and_output_weights self).

Definition state_dict_for_save_checkpoint (self : ChatGLM3Model)
    (prefix : string) (keep_vars : bool) : M (StateDict F) :=
  let state_dict_ : StateDict F := ∅ in
  let language_model_state_dict :=
    lm_state_dict_for_save_checkpoint (language_model self) prefix keep_vars in
  (* MoE states need to be handled separately by DeepSpeed engine, thus
     moving them to the top level dictionary *)
  st <-
    match language_model_state_dict !! "moe_state_dict" with
    | Some moe =>
        moe <- lift (as_dict moe) ;;
        st <- for_each (keys moe)
                (λ key '(state_dict_, moe),
                   popped <- lift (pop moe key) ;;
                   ret (<[key := popped.1]> state_dict_, popped.2))
                (state_dict_, moe) ;;
        ret (st.1, delete "moe_state_dict" language_model_state_dict)
    | None => ret (state_dict_, language_model_state_dict)
    end ;;
  let '(state_dict_, language_model_state_dict) := st in
  let state_dict_ :=
    <[_language_model_key self := SVDict language_model_state_dict]>
      state_dict_ in
  (* Save word_embeddings. *)
  let state_dict_ :=
    if saves_word_embeddings self then
      <[_word_embeddings_for_head_key (base self) :=
          SVDict (word_embeddings_state_dict (base self) prefix keep_vars)]>
        state_dict_
    else state_dict_ in
  ret state_dict_.

(** The test of the key scan of [load_state_dict]. *)
Definition is_expert_key (key : string) : bool :=
  contains "expert" key && negb (contains "moe.gate.wg.weight" key).

(** Customized load.  The result is the caller's dict as the call leaves
    it: the scan pops keys from it, and the inner dict the entry is added
    to is the one the caller's dict holds. *)
Definition load_state_dict (self : ChatGLM3Model)
    (state_dict : StateDict F) (strict : bool) : M (StateDict F) :=
  (* Load word_embeddings. *)
  (if saves_word_embeddings self then
     sd <- lift (getitem state_dict
                   (_word_embeddings_for_head_key (base self))) ;;
     emit (call_word_embeddings_load_state_dict sd strict)
   else ret tt) ;;
  (* Gather MoE states and move under language model *)
  let moe_state_dict : StateDict F := ∅ in
  st <- for_each (keys state_dict)
          (λ key '(moe_state_dict, state_dict),
             if is_expert_key key then
               popped <- lift (pop state_dict key) ;;
               ret (<[key := popped.1]> moe_state_dict, popped.2)
             else ret (moe_state_dict, state_dict))
          (moe_state_dict, state_dict) ;;
  let '(moe_state_dict, state_dict) := st in
  match state_dict !! _language_model_key self with
  | Some inner =>
      inner <-
        (if decide (0 < size moe_state_dict)%nat
         then lift (setitem inner "moe_state_dict" (SVDict moe_state_dict))
         else ret inner) ;;
      emit (call_language_model_load_state_dict inner strict) ;;
      ret (<[_language_model_key self := inner]> state_dict)
  | None =>
      let state_dict :=
        if decide (0 < size moe_state_dict)%nat
        then <["moe_state_dict" := SVDict moe_state_dict]> state_dict
        else state_dict in
      emit (call_language_model_load_state_dict (SVDict state_dict) strict) ;;
      ret state_dict
  end.

Definition universal_checkpoint_info (self : ChatGLM3Model)
    : M (gmap string (list string)) :=
  let info : gmap string (list string) := ∅ in
  let info :=
    if DS_UNIVERSAL_CHECKPOINT_INFO env then
      (* Vocabulary parameters (embeddings) that require special handling
         due to padding. *)
      let info :=
        <[VOCABULARY_PARAMETER_PATTERNS env := [
            "tied_modules.embed.word_embeddings.weight"
          ]]> info in
      (* Parameter slices that should be averaged not concatenated. *)
      let info :=
        <[TP_REPLICATED_PARAMETER_PATTERNS env := [
            "tied_modules.embed.position_embeddings.weight";
            "\d+.input_layernorm.weight";
            "\d+.input_layernorm.bias";
            "\d+.post_attention_layernorm.weight";
            "\d+.post_attention_layernorm.bias";
            "\d+.self_attention.dense.bias";
            "\d+.mlp.dense_4h_to_h.bias";
            "\d+.weight";
            "\d+.bias"
          ]]> info in
      (* Parameter that are sliced on the row dimension *)
      <[PARAMETER_WITH_ROW_PARALLELISM_PATTERNS env := [
          "\d+.mlp.dense_4h_to_h.weight";
          "\d+.self_attention.dense.weight"
        ]]> info
    else info in
  ret info.

(** The loss mask is the caller's tensor and is viewed flat as it is laid
    out, so it comes with its layout.  The losses are viewed flat once
    [contiguous] has packed them, which cannot fail
    ([flat_stride_contiguous]). *)
Definition CrossEntropy (output : Tensor F) (labels : Tensor Z * Strided F)
    : M (Tensor F) :=
  let '(labels, loss_mask) := (labels.1, labels.2) in
  args <- get_args ;;
  (* [b s] => [s b] *)
  labels <- lift (transpose01 labels) ;;
  let labels := contiguous labels in
  losses <- cross_entropy_call vocab_parallel_cross_entropy
              (float (contiguous output)) labels ;;
  (* [s b] => [b, s] *)
  losses <- lift (transpose01 losses) ;;
  let losses := contiguous losses in
  loss_mask <- lift (view_flat loss_mask) ;;
  weighted <- lift (mul (flatten losses) loss_mask) ;;
  loss <- lift (div (sum weighted) (sum loss_mask)) ;;
  ret loss.

End code.
End ChatGLM3.

(* ===================================================================== *)
(** * Sample collaborators and inputs *)
(* ===================================================================== *)

Module Sample.
Import Py Torch Binary ChatGLM3.

(** The number one; the format is that of [torch.float]. *)
Definition one : spec_float := S754_finite false 8388608 (-23).

Definition full (d : dtype) (sh : list nat) (x : spec_float)
    : Tensor spec_float :=
  mkTensor d sh (replicate (numel sh) x).

(** A projection that maps hidden states [[s, b, h]] and a weight [[v, h]]
    to logits [[s, b, v]]. *)
Definition project (x W : Tensor spec_float) (parallel_output : bool)
    : Tensor spec_float :=
  match t_shape x, t_shape W with
  | [s; b; _], v :: _ => full (t_dtype x) [s; b; v] (S754_zero false)
  | _, _ => x
  end.

(** A cross entropy stub: the loss is one at every label. *)
Definition per_token (alg : Algorithm) (logits : Tensor spec_float)
    (labels : Tensor Z) : Tensor spec_float :=
  mkTensor torch_float (t_shape labels) ((λ _, one) <$> t_data labels).

(** The environment with sequence-parallel world size [ws], DeepSpeed's
    universal checkpoint available and its category names. *)
Definition env (ws : Z) : Env :=
  mkEnv project per_token ws true
    "vocabulary_parameter_patterns"
    "tp_replicated_parameter_patterns"
    "parameter_with_row_parallelism_patterns".

(** An inner stage with hidden size 2, vocabulary size 3 and one expert. *)
Definition hidden (input_ids : Tensor Z) : Tensor spec_float :=
  match t_shape input_ids with
  | [b; s] => full torch_half [s; b; 2%nat] (S754_zero false)
  | _ => full torch_half []%nat (S754_zero false)
  end.

Definition expert_key : string :=
  "encoder.layers.0.mlp.deepspeed_moe.experts.deepspeed_experts.0.dense_h_to_4h.weight".

Definition gate_key : string :=
  "encoder.layers.0.mlp.deepspeed_moe.gate.wg.weight".

Definition inner_state_dict : StateDict spec_float :=
  {[ "encoder" :=
       SVDict {[ "layers.0.input_layernorm.weight" :=
                   SVTensor (full torch_half [2]%nat one) ]};
     "moe_state_dict" :=
       SVDict {[ expert_key := SVTensor (full torch_half [2; 2]%nat one) ]} ]}.

Definition inner : LanguageModel (F := spec_float) (InferenceParams := unit) :=
  mkLanguageModel
    (λ _ input_ids _ _ _ _ _ _,
       (hidden input_ids, [full torch_float []%nat one]))
    (full torch_half [3; 2]%nat one)
    (λ _ _, inner_state_dict).

Definition megatron : MegatronModule (F := spec_float) :=
  mkMegatronModule "word_embeddings_for_head"
    (λ _ _, {[ "weight" := SVTensor (full torch_half [3; 2]%nat one) ]})
    (full torch_half [3; 2]%nat one).

Definition model (pre_process post_process return_moe_loss untie : bool)
    : ChatGLM3Model :=
  mkChatGLM3Model megatron true pre_process post_process false
    return_moe_loss untie inner "language_model".

Definition args : Args := mkArgs None false 4 false false [1%nat].

Definition world : World (F := spec_float) (InferenceParams := unit) :=
  mkWorld args [].

(** A batch of two sequences of four tokens. *)
Definition input_ids : Tensor Z :=
  mkTensor torch_long [2; 4]%nat [11; 12; 13; 14; 21; 22; 23; 24].

Definition position_ids : Tensor Z :=
  mkTensor torch_long [2; 4]%nat [0; 1; 2; 3; 0; 1; 2; 3].

Definition labels : Tensor Z :=
  mkTensor torch_long [2; 4]%nat [12; 13; 14; 15; 22; 23; 24; 25].

Definition attention_mask : Tensor bool :=
  mkTensor torch_bool [1; 1; 4; 4]%nat
    [false; true; true; true;
     false; false; true; true;
     false; false; false; true;
     false; false; false; false].

Definition lm_output : Tensor spec_float :=
  full torch_half [4; 2; 2]%nat (S754_zero false).

(** The same hidden states in single precision. *)
Definition lm_output_float : Tensor spec_float :=
  full torch_float [4; 2; 2]%nat (S754_zero false).

Definition weight : Tensor spec_float := full torch_half [3; 2]%nat one.

(** [labels] with sequence axis first. *)
Definition labels_sb : Tensor Z :=
  mkTensor torch_long [4; 2]%nat [12; 22; 13; 23; 14; 24; 15; 25].

(** The masks [torch.zeros(2, 4)] and [torch.ones(2, 4)]. *)
Definition zero_mask : Strided spec_float :=
  packed_in 1 (full torch_float [2; 4]%nat (S754_zero false)).

Definition ones_mask : Strided spec_float :=
  packed_in 1 (full torch_float [2; 4]%nat one).

(** The mask [torch.zeros(4, 2).t()]: the same elements and the same
    shape, transposed in memory. *)
Definition transposed_zero_mask : Strided spec_float :=
  mkStrided (full torch_float [2; 4]%nat (S754_zero false))
    (mkView 1 0 [2; 4]%nat [1; 2]%nat).

End Sample.

(* ===================================================================== *)
(** * Properties *)
(* ===================================================================== *)

Module Properties.
Import Py Torch ChatGLM3.
Local Open Scope py_scope.

(** ** Running computations *)

Section effects.
Context {F : Type} {InferenceParams : Type}.
Implicit Types (w : World (F := F) (InferenceParams := InferenceParams)).

(** The world after the calls [evs]. *)
Definition after w (evs : list event) : World :=
  mkWorld (w_args w) (w_trace w ++ evs).

(** The algorithm [alg] is invoked among the calls [evs]. *)
Definition invokes (alg : Algorithm)
    (evs : list (event (F := F) (InferenceParams := InferenceParams))) : Prop :=
  ∃ logits labels, call_cross_entropy alg logits labels ∈ evs.

Lemma after_after w evs evs' : after (after w evs) evs' = after w (evs ++ evs').
Proof. unfold after. simpl. by rewrite app_assoc. Qed.

Lemma after_nil w : after w [] = w.
Proof. unfold after. rewrite app_nil_r. by destruct w. Qed.

Lemma bind_ret {X Y} (x : X) (k : X → M Y) w : bind (ret x) k w = k x w.
Proof. done. Qed.

Lemma bind_emit {Y} e (k : unit → M Y) w :
  bind (emit e) k w = k tt (after w [e]).
Proof. done. Qed.

Lemma bind_lift {X Y} (r : exn + X) (k : X → M Y) w :
  bind (lift r) k w =
  match r with inr x => k x w | inl e => (inl e, w) end.
Proof. by destruct r. Qed.

Lemma bind_raise {X Y} e (k : X → M Y) w :
  bind (raise e) k w = (inl e, w).
Proof. done. Qed.

Lemma bind_get_args {Y} (k : Args → M Y) w :
  bind get_args k w = k (w_args w) w.
Proof. done. Qed.

Lemma bind_put_args {Y} a (k : unit → M Y) w :
  bind (put_args a) k w = k tt (mkWorld a (w_trace w)).
Proof. done. Qed.

Lemma bind_bind {X Y Z'} (m : M X) (k : X → M Y) (k' : Y → M Z') w :
  bind (bind m k) k' w = bind m (λ x, bind (k x) k') w.
Proof. unfold bind. by destruct (m w) as [[e|x] w']. Qed.

End effects.

(** One step of a computation at a time. *)
Ltac run :=
  repeat first
    [ rewrite bind_bind | rewrite bind_ret | rewrite bind_emit
    | rewrite bind_raise | rewrite bind_get_args | rewrite bind_put_args
    | rewrite after_after ].

(** ** The output projection and loss stage *)

Section loss_stage.
Context {F : Type} `{TorchArith F} {InferenceParams : Type}.
Variable env : Env (F := F).
Implicit Types (w : World (F := F) (InferenceParams := InferenceParams)).

Lemma select_cross_entropy_spec :
  select_cross_entropy env =
    if decide (1 < get_sequence_parallel_world_size env)
    then vocab_sequence_parallel_cross_entropy
    else vocab_parallel_cross_entropy.
Proof.
  unfold select_cross_entropy.
  destruct (Z.ltb_spec 1 (get_sequence_parallel_world_size env));
    case_decide; done || lia.
Qed.

(** Without labels the stage projects and reorients. *)
Lemma post_language_model_processing_None lm_output W po fp16 w :
  post_language_model_processing env lm_output None W po fp16 w =
  (transpose01 (parallel_lm_logits env lm_output W po),
   after w [call_parallel_lm_logits lm_output W po]).
Proof.
  unfold post_language_model_processing, contiguous.
  rewrite bind_emit, bind_lift. by destruct (transpose01 _).
Qed.

(** With labels it asserts the precision when asked to, calls the selected
    cross entropy on the reoriented labels and reorients the loss. *)
Lemma post_language_model_processing_Some lm_output labels labelsT W po fp16 w :
  transpose01 labels = inr labelsT →
  let output := parallel_lm_logits env lm_output W po in
  let alg := select_cross_entropy env in
  post_language_model_processing env lm_output (Some labels) W po fp16 w =
  if fp16 && negb (bool_decide (t_dtype output = torch_half)) then
    (inl AssertionError, after w [call_parallel_lm_logits lm_output W po])
  else
    let logits := if fp16 then output else float output in
    (transpose01 (cross_entropy_of env alg logits labelsT),
     after w [call_parallel_lm_logits lm_output W po;
              call_cross_entropy alg logits labelsT]).
Proof.
  intros HT output alg.
  unfold post_language_model_processing, contiguous.
  rewrite bind_emit, bind_lift, HT. fold output. fold alg.
  unfold cross_entropy_call.
  destruct fp16; simpl.
  - unfold assert. case_bool_decide; simpl; run; [|done].
    rewrite bind_lift. by destruct (transpose01 (cross_entropy_of _ _ _ _)).
  - run. rewrite bind_lift. by destruct (transpose01 (cross_entropy_of _ _ _ _)).
Qed.

Lemma transpose01_not_AssertionError {A} (t : Tensor A) :
  transpose01 t ≠ inl AssertionError.
Proof. unfold transpose01. by destruct (t_shape t) as [|? [|? ?]]. Qed.

(** C5: with labels present, the cross entropy is the sequence-parallel
    one exactly when the sequence-parallel world size exceeds 1 and the
    tensor-parallel one exactly when it is 1.  No call of the run is a call
    of the other algorithm, and the call is made whenever the labels have
    a batch and a sequence axis and the precision assertion passes. *)
Theorem post_language_model_processing_selects
    lm_output labels W po fp16 w :
  1 ≤ get_sequence_parallel_world_size env →
  let ws := get_sequence_parallel_world_size env in
  let output := parallel_lm_logits env lm_output W po in
  (select_cross_entropy env = vocab_sequence_parallel_cross_entropy ↔ 1 < ws) ∧
  (select_cross_entropy env = vocab_parallel_cross_entropy ↔ ws = 1) ∧
  ∃ evs,
    (post_language_model_processing env lm_output (Some labels) W po fp16 w).2
      = after w evs ∧
    (invokes vocab_sequence_parallel_cross_entropy evs → 1 < ws) ∧
    (invokes vocab_parallel_cross_entropy evs → ws = 1) ∧
    ((∃ labelsT, transpose01 labels = inr labelsT) →
     (fp16 = true → t_dtype output = torch_half) →
     (1 < ws → invokes vocab_sequence_parallel_cross_entropy evs) ∧
     (ws = 1 → invokes vocab_parallel_cross_entropy evs)).
Proof.
  intros Hws ws output.
  assert (Hsp : select_cross_entropy env = vocab_sequence_parallel_cross_entropy
                ↔ 1 < ws).
  { rewrite select_cross_entropy_spec. fold ws. case_decide; naive_solver. }
  assert (Htp : select_cross_entropy env = vocab_parallel_cross_entropy
                ↔ ws = 1).
  { rewrite select_cross_entropy_spec. fold ws.
    case_decide; split; (done || lia). }
  split; [done|]. split; [done|].
  destruct (transpose01 labels) as [e|labelsT] eqn:HT.
  { exists [call_parallel_lm_logits lm_output W po].
    unfold post_language_model_processing. rewrite bind_emit, bind_lift, HT.
    split; [done|].
    split; [|split]; [intros (? & ? & Hin)..|by intros [? ?]].
    - apply list_elem_of_singleton in Hin. done.
    - apply list_elem_of_singleton in Hin. done. }
  rewrite (post_language_model_processing_Some _ _ labelsT) by done.
  fold output.
  destruct (fp16 && negb (bool_decide (t_dtype output = torch_half))) eqn:Hp.
  { exists [call_parallel_lm_logits lm_output W po]. split; [done|].
    split; [|split]; [intros (? & ? & Hin)..|intros _ Hh].
    - apply list_elem_of_singleton in Hin. done.
    - apply list_elem_of_singleton in Hin. done.
    - apply andb_true_iff in Hp as [-> Hp]. apply negb_true_iff in Hp.
      rewrite bool_decide_eq_false in Hp. by destruct Hp, Hh. }
  eexists. split; [done|].
  assert (Hin : ∀ alg logits lbl evl,
            call_cross_entropy alg logits lbl
              ∈ [call_parallel_lm_logits (InferenceParams := InferenceParams)
                   lm_output W po;
                 call_cross_entropy (select_cross_entropy env) evl labelsT] →
            alg = select_cross_entropy env).
  { intros alg logits lbl evl Hin.
    apply elem_of_cons in Hin as [?|Hin]; [done|].
    apply list_elem_of_singleton in Hin. congruence. }
  split; [|split].
  - intros (? & ? & Hi). apply Hsp. symmetry. by eapply Hin.
  - intros (? & ? & Hi). apply Htp. symmetry. by eapply Hin.
  - intros _ _. split; intros Hw.
    + apply Hsp in Hw. do 2 eexists. rewrite <-Hw.
      apply list_elem_of_further, list_elem_of_here.
    + apply Htp in Hw. do 2 eexists. rewrite <-Hw.
      apply list_elem_of_further, list_elem_of_here.
Qed.

(** C6: with labels present and half-precision loss requested, logits
    that are not half precision fail the assertion before any cross
    entropy is called; without the request the cross entropy is called
    on the logits promoted to [torch.float], and no assertion fails. *)
Theorem post_language_model_processing_precision
    lm_output labels labelsT W po w :
  transpose01 labels = inr labelsT →
  let output := parallel_lm_logits env lm_output W po in
  (t_dtype output ≠ torch_half →
   post_language_model_processing env lm_output (Some labels) W po true w
   = (inl AssertionError, after w [call_parallel_lm_logits lm_output W po])) ∧
  (∃ r,
     post_language_model_processing env lm_output (Some labels) W po false w
     = (r, after w [call_parallel_lm_logits lm_output W po;
                    call_cross_entropy (select_cross_entropy env)
                      (float output) labelsT]) ∧
     r ≠ inl AssertionError ∧
     t_dtype (float output) = torch_float).
Proof.
  intros HT output. split.
  - intros Hd.
    rewrite (post_language_model_processing_Some _ _ labelsT) by done.
    fold output. by rewrite bool_decide_eq_false_2.
  - eexists. split; [|split].
    + by rewrite (post_language_model_processing_Some _ _ labelsT).
    + apply transpose01_not_AssertionError.
    + apply float_dtype.
Qed.

(** C7: the result is batch first.  For hidden states [[s, b, h]] projected
    to logits [[s, b, v]], without labels the result is the logits
    reoriented to [[b, s, v]]; with labels [[b, s]] the cross entropy
    receives them as [[s, b]] and its per-token loss is returned as
    [[b, s]]. *)
Theorem post_language_model_processing_orientation
    lm_output W po fp16 w s b h v :
  t_shape lm_output = [s; b; h] →
  let output := parallel_lm_logits env lm_output W po in
  t_shape output = [s; b; v] → wf output →
  (∀ alg logits lbl,
     t_shape (cross_entropy_of env alg logits lbl) = t_shape lbl) →
  (∃ t,
     (post_language_model_processing env lm_output None W po fp16 w).1
       = inr t ∧
     t_shape t = [b; s; v] ∧ wf t ∧
     ∀ i j k, item t [j; i; k] = item output [i; j; k]) ∧
  (∀ labels,
     t_shape labels = [b; s] → wf labels →
     (fp16 = true → t_dtype output = torch_half) →
     ∃ labelsT logits loss,
       transpose01 labels = inr labelsT ∧ t_shape labelsT = [s; b] ∧
       (∀ i j, item labelsT [j; i] = item labels [i; j]) ∧
       post_language_model_processing env lm_output (Some labels) W po fp16 w
       = (inr loss,
          after w [call_parallel_lm_logits lm_output W po;
                   call_cross_entropy (select_cross_entropy env)
                     logits labelsT]) ∧
       transpose01 (cross_entropy_of env (select_cross_entropy env)
                      logits labelsT) = inr loss ∧
       t_shape loss = [b; s]).
Proof.
  intros Hlm output Hout Hwf Hce. split.
  - rewrite post_language_model_processing_None. fold output. simpl.
    destruct (transpose01_shape output s b [v] Hout) as (t & Ht & Hs & _).
    exists t. split; [done|]. split; [done|].
    split; [by eapply transpose01_wf|].
    intros. by apply item_transpose01.
  - intros labels Hl Hwfl Hp.
    destruct (transpose01_shape labels b s [] Hl) as (labelsT & HT & HsT & _).
    rewrite (post_language_model_processing_Some _ _ labelsT) by done.
    cbv zeta. fold output.
    set (logits := if fp16 then output else float output).
    set (losses := cross_entropy_of env (select_cross_entropy env) logits labelsT).
    assert (Hls : t_shape losses = [s; b]) by (unfold losses; by rewrite Hce).
    destruct (transpose01_shape losses s b [] Hls) as (loss & Hloss & Hsl & _).
    exists labelsT, logits, loss.
    split; [done|]. split; [done|].
    split; [intros; by apply item_transpose01|].
    split; [|done].
    replace (fp16 && negb (bool_decide (t_dtype output = torch_half)))
      with false.
    + by rewrite Hloss.
    + destruct fp16; [|done]. by rewrite bool_decide_eq_true_2 by auto.
Qed.

End loss_stage.

(** ** The forward pass *)

Section forward_pass.
Context {F : Type} `{TorchArith F} {InferenceParams : Type}.
Variable env : Env (F := F).
Implicit Types (w : World (F := F) (InferenceParams := InferenceParams)).
Implicit Types (self : ChatGLM3Model (F := F) (InferenceParams := InferenceParams)).

(** The world once [args.curriculum_seqlen] is assigned. *)
Definition with_curriculum_seqlen (v : Z) w : World :=
  mkWorld (set_args_curriculum_seqlen v (w_args w)) (w_trace w).

(** The truncation of a tensor with a sequence axis of [s] positions to a
    length [0 ≤ k ≤ s]. *)
Lemma truncate_spec {A} (x : Tensor A) k b s rest w :
  t_shape x = b :: s :: rest → wf x → 0 ≤ k ≤ Z.of_nat s →
  ∃ x', truncate (F := F) (InferenceParams := InferenceParams) k x w
        = (inr x', w) ∧
        t_shape x' = b :: Z.to_nat k :: rest ∧ wf x' ∧
        t_dtype x' = t_dtype x ∧
        ∀ i j idx,
          item x' (i :: j :: idx)
          = if decide (j < Z.to_nat k)%nat then item x (i :: j :: idx)
            else None.
Proof.
  intros Hs Hwf Hk.
  assert (Hd : t_shape x !! 1%nat = Some s) by (by rewrite Hs).
  destruct (slice_to_shape x 1 k s Hd) as (x' & Hx' & Hs' & Hdt).
  exists x'. unfold truncate, contiguous. rewrite bind_lift, Hx'.
  split; [done|].
  rewrite slice_stop_nonneg in Hs' by lia.
  split; [by rewrite Hs', Hs|]. split; [by eapply slice_to_wf|].
  split; [done|]. intros i j idx.
  rewrite (item_slice_to x 1 k x' s (i :: j :: idx) j) by done.
  by rewrite slice_stop_nonneg by lia.
Qed.

Lemma truncate_mask_spec {A} (x : Tensor A) k m0 m1 s rest w :
  t_shape x = m0 :: m1 :: s :: s :: rest → wf x → 0 ≤ k ≤ Z.of_nat s →
  ∃ x', truncate_mask (F := F) (InferenceParams := InferenceParams) k x w
        = (inr x', w) ∧
        t_shape x' = m0 :: m1 :: Z.to_nat k :: Z.to_nat k :: rest ∧ wf x' ∧
        t_dtype x' = t_dtype x ∧
        ∀ a c i j idx,
          item x' (a :: c :: i :: j :: idx)
          = if decide (i < Z.to_nat k ∧ j < Z.to_nat k)%nat
            then item x (a :: c :: i :: j :: idx) else None.
Proof.
  intros Hs Hwf Hk.
  assert (Hd : t_shape x !! 2%nat = Some s) by (by rewrite Hs).
  destruct (slice_to_shape x 2 k s Hd) as (x1 & Hx1 & Hs1 & Hdt1).
  rewrite slice_stop_nonneg, Hs in Hs1 by lia. simpl in Hs1.
  pose proof (slice_to_wf _ _ _ _ Hwf Hx1) as Hwf1.
  assert (Hd1 : t_shape x1 !! 3%nat = Some s) by (by rewrite Hs1).
  destruct (slice_to_shape x1 3 k s Hd1) as (x2 & Hx2 & Hs2 & Hdt2).
  rewrite slice_stop_nonneg, Hs1 in Hs2 by lia. simpl in Hs2.
  exists x2. unfold truncate_mask, contiguous.
  rewrite bind_lift, Hx1, bind_lift, Hx2.
  split; [done|]. split; [done|]. split; [by eapply slice_to_wf|].
  split; [congruence|]. intros a c i j idx.
  rewrite (item_slice_to x1 3 k x2 s (a :: c :: i :: j :: idx) j) by done.
  rewrite (item_slice_to x 2 k x1 s (a :: c :: i :: j :: idx) i) by done.
  rewrite !slice_stop_nonneg by lia.
  destruct (decide (j < Z.to_nat k)%nat), (decide (i < Z.to_nat k)%nat);
    by (rewrite decide_True by done) || (rewrite decide_False by tauto).
Qed.

(** [curriculum_inputs] when a curriculum length is given. *)
Lemma curriculum_inputs_Some input_ids position_ids attention_mask labels k s w :
  size_at input_ids 1 = inr s →
  curriculum_inputs (F := F) input_ids position_ids attention_mask labels
    (Some k) w
  = if k <? Z.of_nat s then
      (input_ids' <- truncate k input_ids ;;
       position_ids' <- truncate k position_ids ;;
       labels' <-
         match labels with
         | Some labels => labels <- truncate k labels ;; ret (Some labels)
         | None => ret None
         end ;;
       attention_mask' <- truncate_mask k attention_mask ;;
       ret (input_ids', position_ids', labels', attention_mask'))
        (with_curriculum_seqlen k w)
    else
      (inr (input_ids, position_ids, labels, attention_mask),
       with_curriculum_seqlen k w).
Proof.
  intros Hs. unfold curriculum_inputs.
  rewrite bind_get_args, bind_put_args, bind_lift, Hs.
  by destruct (k <? Z.of_nat s).
Qed.

(** [x'] holds the first [k] positions of [x] along the sequence axis. *)
Definition truncated {A} (k : Z) (x x' : Tensor A) : Prop :=
  ∃ b s,
    t_shape x = [b; s] ∧ t_shape x' = [b; Z.to_nat k] ∧
    t_dtype x' = t_dtype x ∧ wf x' ∧
    ∀ i j, item x' [i; j]
           = if decide (j < Z.to_nat k)%nat then item x [i; j] else None.

(** [x'] holds the first [k] positions of [x] along both trailing axes. *)
Definition truncated_mask {A} (k : Z) (x x' : Tensor A) : Prop :=
  ∃ m0 m1 s,
    t_shape x = [m0; m1; s; s] ∧
    t_shape x' = [m0; m1; Z.to_nat k; Z.to_nat k] ∧
    t_dtype x' = t_dtype x ∧ wf x' ∧
    ∀ a c i j, item x' [a; c; i; j]
               = if decide (i < Z.to_nat k ∧ j < Z.to_nat k)%nat
                 then item x [a; c; i; j] else None.

(** The loss stage only adds calls to the world. *)
Lemma post_language_model_processing_world lm_output labels W po fp16 w :
  ∃ evs,
    (post_language_model_processing env lm_output labels W po fp16 w).2
    = after w evs.
Proof.
  destruct labels as [labels|].
  - destruct (transpose01 labels) as [e|labelsT] eqn:HT.
    + unfold post_language_model_processing.
      rewrite bind_emit, bind_lift, HT. eauto.
    + rewrite (post_language_model_processing_Some _ _ _ labelsT) by done.
      cbv zeta. case_match; eauto.
  - rewrite post_language_model_processing_None. eauto.
Qed.

(** [forward] after the curriculum step: the inner stage is called with
    the inputs of that step, and the tuple has two elements. *)
Lemma forward_after_curriculum self input_ids position_ids attention_mask
    r1 r2 r3 labels tokentype_ids ip curriculum_seqlen w
    input_ids' position_ids' labels' attention_mask' w1 :
  curriculum_inputs input_ids position_ids attention_mask labels
    curriculum_seqlen w
  = (inr (input_ids', position_ids', labels', attention_mask'), w1) →
  ∃ evs,
    (forward env self input_ids position_ids attention_mask r1 r2 r3 labels
       tokentype_ids ip curriculum_seqlen w).2
    = after w1 (call_language_model input_ids' position_ids' attention_mask'
                  r1 r2 r3 ip :: evs).
Proof.
  intros Hc. unfold forward, bind at 1. rewrite Hc.
  unfold language_model_call. run.
  destruct (lm_forward _ _ _ _ _ _ _ _ _) as [lm_output moe_losses].
  destruct (post_process self).
  - unfold bind.
    destruct (post_language_model_processing_world lm_output labels'
                (if untie_embeddings_and_output_weights self
                 then lm_output_layer_weight (language_model self)
                 else shared_embedding_or_output_weight (base self))
                (parallel_output self) (fp16_lm_cross_entropy self)
                (after w1 [call_language_model input_ids' position_ids'
                             attention_mask' r1 r2 r3 ip]))
      as (evs & Hevs).
    destruct (post_language_model_processing _ _ _ _ _ _ _) as [[e|t] w2];
      simpl in *; subst w2; rewrite after_after; eauto.
  - run. exists []. done.
Qed.

(** [forward] only looks at its inputs through the curriculum step. *)
Lemma forward_congruence self input_ids position_ids attention_mask
    input_ids' position_ids' attention_mask' labels labels'
    r1 r2 r3 tokentype_ids ip c c' w w' :
  curriculum_inputs (F := F) (InferenceParams := InferenceParams)
    input_ids position_ids attention_mask labels c w
  = curriculum_inputs input_ids' position_ids' attention_mask' labels' c' w' →
  forward env self input_ids position_ids attention_mask r1 r2 r3 labels
    tokentype_ids ip c w
  = forward env self input_ids' position_ids' attention_mask' r1 r2 r3 labels'
      tokentype_ids ip c' w'.
Proof. intros Hc. unfold forward, bind at 1 3. by rewrite Hc. Qed.

(** The tuple [forward] returns has two elements; the second one is the
    MoE losses when [return_moe_loss] is set, and the output once more
    when it is not. *)
Lemma forward_returns self input_ids position_ids attention_mask
    r1 r2 r3 labels tokentype_ids ip curriculum_seqlen w :
  match (forward env self input_ids position_ids attention_mask r1 r2 r3
           labels tokentype_ids ip curriculum_seqlen w).1 with
  | inr r =>
      ∃ output moe_losses,
        r = [RTensor output;
             if return_moe_loss self then RLosses moe_losses
             else RTensor output]
  | inl _ => True
  end.
Proof.
  unfold forward, bind at 1.
  destruct (curriculum_inputs _ _ _ _ _ _) as [[e|[[[i p] l] m]] w1]; [done|].
  unfold bind at 1.
  destruct (language_model_call _ _ _ _ _ _ _ _ _) as [[e|[o ml]] w2]; [done|].
  unfold bind at 1.
  destruct (if post_process self then _ else _) as [[e|t] w3]; [done|].
  simpl. eauto.
Qed.

(** The values the curriculum step hands on: for [0 ≤ k < s] the first [k]
    positions, and [forward] behaves as on them; for [k ≥ s] the inputs
    themselves. *)
Lemma curriculum_truncation_values self input_ids position_ids
    attention_mask r1 r2 r3 labels tokentype_ids ip k b s m0 m1 w :
  t_shape input_ids = [b; s] → wf input_ids →
  t_shape position_ids = [b; s] → wf position_ids →
  t_shape attention_mask = [m0; m1; s; s] → wf attention_mask →
  (∀ l, labels = Some l → t_shape l = [b; s] ∧ wf l) →
  0 ≤ k →
  (k < Z.of_nat s →
   ∃ input_ids' position_ids' labels' attention_mask',
     curriculum_inputs input_ids position_ids attention_mask labels (Some k) w
     = (inr (input_ids', position_ids', labels', attention_mask'),
        with_curriculum_seqlen k w) ∧
     truncated k input_ids input_ids' ∧
     truncated k position_ids position_ids' ∧
     option_Forall2 (truncated k) labels labels' ∧
     truncated_mask k attention_mask attention_mask' ∧
     (∃ evs,
        (forward env self input_ids position_ids attention_mask r1 r2 r3
           labels tokentype_ids ip (Some k) w).2
        = after (with_curriculum_seqlen k w)
            (call_language_model input_ids' position_ids' attention_mask'
               r1 r2 r3 ip :: evs)) ∧
     forward env self input_ids position_ids attention_mask r1 r2 r3
       labels tokentype_ids ip (Some k) w
     = forward env self input_ids' position_ids' attention_mask' r1 r2 r3
         labels' tokentype_ids ip (Some k) w) ∧
  (Z.of_nat s ≤ k →
   curriculum_inputs input_ids position_ids attention_mask labels (Some k) w
   = (inr (input_ids, position_ids, labels, attention_mask),
      with_curriculum_seqlen k w) ∧
   ∃ evs,
     (forward env self input_ids position_ids attention_mask r1 r2 r3
        labels tokentype_ids ip (Some k) w).2
     = after (with_curriculum_seqlen k w)
         (call_language_model input_ids position_ids attention_mask
            r1 r2 r3 ip :: evs)).
Proof.
  intros Hi Hwi Hp Hwp Hm Hwm Hl Hk.
  assert (Hsize : size_at input_ids 1 = inr s)
    by (unfold size_at; by rewrite Hi).
  split.
  - intros Hlt. set (w1 := with_curriculum_seqlen k w).
    destruct (truncate_spec input_ids k b s [] w1 Hi Hwi)
      as (i' & Hti & Hsi & Hwi' & Hdi & Hii); [lia|].
    destruct (truncate_spec position_ids k b s [] w1 Hp Hwp)
      as (p' & Htp & Hsp & Hwp' & Hdp & Hip); [lia|].
    destruct (truncate_mask_spec attention_mask k m0 m1 s [] w1 Hm Hwm)
      as (m' & Htm & Hsm & Hwm' & Hdm & Him); [lia|].
    assert (Hlab : ∃ l',
      (match labels with
       | Some labels => labels <- truncate k labels ;; ret (Some labels)
       | None => ret None
       end) w1 = (inr l', w1) ∧ option_Forall2 (truncated k) labels l').
    { destruct labels as [l|].
      - destruct (Hl l eq_refl) as [Hsl Hwl].
        destruct (truncate_spec l k b s [] w1 Hsl Hwl)
          as (l' & Htl & Hsl' & Hwl' & Hdl & Hil); [lia|].
        exists (Some l'). split.
        + unfold bind. by rewrite Htl.
        + constructor. exists b, s. auto.
      - exists None. split; [done|constructor]. }
    destruct Hlab as (l' & Htl & Hfl).
    assert (Hc : curriculum_inputs (F := F) (InferenceParams := InferenceParams)
                   input_ids position_ids attention_mask labels (Some k) w
                 = (inr (i', p', l', m'), w1)).
    { rewrite (curriculum_inputs_Some _ _ _ _ _ s) by done.
      apply Z.ltb_lt in Hlt. rewrite Hlt. fold w1.
      unfold bind at 1. rewrite Hti. unfold bind at 1. rewrite Htp.
      unfold bind at 1. rewrite Htl. unfold bind at 1. by rewrite Htm. }
    exists i', p', l', m'. split; [done|].
    split; [exists b, s; auto|]. split; [exists b, s; auto|].
    split; [done|]. split; [exists m0, m1, s; auto|].
    split; [by eapply forward_after_curriculum|].
    apply forward_congruence. rewrite Hc.
    assert (Hsize' : size_at i' 1 = inr (Z.to_nat k))
      by (unfold size_at; by rewrite Hsi).
    rewrite (curriculum_inputs_Some _ _ _ _ _ (Z.to_nat k)) by done.
    by rewrite Z2Nat.id, Z.ltb_irrefl by lia.
  - intros Hge.
    assert (Hc : curriculum_inputs (F := F) (InferenceParams := InferenceParams)
                   input_ids position_ids attention_mask labels (Some k) w
                 = (inr (input_ids, position_ids, labels, attention_mask),
                    with_curriculum_seqlen k w)).
    { rewrite (curriculum_inputs_Some _ _ _ _ _ s) by done.
      apply Z.ltb_ge in Hge. by rewrite Hge. }
    split; [done|]. by eapply forward_after_curriculum.
Qed.

(** The layout of the truncated ids, position ids and labels: contiguous;
    the slice itself for a batch of one, a packed copy for a larger
    batch. *)
Lemma truncate_layout_spec fresh k v b s :
  v_sizes v = [b; s] → v_strides v = row_major [b; s] →
  0 ≤ k < Z.of_nat s →
  ∃ v',
    truncate_layout fresh k v = inr v' ∧
    v_sizes v' = [b; Z.to_nat k] ∧ view_is_contiguous v' = true ∧
    (b = 1%nat → v_storage v' = v_storage v) ∧
    ((2 ≤ b)%nat → 0 < k → v_storage v' = fresh).
Proof.
  intros Hs Hst Hk. unfold truncate_layout, view_slice_to. rewrite Hs. simpl.
  rewrite slice_stop_nonneg by lia.
  eexists. split; [done|].
  split; [by rewrite view_contiguous_sizes|].
  split; [apply view_contiguous_is_contiguous|].
  rewrite view_contiguous_storage. unfold view_is_contiguous. simpl.
  rewrite Hst. unfold numel. simpl. split.
  - intros ->. repeat case_bool_decide; simpl; done || lia.
  - intros Hb Hk0. repeat case_bool_decide; simpl; done || lia.
Qed.

(** The layout of the truncated attention mask: contiguous; a packed copy
    once two positions or more are kept. *)
Lemma truncate_mask_layout_spec fresh k v m0 m1 s :
  v_sizes v = [m0; m1; s; s] → v_strides v = row_major [m0; m1; s; s] →
  0 ≤ k < Z.of_nat s →
  ∃ v',
    truncate_mask_layout fresh k v = inr v' ∧
    v_sizes v' = [m0; m1; Z.to_nat k; Z.to_nat k] ∧
    view_is_contiguous v' = true ∧
    (m0 = 1%nat → m1 = 1%nat → k = 1 → v_storage v' = v_storage v) ∧
    ((1 ≤ m0)%nat → (1 ≤ m1)%nat → 2 ≤ k → v_storage v' = fresh).
Proof.
  intros Hs Hst Hk. unfold truncate_mask_layout, view_slice_to.
  rewrite Hs. simpl. rewrite !slice_stop_nonneg by lia.
  eexists. split; [done|].
  split; [by rewrite view_contiguous_sizes|].
  split; [apply view_contiguous_is_contiguous|].
  rewrite view_contiguous_storage. unfold view_is_contiguous. simpl.
  rewrite Hst. unfold numel. simpl. split.
  - intros -> -> ->. repeat case_bool_decide; simpl; done || lia.
  - intros Hm0 Hm1 Hk2. repeat case_bool_decide; simpl; done || nia.
Qed.

(** C8, as the code has it: for a curriculum length [k] with [0 ≤ k < s],
    the input ids, the position ids and the labels, when present, are
    truncated to their first [k] positions along the sequence axis and the
    attention mask along both trailing axes; the inner stage and the loss
    stage get the truncated tensors, so that [forward] behaves as on them.
    Each truncated tensor is contiguous: a packed copy in a new storage
    when the slice is not contiguous, and the slice itself, in the storage
    of the caller's tensor, when it is, as for a batch of one sequence.
    A curriculum length [k ≥ s] leaves all inputs unchanged. *)
Theorem forward_curriculum_truncation self input_ids position_ids
    attention_mask r1 r2 r3 labels tokentype_ids ip k b s m0 m1 w :
  t_shape input_ids = [b; s] → wf input_ids →
  t_shape position_ids = [b; s] → wf position_ids →
  t_shape attention_mask = [m0; m1; s; s] → wf attention_mask →
  (∀ l, labels = Some l → t_shape l = [b; s] ∧ wf l) →
  0 ≤ k →
  (k < Z.of_nat s →
   (∃ input_ids' position_ids' labels' attention_mask',
      curriculum_inputs input_ids position_ids attention_mask labels (Some k) w
      = (inr (input_ids', position_ids', labels', attention_mask'),
         with_curriculum_seqlen k w) ∧
      truncated k input_ids input_ids' ∧
      truncated k position_ids position_ids' ∧
      option_Forall2 (truncated k) labels labels' ∧
      truncated_mask k attention_mask attention_mask' ∧
      (∃ evs,
         (forward env self input_ids position_ids attention_mask r1 r2 r3
            labels tokentype_ids ip (Some k) w).2
         = after (with_curriculum_seqlen k w)
             (call_language_model input_ids' position_ids' attention_mask'
                r1 r2 r3 ip :: evs)) ∧
      forward env self input_ids position_ids attention_mask r1 r2 r3
        labels tokentype_ids ip (Some k) w
      = forward env self input_ids' position_ids' attention_mask' r1 r2 r3
          labels' tokentype_ids ip (Some k) w) ∧
   (∀ v fresh,
      v_sizes v = [b; s] → v_strides v = row_major [b; s] →
      ∃ v',
        truncate_layout fresh k v = inr v' ∧
        v_sizes v' = [b; Z.to_nat k] ∧ view_is_contiguous v' = true ∧
        (b = 1%nat → v_storage v' = v_storage v) ∧
        ((2 ≤ b)%nat → 0 < k → v_storage v' = fresh)) ∧
   (∀ v fresh,
      v_sizes v = [m0; m1; s; s] → v_strides v = row_major [m0; m1; s; s] →
      ∃ v',
        truncate_mask_layout fresh k v = inr v' ∧
        v_sizes v' = [m0; m1; Z.to_nat k; Z.to_nat k] ∧
        view_is_contiguous v' = true ∧
        (m0 = 1%nat → m1 = 1%nat → k = 1 → v_storage v' = v_storage v) ∧
        ((1 ≤ m0)%nat → (1 ≤ m1)%nat → 2 ≤ k → v_storage v' = fresh))) ∧
  (Z.of_nat s ≤ k →
   curriculum_inputs input_ids position_ids attention_mask labels (Some k) w
   = (inr (input_ids, position_ids, labels, attention_mask),
      with_curriculum_seqlen k w) ∧
   ∃ evs,
     (forward env self input_ids position_ids attention_mask r1 r2 r3
        labels tokentype_ids ip (Some k) w).2
     = after (with_curriculum_seqlen k w)
         (call_language_model input_ids position_ids attention_mask
            r1 r2 r3 ip :: evs)).
Proof.
  intros Hi Hwi Hp Hwp Hm Hwm Hl Hk.
  destruct (curriculum_truncation_values self input_ids position_ids
              attention_mask r1 r2 r3 labels tokentype_ids ip k b s m0 m1 w
              Hi Hwi Hp Hwp Hm Hwm Hl Hk) as [Hlt Hge].
  split; [|done]. intros Hks. split; [by apply Hlt|]. split.
  - intros v fresh Hs Hst.
    apply (truncate_layout_spec fresh k v b s); [done|done|lia].
  - intros v fresh Hs Hst.
    apply (truncate_mask_layout_spec fresh k v m0 m1 s); [done|done|lia].
Qed.

End forward_pass.

(** ** The masked loss *)

Section masked_loss.
Context {F : Type} `{TorchArith F} {InferenceParams : Type}.
Implicit Types (env : Env (F := F)).
Implicit Types (w : World (F := F) (InferenceParams := InferenceParams)).


(** [CrossEntropy] once the labels are reoriented. *)
Lemma CrossEntropy_run env output labels loss_mask labelsT w :
  transpose01 labels = inr labelsT →
  let logits := float (contiguous output) in
  let losses :=
    cross_entropy_of env vocab_parallel_cross_entropy logits labelsT in
  CrossEntropy env output (labels, loss_mask) w
  = (match transpose01 losses with
     | inr losses =>
         match view_flat loss_mask with
         | inr loss_mask =>
             match mul (flatten losses) loss_mask with
             | inr weighted => div (sum weighted) (sum loss_mask)
             | inl e => inl e
             end
         | inl e => inl e
         end
     | inl e => inl e
     end,
     after w [call_cross_entropy vocab_parallel_cross_entropy logits labelsT]).
Proof.
  intros HT logits losses. unfold CrossEntropy, cross_entropy_call. simpl.
  rewrite bind_get_args, bind_lift, HT. run.
  unfold contiguous in *. fold logits. fold losses.
  rewrite bind_lift. destruct (transpose01 losses) as [e|lossesT]; [done|].
  rewrite bind_lift. destruct (view_flat loss_mask) as [e|mask]; [done|].
  rewrite bind_lift.
  destruct (mul (flatten lossesT) mask) as [e|weighted]; [done|].
  rewrite bind_lift. by destruct (div _ _).
Qed.

Lemma CrossEntropy_no_labels env output labels loss_mask e w :
  transpose01 labels = inl e →
  CrossEntropy env output (labels, loss_mask) w = (inl e, w).
Proof.
  intros HT. unfold CrossEntropy. simpl.
  by rewrite bind_get_args, bind_lift, HT.
Qed.


(** The dtype of a true division. *)
Definition quotient_dtype (a b : dtype) : dtype :=
  let dt := promote_types a b in
  if is_floating_point dt then dt else torch_float.

(** The sum of the per-token losses times the mask, divided by the sum of
    the mask; [dl] and [dm] are the dtypes of the losses and of the mask. *)
Definition masked_mean (dl dm : dtype) (losses mask : list F) : F :=
  let dw := promote_types dl dm in
  fdiv (quotient_dtype (sum_dtype dw) (sum_dtype dm))
    (fsum (sum_dtype dw) (zip_with (fmul dw) losses mask))
    (fsum (sum_dtype dm) mask).

Lemma CrossEntropy_value env output labels loss_mask labelsT lossesT b s w :
  transpose01 labels = inr labelsT →
  let logits := float (contiguous output) in
  transpose01 (cross_entropy_of env vocab_parallel_cross_entropy logits labelsT)
  = inr lossesT →
  t_shape lossesT = [b; s] → t_shape (s_tensor loss_mask) = [b; s] →
  view_flat loss_mask = inr (flatten (s_tensor loss_mask)) →
  CrossEntropy env output (labels, loss_mask) w
  = (inr (mkTensor
            (quotient_dtype
               (sum_dtype (promote_types (t_dtype lossesT)
                             (t_dtype (s_tensor loss_mask))))
               (sum_dtype (t_dtype (s_tensor loss_mask))))
            []
            [masked_mean (t_dtype lossesT) (t_dtype (s_tensor loss_mask))
               (t_data lossesT) (t_data (s_tensor loss_mask))]),
     after w [call_cross_entropy vocab_parallel_cross_entropy logits labelsT]).
Proof.
  intros HT logits HL Hsl Hsm Hview.
  rewrite (CrossEntropy_run _ _ _ _ labelsT) by done. fold logits.
  rewrite HL, Hview. unfold mul, flatten. simpl. rewrite Hsl, Hsm.
  by rewrite decide_True by done.
Qed.


(** C3, as the code has it: with a loss mask [[b, s]] that is zero
    everywhere and contiguous, [CrossEntropy] raises nothing; it divides by
    the zero sum of the mask and returns NaN. *)
Theorem CrossEntropy_zero_mask `{!IEEE F}
    env output labels loss_mask labelsT lossesT b s w :
  transpose01 labels = inr labelsT →
  let logits := float (contiguous output) in
  transpose01 (cross_entropy_of env vocab_parallel_cross_entropy logits labelsT)
  = inr lossesT →
  t_shape lossesT = [b; s] → t_shape (s_tensor loss_mask) = [b; s] →
  laid_out loss_mask → view_is_contiguous (s_view loss_mask) = true →
  Forall (λ x, is_zero x = true) (t_data (s_tensor loss_mask)) →
  ∃ loss x w',
    CrossEntropy env output (labels, loss_mask) w = (inr loss, w') ∧
    t_shape loss = [] ∧ t_data loss = [x] ∧ is_nan x = true.
Proof.
  intros HT logits HL Hsl Hsm [_ Hlen] Hc Hz.
  pose proof (view_flat_contiguous loss_mask Hlen Hc) as Hview.
  do 3 eexists. split; [|split; [|split]].
  - by apply (CrossEntropy_value env _ _ _ labelsT lossesT b s).
  - done.
  - done.
  - unfold masked_mean. apply fdiv_zero.
    + apply fsum_zero_or_nan.
      generalize (t_data lossesT). induction Hz as [|z mask Hzz _ IH];
        intros [|l ls]; simpl; constructor.
      * by apply fmul_zero.
      * apply IH.
    + by apply fsum_zero.
Qed.

End masked_loss.

(** ** The checkpoint adapter *)

Section checkpoint.
Context {F : Type} `{TorchArith F} {InferenceParams : Type}.
Variable env : Env (F := F).
Implicit Types (w : World (F := F) (InferenceParams := InferenceParams)).
Implicit Types (self : ChatGLM3Model (F := F) (InferenceParams := InferenceParams)).
Implicit Types (d acc src : StateDict F).

(** The body of both key loops: move the key from [src] to [acc] when it
    passes the test. *)
Definition move (P : string → bool) (key : string)
    (st : StateDict F * StateDict F)
    : M (F := F) (InferenceParams := InferenceParams)
        (StateDict F * StateDict F) :=
  let '(acc, src) := st in
  if P key then
    popped <- lift (pop src key) ;;
    ret (<[key := popped.1]> acc, popped.2)
  else ret (acc, src).

(** The entries of [src] whose key is in [l] and passes the test. *)
Definition picked (P : string → bool) (l : list string) src : StateDict F :=
  filter (λ kv, kv.1 ∈ l ∧ P kv.1 = true) src.

(** The other entries of [src]. *)
Definition left_over (P : string → bool) (l : list string) src : StateDict F :=
  filter (λ kv, ¬ (kv.1 ∈ l ∧ P kv.1 = true)) src.

Lemma lookup_filter_decide {V} (P : string * V → Prop)
    `{!∀ x, Decision (P x)} (m : gmap string V) j :
  filter P m !! j
  = match m !! j with
    | Some x => if decide (P (j, x)) then Some x else None
    | None => None
    end.
Proof.
  rewrite map_lookup_filter. destruct (m !! j) as [x|]; [|done]. simpl.
  case_decide; [by rewrite option_guard_True|by rewrite option_guard_False].
Qed.

Lemma picked_nil P src : picked P [] src = ∅.
Proof.
  apply map_eq. intros j. unfold picked.
  rewrite lookup_filter_decide, lookup_empty.
  destruct (src !! j); [|done]. rewrite decide_False; [done|].
  intros [Hj _]. by apply elem_of_nil in Hj.
Qed.

Lemma left_over_nil P src : left_over P [] src = src.
Proof.
  apply map_eq. intros j. unfold left_over. rewrite lookup_filter_decide.
  destruct (src !! j); [|done]. rewrite decide_True; [done|].
  intros [Hj _]. by apply elem_of_nil in Hj.
Qed.

Lemma picked_cons_True P k l acc src v :
  P k = true → src !! k = Some v →
  picked P l (delete k src) ∪ <[k := v]> acc = picked P (k :: l) src ∪ acc.
Proof.
  intros HP Hv. apply map_eq. intros j. unfold picked.
  rewrite !lookup_union, !lookup_filter_decide.
  destruct (decide (j = k)) as [->|Hne].
  - rewrite lookup_delete_eq, lookup_insert_eq, Hv.
    rewrite decide_True by (split; [left|done]). by destruct (acc !! k).
  - rewrite lookup_delete_ne, lookup_insert_ne by congruence.
    destruct (src !! j) as [x|]; [|done]. simpl.
    destruct (decide (j ∈ l ∧ P j = true)) as [[Hj HPj]|Hn].
    + by rewrite decide_True by (split; [right|]; done).
    + rewrite decide_False; [done|]. intros [Hj HPj]. apply Hn.
      split; [|done]. apply elem_of_cons in Hj as [?|?]; done.
Qed.

Lemma left_over_cons_True P k l src :
  P k = true → left_over P l (delete k src) = left_over P (k :: l) src.
Proof.
  intros HP. apply map_eq. intros j. unfold left_over.
  rewrite !lookup_filter_decide.
  destruct (decide (j = k)) as [->|Hne].
  - rewrite lookup_delete_eq. destruct (src !! k); [|done].
    rewrite decide_False; [done|]. intros Hn. apply Hn. by split; [left|].
  - rewrite lookup_delete_ne by congruence.
    destruct (src !! j) as [x|]; [|done]. simpl.
    destruct (decide (j ∈ l ∧ P j = true)) as [[Hj HPj]|Hn].
    + rewrite !decide_False; [done| |].
      * intros Hn. apply Hn. by split; [right|].
      * intros Hn. by apply Hn.
    + rewrite !decide_True; [done| |done].
      intros [Hj HPj]. apply Hn. split; [|done].
      apply elem_of_cons in Hj as [?|?]; done.
Qed.

Lemma picked_cons_False P k l src :
  P k = false → picked P l src = picked P (k :: l) src.
Proof.
  intros HP. apply map_eq. intros j. unfold picked.
  rewrite !lookup_filter_decide. destruct (src !! j) as [x|]; [|done]. simpl.
  destruct (decide (j ∈ l ∧ P j = true)) as [[Hj HPj]|Hn].
  - by rewrite decide_True by (split; [right|]; done).
  - rewrite decide_False; [done|]. intros [Hj HPj]. apply Hn.
    split; [|done]. apply elem_of_cons in Hj as [->|?]; [congruence|done].
Qed.

Lemma left_over_cons_False P k l src :
  P k = false → left_over P l src = left_over P (k :: l) src.
Proof.
  intros HP. apply map_eq. intros j. unfold left_over.
  rewrite !lookup_filter_decide. destruct (src !! j) as [x|]; [|done]. simpl.
  destruct (decide (j ∈ l ∧ P j = true)) as [[Hj HPj]|Hn].
  - rewrite !decide_False; [done| |].
    + intros Hn. apply Hn. by split; [right|].
    + intros Hn. by apply Hn.
  - rewrite !decide_True; [done| |done].
    intros [Hj HPj]. apply Hn. split; [|done].
    apply elem_of_cons in Hj as [->|?]; [congruence|done].
Qed.

Lemma move_True P k acc src v w :
  P k = true → src !! k = Some v →
  move P k (acc, src) w = (inr (<[k := v]> acc, delete k src), w).
Proof.
  intros HP Hv. unfold move. rewrite HP, bind_lift. unfold pop.
  by rewrite Hv.
Qed.

Lemma move_False P k acc src w :
  P k = false → move P k (acc, src) w = (inr (acc, src), w).
Proof. intros HP. unfold move. by rewrite HP. Qed.

(** The loop moves the entries that pass the test, and only them. *)
Lemma for_each_move P l acc src w :
  NoDup l → (∀ k, k ∈ l → is_Some (src !! k)) →
  for_each l (move P) (acc, src) w
  = (inr (picked P l src ∪ acc, left_over P l src), w).
Proof.
  intros Hnd. revert acc src.
  induction Hnd as [|k l Hk Hnd IH]; intros acc src Hin.
  - simpl. unfold ret.
    by rewrite picked_nil, left_over_nil, (left_id_L ∅ (∪)).
  - destruct (Hin k) as [v Hv]; [left|].
    cbn [for_each]. unfold bind at 1.
    destruct (P k) eqn:HP.
    + rewrite (move_True _ _ _ _ v) by done.
      rewrite IH.
      2:{ intros k' Hk'. rewrite lookup_delete_ne by (intros ->; done).
          apply Hin. by right. }
      by rewrite (picked_cons_True P k l acc src v), left_over_cons_True.
    + rewrite move_False by done.
      rewrite IH by (intros k' Hk'; apply Hin; by right).
      by rewrite <-picked_cons_False, <-left_over_cons_False.
Qed.

Lemma elem_of_keys {V} (m : gmap string V) k : k ∈ keys m ↔ is_Some (m !! k).
Proof.
  unfold keys. rewrite list_elem_of_fmap. split.
  - intros ([k' v] & -> & Hkv). apply elem_of_map_to_list in Hkv. eauto.
  - intros [v Hv]. exists (k, v). split; [done|].
    by apply elem_of_map_to_list.
Qed.

Lemma NoDup_keys {V} (m : gmap string V) : NoDup (keys m).
Proof. apply NoDup_fst_map_to_list. Qed.

(** Over all the keys of the dict. *)
Lemma picked_keys P src :
  picked P (keys src) src = filter (λ kv, P kv.1 = true) src.
Proof.
  apply map_filter_ext. intros j x Hj. simpl. split; [by intros [_ ?]|].
  intros HP. split; [|done]. apply elem_of_keys. eauto.
Qed.

Lemma left_over_keys P src :
  left_over P (keys src) src = filter (λ kv, P kv.1 = false) src.
Proof.
  apply map_filter_ext. intros j x Hj. simpl. split.
  - intros Hn. destruct (P j) eqn:HP; [|done]. destruct Hn.
    split; [|done]. apply elem_of_keys. eauto.
  - intros HP [_ HP']. congruence.
Qed.

(** The entries the scan of [load_state_dict] gathers, and the others. *)
Definition experts d : StateDict F :=
  filter (λ kv, is_expert_key kv.1 = true) d.

Definition others d : StateDict F :=
  filter (λ kv, is_expert_key kv.1 = false) d.

Lemma experts_insert_other k v d :
  is_expert_key k = false → experts (<[k := v]> d) = experts d.
Proof.
  intros Hk. apply map_eq. intros j. unfold experts.
  rewrite !lookup_filter_decide.
  destruct (decide (j = k)) as [->|Hne].
  - rewrite lookup_insert_eq. rewrite decide_False by (simpl; congruence).
    destruct (d !! k); [|done]. by rewrite decide_False by (simpl; congruence).
  - by rewrite lookup_insert_ne by congruence.
Qed.

Lemma others_insert_other k v d :
  is_expert_key k = false → others (<[k := v]> d) = <[k := v]> (others d).
Proof.
  intros Hk. apply map_eq. intros j. unfold others.
  destruct (decide (j = k)) as [->|Hne].
  - rewrite lookup_insert_eq, lookup_filter_decide, lookup_insert_eq.
    by rewrite decide_True.
  - rewrite lookup_insert_ne, !lookup_filter_decide, lookup_insert_ne
      by congruence. done.
Qed.

Lemma experts_all d :
  (∀ k, is_Some (d !! k) → is_expert_key k = true) → experts d = d.
Proof.
  intros Hd. apply map_eq. intros j. unfold experts.
  rewrite lookup_filter_decide. destruct (d !! j) as [x|] eqn:Hj; [|done].
  rewrite decide_True; [done|]. simpl. apply Hd. by rewrite Hj.
Qed.

Lemma others_all d :
  (∀ k, is_Some (d !! k) → is_expert_key k = true) → others d = ∅.
Proof.
  intros Hd. apply map_eq. intros j. unfold others.
  rewrite lookup_filter_decide, lookup_empty.
  destruct (d !! j) as [x|] eqn:Hj; [|done].
  rewrite decide_False; [done|]. simpl. rewrite Hd by (by rewrite Hj). done.
Qed.

(** The dict [state_dict_for_save_checkpoint] returns. *)
Definition with_head self (prefix : string) (keep_vars : bool) d : StateDict F :=
  if saves_word_embeddings self then
    <[_word_embeddings_for_head_key (base self) :=
        SVDict (word_embeddings_state_dict (base self) prefix keep_vars)]> d
  else d.

Lemma state_dict_for_save_checkpoint_run self prefix keep_vars w :
  let lm_sd :=
    lm_state_dict_for_save_checkpoint (language_model self) prefix keep_vars in
  state_dict_for_save_checkpoint self prefix keep_vars w
  = match lm_sd !! "moe_state_dict" with
    | Some (SVDict moe) =>
        (inr (with_head self prefix keep_vars
                (<[_language_model_key self :=
                     SVDict (delete "moe_state_dict" lm_sd)]> moe)), w)
    | Some (SVTensor _) => (inl AttributeError, w)
    | None =>
        (inr (with_head self prefix keep_vars
                (<[_language_model_key self := SVDict lm_sd]> ∅)), w)
    end.
Proof.
  intros lm_sd. unfold state_dict_for_save_checkpoint. fold lm_sd.
  destruct (lm_sd !! "moe_state_dict") as [[t|moe]|] eqn:Hmoe.
  - by rewrite bind_bind, bind_lift.
  - rewrite bind_bind, bind_lift. simpl. rewrite bind_bind.
    change (for_each (keys moe) _ (∅, moe))
      with (for_each (keys moe) (move (λ _, true)) (∅, moe)).
    unfold bind at 1.
    rewrite for_each_move by (apply NoDup_keys || by intros k ?%elem_of_keys).
    run. cbn [fst]. rewrite (right_id_L ∅ (∪)), picked_keys.
    rewrite map_filter_id by done. done.
  - by run.
Qed.

(** [load_state_dict] after the head embeddings are loaded. *)
Definition load_gathered self (state_dict : StateDict F) (strict : bool)
    : M (F := F) (InferenceParams := InferenceParams) (StateDict F) :=
  let moe_state_dict := experts state_dict in
  let state_dict := others state_dict in
  match state_dict !! _language_model_key self with
  | Some inner =>
      inner <-
        (if decide (0 < size moe_state_dict)%nat
         then lift (setitem inner "moe_state_dict" (SVDict moe_state_dict))
         else ret inner) ;;
      emit (call_language_model_load_state_dict inner strict) ;;
      ret (<[_language_model_key self := inner]> state_dict)
  | None =>
      let state_dict :=
        if decide (0 < size moe_state_dict)%nat
        then <["moe_state_dict" := SVDict moe_state_dict]> state_dict
        else state_dict in
      emit (call_language_model_load_state_dict (SVDict state_dict) strict) ;;
      ret state_dict
  end.

Lemma load_state_dict_run self state_dict strict w :
  load_state_dict self state_dict strict w
  = if saves_word_embeddings self then
      match state_dict !! _word_embeddings_for_head_key (base self) with
      | Some sd =>
          load_gathered self state_dict strict
            (after w [call_word_embeddings_load_state_dict sd strict])
      | None =>
          (inl (KeyError (_word_embeddings_for_head_key (base self))), w)
      end
    else load_gathered self state_dict strict w.
Proof.
  assert (Hscan : ∀ w',
    (st <- for_each (keys state_dict)
             (λ key '(moe_state_dict, state_dict),
                if is_expert_key key then
                  popped <- lift (pop state_dict key) ;;
                  ret (<[key := popped.1]> moe_state_dict, popped.2)
                else ret (moe_state_dict, state_dict))
             (∅, state_dict) ;;
     let '(moe_state_dict, state_dict) := st in
     match state_dict !! _language_model_key self with
     | Some inner =>
         inner <-
           (if decide (0 < size moe_state_dict)%nat
            then lift (setitem inner "moe_state_dict" (SVDict moe_state_dict))
            else ret inner) ;;
         emit (call_language_model_load_state_dict inner strict) ;;
         ret (<[_language_model_key self := inner]> state_dict)
     | None =>
         let state_dict :=
           if decide (0 < size moe_state_dict)%nat
           then <["moe_state_dict" := SVDict moe_state_dict]> state_dict
           else state_dict in
         emit (call_language_model_load_state_dict (SVDict state_dict) strict) ;;
         ret state_dict
     end) w'
    = load_gathered self state_dict strict w').
  { intros w'.
    change (for_each (keys state_dict) _ (∅, state_dict))
      with (for_each (keys state_dict) (move is_expert_key) (∅, state_dict)).
    unfold bind at 1.
    rewrite for_each_move by (apply NoDup_keys || by intros k ?%elem_of_keys).
    rewrite (right_id_L ∅ (∪)), picked_keys, left_over_keys. done. }
  unfold load_state_dict.
  destruct (saves_word_embeddings self).
  - rewrite !bind_bind, bind_lift. unfold getitem.
    destruct (state_dict !! _) as [sd|]; [|done].
    rewrite bind_emit. apply Hscan.
  - rewrite bind_ret. apply Hscan.
Qed.

(** The discipline of the MoE sub-state: when the dict of the inner stage
    has a [moe_state_dict] entry, it is a dict whose keys all pass the
    test of the scan. *)
Definition moe_entry_expert_marked (lm_sd : StateDict F) : Prop :=
  ∀ v, lm_sd !! "moe_state_dict" = Some v →
       ∃ moe, v = SVDict moe ∧
              ∀ k, is_Some (moe !! k) → is_expert_key k = true.

(** The parameter tree of a dict: the tensors with their paths. *)
Inductive has_param : StateDict F → list string → Tensor F → Prop :=
| has_param_here d k t :
    d !! k = Some (SVTensor t) → has_param d [k] t
| has_param_deeper d k d' p t :
    d !! k = Some (SVDict d') → has_param d' p t → has_param d (k :: p) t.

Lemma has_param_delete_empty d k p t :
  d !! k = Some (SVDict ∅) →
  has_param (delete k d) p t ↔ has_param d p t.
Proof.
  intros Hk. split.
  - inversion 1 as [? j ? Hj|? j d' ? ? Hj Hd']; subst.
    + apply lookup_delete_Some in Hj as [_ Hj]. by constructor.
    + apply lookup_delete_Some in Hj as [_ Hj]. by econstructor.
  - inversion 1 as [? j ? Hj|? j d' ? ? Hj Hd']; subst.
    + constructor. apply lookup_delete_Some. split; [congruence|done].
    + destruct (decide (k = j)) as [->|Hne].
      * rewrite Hk in Hj. injection Hj as <-.
        inversion Hd'; by rewrite lookup_empty in *.
      * econstructor; [|done]. by apply lookup_delete_Some.
Qed.

(** C4: the dict [state_dict_for_save_checkpoint] returns, handed to
    [load_state_dict] of the same model, restores what was saved.  Save
    hoists the keys of the MoE entry to the top level and deletes the
    entry from the inner dict; load gathers the expert-marked keys, puts
    them back under one [moe_state_dict] entry of the unwrapped inner dict
    and hands the inner stage a dict with the parameter tree of the one it
    produced (the very dict, unless the MoE entry was an empty dict, which
    is dropped); the head embeddings are loaded from the key they were
    saved under. *)
Theorem checkpoint_round_trip self prefix keep_vars strict w :
  let lm_key := _language_model_key self in
  let we_key := _word_embeddings_for_head_key (base self) in
  let lm_sd :=
    lm_state_dict_for_save_checkpoint (language_model self) prefix keep_vars in
  let we_sd := word_embeddings_state_dict (base self) prefix keep_vars in
  is_expert_key lm_key = false → is_expert_key we_key = false →
  lm_key ≠ we_key →
  moe_entry_expert_marked lm_sd →
  ∃ saved restored final,
    state_dict_for_save_checkpoint self prefix keep_vars w = (inr saved, w) ∧
    (∀ moe, lm_sd !! "moe_state_dict" = Some (SVDict moe) →
       (∀ k v, moe !! k = Some v → saved !! k = Some v) ∧
       saved !! lm_key = Some (SVDict (delete "moe_state_dict" lm_sd))) ∧
    load_state_dict self saved strict w
    = (inr final,
       after w
         ((if saves_word_embeddings self
           then [call_word_embeddings_load_state_dict (SVDict we_sd) strict]
           else [])
          ++ [call_language_model_load_state_dict (SVDict restored) strict])) ∧
    (∀ p t, has_param restored p t ↔ has_param lm_sd p t) ∧
    (lm_sd !! "moe_state_dict" ≠ Some (SVDict ∅) → restored = lm_sd) ∧
    (lm_sd !! "moe_state_dict" = Some (SVDict ∅) →
     restored = delete "moe_state_dict" lm_sd).
Proof.
  intros lm_key we_key lm_sd we_sd Hlm Hwe Hne Hmoe.
  (* what save hoists, and what it leaves in the inner dict *)
  set (moe := match lm_sd !! "moe_state_dict" with
              | Some (SVDict moe) => moe
              | _ => ∅
              end).
  set (inner := delete "moe_state_dict" lm_sd).
  assert (Hmoe_keys : ∀ k, is_Some (moe !! k) → is_expert_key k = true).
  { intros k Hk. unfold moe in Hk.
    destruct (lm_sd !! "moe_state_dict") as [v|] eqn:Hv;
      [|by rewrite lookup_empty in Hk; destruct Hk].
    destruct (Hmoe v Hv) as (moe' & -> & Hall). by apply Hall. }
  assert (Hsave : state_dict_for_save_checkpoint self prefix keep_vars w
                  = (inr (with_head self prefix keep_vars
                            (<[lm_key := SVDict inner]> moe)), w)).
  { rewrite state_dict_for_save_checkpoint_run. fold lm_sd.
    unfold moe, inner. destruct (lm_sd !! "moe_state_dict") as [v|] eqn:Hv.
    - destruct (Hmoe v Hv) as (moe' & -> & _). done.
    - by rewrite delete_id. }
  set (saved := with_head self prefix keep_vars (<[lm_key := SVDict inner]> moe)).
  (* the scan of load on the saved dict *)
  assert (Hexp : experts saved = moe).
  { unfold saved, with_head. destruct (saves_word_embeddings self).
    - by rewrite !experts_insert_other, experts_all.
    - by rewrite experts_insert_other, experts_all. }
  assert (Hoth : others saved !! lm_key = Some (SVDict inner)).
  { unfold saved, with_head. destruct (saves_word_embeddings self).
    - rewrite !others_insert_other, others_all by done.
      rewrite lookup_insert_ne by done. apply lookup_insert_eq.
    - rewrite others_insert_other, others_all by done. apply lookup_insert_eq. }
  assert (Hhead : saves_word_embeddings self = true →
                  saved !! we_key = Some (SVDict we_sd)).
  { intros Hs. unfold saved, with_head. rewrite Hs. apply lookup_insert_eq. }
  set (restored := if decide (0 < size moe)%nat
                   then <["moe_state_dict" := SVDict moe]> inner else inner).
  assert (Hgather : ∀ w', load_gathered self saved strict w'
            = (inr (<[lm_key := SVDict restored]> (others saved)),
               after w' [call_language_model_load_state_dict
                           (SVDict restored) strict])).
  { intros w'. unfold load_gathered. fold lm_key. rewrite Hoth, Hexp.
    unfold restored. by destruct (decide (0 < size moe)%nat). }
  exists saved, restored, (<[lm_key := SVDict restored]> (others saved)).
  split; [done|]. split; [|split; [|split; [|split]]].
  - intros moe' Hm'. assert (moe = moe') as -> by (unfold moe; by rewrite Hm').
    assert (Hsaved : ∀ k v,
      (<[lm_key := SVDict inner]> moe' : StateDict F) !! k = Some v →
      saved !! k = Some v ∨ k = we_key).
    { intros k v Hk. unfold saved, with_head.
      destruct (saves_word_embeddings self); [|by left].
      destruct (decide (k = we_key)) as [->|]; [by right|left].
      by rewrite lookup_insert_ne. }
    split.
    + intros k v Hk.
      assert (Hek : is_expert_key k = true) by (apply Hmoe_keys; eauto).
      assert (Hins : (<[lm_key := SVDict inner]> moe' : StateDict F) !! k
                     = Some v)
        by (rewrite lookup_insert_ne by congruence; done).
      destruct (Hsaved k v Hins) as [?|Heq]; [done|congruence].
    + destruct (Hsaved lm_key (SVDict inner)) as [?|?]; [|done|done].
      apply lookup_insert_eq.
  - rewrite load_state_dict_run. fold we_key.
    destruct (saves_word_embeddings self) eqn:Hs.
    + rewrite (Hhead eq_refl), Hgather, after_after. done.
    + by rewrite Hgather.
  - intros p t. unfold restored, inner, moe.
    destruct (lm_sd !! "moe_state_dict") as [v|] eqn:Hv.
    + destruct (Hmoe v Hv) as (moe' & -> & _).
      destruct (decide (0 < size moe')%nat) as [Hsz|Hsz].
      * by rewrite insert_delete_id.
      * assert (moe' = ∅) as -> by (apply map_size_empty_iff; lia).
        by apply has_param_delete_empty.
    + rewrite map_size_empty, decide_False by lia. by rewrite delete_id.
  - intros Hnon. unfold restored, inner, moe.
    destruct (lm_sd !! "moe_state_dict") as [v|] eqn:Hv.
    + destruct (Hmoe v Hv) as (moe' & -> & _).
      destruct (decide (0 < size moe')%nat) as [Hsz|Hsz].
      * by rewrite insert_delete_id.
      * assert (moe' = ∅) as -> by (apply map_size_empty_iff; lia). done.
    + rewrite map_size_empty, decide_False by lia. by rewrite delete_id.
  - intros Hempty. unfold restored, inner, moe. rewrite Hempty.
    by rewrite map_size_empty, decide_False by lia.
Qed.

(** Once the scan starts, the loader of the head embeddings is not
    called. *)
Lemma load_gathered_world self state_dict strict w :
  ∃ r evs,
    load_gathered self state_dict strict w = (r, after w evs) ∧
    ∀ sd s, call_word_embeddings_load_state_dict sd s ∉ evs.
Proof.
  unfold load_gathered.
  destruct (others state_dict !! _language_model_key self) as [inner|].
  - destruct (decide (0 < size (experts state_dict))%nat).
    + rewrite bind_lift. destruct (setitem _ _ _) as [e|inner'].
      * exists (inl e), []. rewrite after_nil. split; [done|].
        intros sd s Hin. by apply elem_of_nil in Hin.
      * run. do 2 eexists. split; [done|].
        intros sd s Hin. by apply list_elem_of_singleton in Hin.
    + run. do 2 eexists. split; [done|].
      intros sd s Hin. by apply list_elem_of_singleton in Hin.
  - run. do 2 eexists. split; [done|].
    intros sd s Hin. by apply list_elem_of_singleton in Hin.
Qed.

(** C2, as the code has it: on a stage that post-processes and does not
    pre-process, the state of the head word embeddings is stored under its
    fixed key, and loaded from it, exactly when embeddings and output
    weights are tied (not untied); on any other stage, and when they are
    untied, the key is not written and the loader of the head embeddings
    is not called. *)
Theorem head_embeddings_key self prefix keep_vars strict w :
  let lm_key := _language_model_key self in
  let we_key := _word_embeddings_for_head_key (base self) in
  let lm_sd :=
    lm_state_dict_for_save_checkpoint (language_model self) prefix keep_vars in
  let we_sd := word_embeddings_state_dict (base self) prefix keep_vars in
  lm_key ≠ we_key →
  (∀ v, lm_sd !! "moe_state_dict" = Some v →
        ∃ moe, v = SVDict moe ∧ moe !! we_key = None) →
  (saves_word_embeddings self = true ↔
   post_process self = true ∧ pre_process self = false ∧
   untie_embeddings_and_output_weights self = false) ∧
  (∃ saved,
     state_dict_for_save_checkpoint self prefix keep_vars w = (inr saved, w) ∧
     saved !! we_key
     = if saves_word_embeddings self then Some (SVDict we_sd) else None) ∧
  (∀ state_dict, ∃ r evs,
     load_state_dict self state_dict strict w = (r, after w evs) ∧
     if saves_word_embeddings self then
       match state_dict !! we_key with
       | Some sd =>
           ∃ evs',
             evs = call_word_embeddings_load_state_dict sd strict :: evs' ∧
             ∀ sd' s, call_word_embeddings_load_state_dict sd' s ∉ evs'
       | None => r = inl (KeyError we_key) ∧ evs = []
       end
     else ∀ sd s, call_word_embeddings_load_state_dict sd s ∉ evs).
Proof.
  intros lm_key we_key lm_sd we_sd Hne Hmoe. split; [|split].
  - unfold saves_word_embeddings.
    destruct (post_process self), (pre_process self),
      (untie_embeddings_and_output_weights self); simpl;
      split; done || (by intros (? & ? & ?)).
  - rewrite state_dict_for_save_checkpoint_run. fold lm_sd lm_key.
    assert (Hw : ∀ d : StateDict F, d !! we_key = None →
              with_head self prefix keep_vars d !! we_key
              = if saves_word_embeddings self
                then Some (SVDict we_sd) else None).
    { intros d Hd. unfold with_head.
      destruct (saves_word_embeddings self); [apply lookup_insert_eq|done]. }
    destruct (lm_sd !! "moe_state_dict") as [v|] eqn:Hv.
    + destruct (Hmoe v eq_refl) as (moe & -> & Hk).
      eexists. split; [done|]. apply Hw. by rewrite lookup_insert_ne.
    + eexists. split; [done|]. apply Hw. by rewrite lookup_insert_ne.
  - intros state_dict. rewrite load_state_dict_run. fold we_key.
    destruct (saves_word_embeddings self).
    + destruct (state_dict !! we_key) as [sd|].
      * destruct (load_gathered_world self state_dict strict
                    (after w [call_word_embeddings_load_state_dict sd strict]))
          as (r & evs & Hrun & Hevs).
        exists r, (call_word_embeddings_load_state_dict sd strict :: evs).
        rewrite Hrun, after_after. eauto.
      * exists (inl (KeyError we_key)), []. by rewrite after_nil.
    + apply load_gathered_world.
Qed.

End checkpoint.

(** ** The metadata of the universal checkpoint *)

Section metadata.
Context {F : Type} `{TorchArith F} {InferenceParams : Type}.
Variable env : Env (F := F).
Implicit Types (w : World (F := F) (InferenceParams := InferenceParams)).
Implicit Types (self : ChatGLM3Model (F := F) (InferenceParams := InferenceParams)).

(** C9: [universal_checkpoint_info] returns the empty mapping when the
    universal checkpoint is not available, and otherwise the mapping of
    the three categories to their pattern lists: one vocabulary pattern,
    nine tensor-parallel-replicated patterns and two row-parallelism
    patterns.  It never raises and leaves the world as it is. *)
Theorem universal_checkpoint_info_patterns self w :
  NoDup [VOCABULARY_PARAMETER_PATTERNS env;
         TP_REPLICATED_PARAMETER_PATTERNS env;
         PARAMETER_WITH_ROW_PARALLELISM_PATTERNS env] →
  ∃ info,
    universal_checkpoint_info env self w = (inr info, w) ∧
    if DS_UNIVERSAL_CHECKPOINT_INFO env then
      dom info = {[VOCABULARY_PARAMETER_PATTERNS env;
                   TP_REPLICATED_PARAMETER_PATTERNS env;
                   PARAMETER_WITH_ROW_PARALLELISM_PATTERNS env]} ∧
      size info = 3%nat ∧
      info !! VOCABULARY_PARAMETER_PATTERNS env
      = Some ["tied_modules.embed.word_embeddings.weight"] ∧
      info !! TP_REPLICATED_PARAMETER_PATTERNS env
      = Some ["tied_modules.embed.position_embeddings.weight";
              "\d+.input_layernorm.weight";
              "\d+.input_layernorm.bias";
              "\d+.post_attention_layernorm.weight";
              "\d+.post_attention_layernorm.bias";
              "\d+.self_attention.dense.bias";
              "\d+.mlp.dense_4h_to_h.bias";
              "\d+.weight";
              "\d+.bias"] ∧
      info !! PARAMETER_WITH_ROW_PARALLELISM_PATTERNS env
      = Some ["\d+.mlp.dense_4h_to_h.weight";
              "\d+.self_attention.dense.weight"]
    else info = ∅.
Proof.
  intros Hnd. apply NoDup_cons in Hnd as [Hv Hnd].
  apply NoDup_cons in Hnd as [Ht _].
  apply not_elem_of_cons in Hv as [Hvt Hv].
  apply not_elem_of_cons in Hv as [Hvr _].
  apply not_elem_of_cons in Ht as [Htr _].
  unfold universal_checkpoint_info, ret. eexists. split; [done|].
  destruct (DS_UNIVERSAL_CHECKPOINT_INFO env); [|done].
  split; [|split; [|split; [|split]]].
  - rewrite !dom_insert_L, dom_empty_L.
    apply set_eq. intros k. rewrite !elem_of_union, !elem_of_singleton.
    rewrite elem_of_empty. tauto.
  - rewrite !map_size_insert_None, map_size_empty; [done|..].
    + apply lookup_empty.
    + by rewrite lookup_insert_ne.
    + by rewrite !lookup_insert_ne.
  - by rewrite !lookup_insert_ne, lookup_insert_eq by done.
  - by rewrite lookup_insert_ne, lookup_insert_eq by done.
  - by rewrite lookup_insert_eq.
Qed.

End metadata.

(** ** The theorems at the sample inputs *)

Section samples.
Import Binary.

(** C1: on a model constructed with [return_moe_loss] unset, [forward]
    returns a tuple of two elements, the output twice: the conditional
    expression of the [return] statement is the second element of the
    tuple, not the whole value. *)
Theorem forward_without_moe_loss_returns_pair :
  ∃ self output,
    (__init__ (λ _ _ _, (Sample.inner, "language_model")) Sample.megatron
       true true true false Sample.world).1 = inr self ∧
    return_moe_loss self = false ∧
    (forward (Sample.env 1) self Sample.input_ids Sample.position_ids
       Sample.attention_mask None None None None None None None
       Sample.world).1
    = inr [RTensor output; RTensor output] ∧
    t_shape output = [2; 4; 3]%nat.
Proof.
  do 2 eexists. split; [reflexivity|]. split; [reflexivity|].
  split; vm_compute; reflexivity.
Qed.

(** The selection with a sequence-parallel world of four processes. *)
Lemma post_language_model_processing_selects_witness :
  1 ≤ 4 ∧
  (select_cross_entropy (Sample.env 4) = vocab_sequence_parallel_cross_entropy
   ↔ 1 < 4) ∧
  (select_cross_entropy (Sample.env 4) = vocab_parallel_cross_entropy ↔ 4 = 1).
Proof.
  assert (Hws : 1 ≤ get_sequence_parallel_world_size (Sample.env 4))
    by (simpl; lia).
  split; [lia|].
  pose proof (post_language_model_processing_selects (Sample.env 4)
                Sample.lm_output Sample.labels Sample.weight true false
                Sample.world Hws) as (Hsp & Htp & _).
  split; assumption.
Defined.

(** Single-precision logits with the half-precision loss requested. *)
Lemma post_language_model_processing_precision_witness :
  transpose01 Sample.labels = inr Sample.labels_sb ∧
  post_language_model_processing (Sample.env 1) Sample.lm_output_float
    (Some Sample.labels) Sample.weight true true Sample.world
  = (inl AssertionError,
     after Sample.world
       [call_parallel_lm_logits Sample.lm_output_float Sample.weight true]).
Proof.
  assert (HT : transpose01 Sample.labels = inr Sample.labels_sb)
    by reflexivity.
  split; [exact HT|].
  apply (proj1 (post_language_model_processing_precision (Sample.env 1)
                  Sample.lm_output_float Sample.labels Sample.labels_sb
                  Sample.weight true Sample.world HT)).
  vm_compute. discriminate.
Defined.

(** Hidden states [[4, 2, 2]] and a vocabulary of three. *)
Lemma post_language_model_processing_orientation_witness :
  ∃ t,
    (post_language_model_processing (Sample.env 1) Sample.lm_output None
       Sample.weight true false Sample.world).1 = inr t ∧
    t_shape t = [2; 4; 3]%nat.
Proof.
  destruct (post_language_model_processing_orientation (Sample.env 1)
              Sample.lm_output Sample.weight true false Sample.world
              4 2 2 3 eq_refl eq_refl eq_refl (λ _ _ _, eq_refl))
    as [(t & Ht & Hs & _) _].
  exists t. split; assumption.
Defined.

(** A batch of two sequences of four tokens truncated to two. *)
Lemma forward_curriculum_truncation_witness :
  (∃ input_ids' position_ids' labels' attention_mask',
     curriculum_inputs Sample.input_ids Sample.position_ids
       Sample.attention_mask (Some Sample.labels) (Some 2) Sample.world
     = (inr (input_ids', position_ids', labels', attention_mask'),
        with_curriculum_seqlen 2 Sample.world) ∧
     truncated 2 Sample.input_ids input_ids' ∧
     truncated_mask 2 Sample.attention_mask attention_mask') ∧
  (∃ v', truncate_layout 7 2 (mkView 0 0 [2; 4] [4; 1])%nat = inr v' ∧
         v_storage v' = 7%nat).
Proof.
  assert (Hl : ∀ l, Some Sample.labels = Some l →
                    t_shape l = [2; 4]%nat ∧ wf l).
  { intros l [= <-]. split; reflexivity. }
  assert (H0 : 0 ≤ 2) by lia.
  assert (Hlt : 2 < Z.of_nat 4) by lia.
  destruct (forward_curriculum_truncation (Sample.env 1)
              (Sample.model true true true false)
              Sample.input_ids Sample.position_ids Sample.attention_mask
              None None None (Some Sample.labels) None None 2 2 4 1 1
              Sample.world eq_refl eq_refl eq_refl eq_refl eq_refl eq_refl
              Hl H0) as [Htrunc _].
  destruct (Htrunc Hlt) as (Hvalues & Hlayout & _).
  split.
  - destruct Hvalues as (i & p & l & m & Hc & Hi & _ & _ & Hm & _).
    exists i, p, l, m. split; [exact Hc|]. split; assumption.
  - destruct (Hlayout (mkView 0 0 [2; 4] [4; 1])%nat 7%nat eq_refl eq_refl)
      as (v' & Hv' & _ & _ & _ & Hfresh).
    exists v'. split; [exact Hv'|]. apply Hfresh; lia.
Defined.

(** C8 fails on a batch of one sequence: the slice of the input
    ids is contiguous already, so that [contiguous] returns it as it is,
    in the storage of the caller's tensor (storage 0), and makes no copy
    (storage 7 stays unused).  It fails likewise on the attention mask
    when one position is kept: a tensor of one element is contiguous.
    And a negative curriculum length, smaller than any sequence length,
    drops positions from the end: with -1 the first three of four
    positions are kept. *)
Lemma forward_curriculum_truncation_counterexample :
  let ids := mkView 0 0 [1; 4]%nat [4; 1]%nat in
  let mask := mkView 1 0 [1; 1; 4; 4]%nat [16; 16; 4; 1]%nat in
  truncate_layout 7 2 ids = inr (mkView 0 0 [1; 2]%nat [4; 1]%nat) ∧
  truncate_mask_layout 7 1 mask
  = inr (mkView 1 0 [1; 1; 1; 1]%nat [16; 16; 4; 1]%nat) ∧
  (¬ ∃ v', truncate_layout 7 2 ids = inr v'
           ∧ v_storage v' ≠ v_storage ids) ∧
  ∃ position_ids' labels' attention_mask',
    (curriculum_inputs Sample.input_ids Sample.position_ids
       Sample.attention_mask None (Some (-1)) Sample.world).1
    = inr (mkTensor torch_long [2; 3]%nat [11; 12; 13; 21; 22; 23],
           position_ids', labels', attention_mask').
Proof.
  intros ids mask.
  assert (Hrun : truncate_layout 7 2 ids
                 = inr (mkView 0 0 [1; 2]%nat [4; 1]%nat)) by reflexivity.
  split; [exact Hrun|]. split; [reflexivity|]. split.
  - intros (v' & Hv' & Hne). rewrite Hrun in Hv'.
    injection Hv' as <-. by apply Hne.
  - do 3 eexists. vm_compute. reflexivity.
Qed.


(** The masked loss with no token counted. *)
Lemma CrossEntropy_zero_mask_witness :
  view_is_contiguous (s_view Sample.zero_mask) = true ∧
  Forall (λ x, is_zero x = true) (t_data (s_tensor Sample.zero_mask)) ∧
  ∃ loss x w',
    CrossEntropy (Sample.env 1) Sample.lm_output
      (Sample.labels, Sample.zero_mask) Sample.world = (inr loss, w') ∧
    t_data loss = [x] ∧ is_nan x = true.
Proof.
  assert (Hz : Forall (λ x, is_zero x = true)
                 (t_data (s_tensor Sample.zero_mask)))
    by (repeat constructor).
  split; [reflexivity|]. split; [exact Hz|].
  destruct (CrossEntropy_zero_mask (Sample.env 1) Sample.lm_output
              Sample.labels Sample.zero_mask Sample.labels_sb
              (Sample.full torch_float [2; 4]%nat Sample.one) 2 4
              Sample.world eq_refl eq_refl eq_refl eq_refl
              (conj eq_refl eq_refl) eq_refl Hz)
    as (loss & x & w' & Hrun & _ & Hdata & Hnan).
  exists loss, x, w'. split; [|split]; assumption.
Defined.

(** C3 fails on an all-zero mask: [CrossEntropy] signals no
    error and returns NaN.  The error the same mask raises when it is
    transposed in memory comes from the view, not from a guard on its
    sum. *)
Lemma CrossEntropy_zero_mask_counterexample :
  (CrossEntropy (Sample.env 1) Sample.lm_output
     (Sample.labels, Sample.zero_mask) Sample.world).1
  = inr (mkTensor torch_float [] [S754_nan]) ∧
  (¬ ∃ e, (CrossEntropy (Sample.env 1) Sample.lm_output
             (Sample.labels, Sample.zero_mask) Sample.world).1 = inl e) ∧
  view_flat Sample.transposed_zero_mask = inl RuntimeError ∧
  (CrossEntropy (Sample.env 1) Sample.lm_output
     (Sample.labels, Sample.transposed_zero_mask) Sample.world).1
  = inl RuntimeError.
Proof.
  assert (Hrun : (CrossEntropy (Sample.env 1) Sample.lm_output
                    (Sample.labels, Sample.zero_mask) Sample.world).1
                 = inr (mkTensor torch_float [] [S754_nan]))
    by (vm_compute; reflexivity).
  split; [exact Hrun|]. split.
  - intros [e He]. rewrite Hrun in He. discriminate.
  - split; vm_compute; reflexivity.
Qed.

(** The MoE entry of the sample inner stage. *)
Lemma sample_moe_entry :
  Sample.inner_state_dict !! "moe_state_dict"
  = Some (SVDict {[ Sample.expert_key :=
                      SVTensor (Sample.full torch_half [2; 2]%nat Sample.one) ]}).
Proof. reflexivity. Defined.

Lemma sample_moe_entry_expert_marked :
  moe_entry_expert_marked Sample.inner_state_dict.
Proof.
  intros v Hv. rewrite sample_moe_entry in Hv. injection Hv as <-.
  eexists. split; [reflexivity|].
  intros k [x Hx]. apply lookup_singleton_Some in Hx as [<- _]. reflexivity.
Defined.

(** Save and load on a last stage with tied embeddings and one expert. *)
Lemma checkpoint_round_trip_witness :
  let self := Sample.model false true true false in
  ∃ saved restored final,
    state_dict_for_save_checkpoint self "" false Sample.world
    = (inr saved, Sample.world) ∧
    load_state_dict self saved true Sample.world
    = (inr final,
       after Sample.world
         [call_word_embeddings_load_state_dict
            (SVDict (word_embeddings_state_dict (base self) "" false)) true;
          call_language_model_load_state_dict (SVDict restored) true]) ∧
    (∀ p t, has_param restored p t ↔ has_param Sample.inner_state_dict p t).
Proof.
  intros self.
  assert (Hne : _language_model_key self
                ≠ _word_embeddings_for_head_key (base self))
    by discriminate.
  destruct (checkpoint_round_trip self "" false true Sample.world
              eq_refl eq_refl Hne sample_moe_entry_expert_marked)
    as (saved & restored & final & Hsave & _ & Hload & Hparams & _).
  exists saved, restored, final. split; [|split]; assumption.
Defined.

(** The head key on a last stage with tied embeddings. *)
Lemma head_embeddings_key_witness :
  let self := Sample.model false true true false in
  ∃ saved,
    state_dict_for_save_checkpoint self "" false Sample.world
    = (inr saved, Sample.world) ∧
    saved !! "word_embeddings_for_head"
    = Some (SVDict (word_embeddings_state_dict (base self) "" false)).
Proof.
  intros self.
  assert (Hne : _language_model_key self
                ≠ _word_embeddings_for_head_key (base self))
    by discriminate.
  assert (Hmoe : ∀ v,
    lm_state_dict_for_save_checkpoint (language_model self) "" false
      !! "moe_state_dict" = Some v →
    ∃ moe, v = SVDict moe
           ∧ moe !! _word_embeddings_for_head_key (base self) = None).
  { intros v Hv. simpl in Hv. rewrite sample_moe_entry in Hv.
    injection Hv as <-. eexists. split; reflexivity. }
  destruct (head_embeddings_key self "" false true Sample.world Hne Hmoe)
    as (_ & (saved & Hsave & Hkey) & _).
  exists saved. split; [exact Hsave|exact Hkey].
Defined.

(** C2 fails on a last stage with untied embeddings: nothing
    is stored under the key of the head word embeddings and their loader
    is not called, while on the same stage with tied embeddings the key is
    stored. *)
Lemma head_embeddings_key_counterexample :
  let untied := Sample.model false true true true in
  let tied := Sample.model false true true false in
  post_process untied = true ∧ pre_process untied = false ∧
  untie_embeddings_and_output_weights untied = true ∧
  (∃ saved,
     state_dict_for_save_checkpoint untied "" false Sample.world
     = (inr saved, Sample.world) ∧
     saved !! "word_embeddings_for_head" = None ∧
     (load_state_dict untied saved true Sample.world).2
     = after Sample.world
         [call_language_model_load_state_dict
            (SVDict Sample.inner_state_dict) true]) ∧
  (∃ saved,
     state_dict_for_save_checkpoint tied "" false Sample.world
     = (inr saved, Sample.world) ∧
     is_Some (saved !! "word_embeddings_for_head")).
Proof.
  intros untied tied. split; [done|]. split; [done|]. split; [done|].
  assert (Hsave : ∀ self,
            language_model self = Sample.inner →
            state_dict_for_save_checkpoint self "" false Sample.world
            = (inr (with_head self "" false
                      (<[_language_model_key self :=
                           SVDict (delete "moe_state_dict"
                                     Sample.inner_state_dict)]>
                         {[ Sample.expert_key :=
                              SVTensor (Sample.full torch_half [2; 2]%nat
                                          Sample.one) ]})),
               Sample.world)).
  { intros self Hlm. rewrite state_dict_for_save_checkpoint_run, Hlm.
    simpl. by rewrite sample_moe_entry. }
  split.
  - eexists. split; [by apply Hsave|].
    split; vm_compute; exact eq_refl.
  - eexists. split; [by apply Hsave|]. vm_compute. eauto.
Qed.

(** The metadata with DeepSpeed's category names. *)
Lemma universal_checkpoint_info_patterns_witness :
  ∃ info,
    universal_checkpoint_info (Sample.env 1)
      (Sample.model true true true false) Sample.world
    = (inr info, Sample.world) ∧
    size info = 3%nat.
Proof.
  assert (Hnd : NoDup [VOCABULARY_PARAMETER_PATTERNS (Sample.env 1);
                       TP_REPLICATED_PARAMETER_PATTERNS (Sample.env 1);
                       PARAMETER_WITH_ROW_PARALLELISM_PATTERNS (Sample.env 1)]).
  { apply (bool_decide_unpack _). vm_compute. exact I. }
  destruct (universal_checkpoint_info_patterns (Sample.env 1)
              (Sample.model true true true false) Sample.world Hnd)
    as (info & Hrun & Hinfo).
  exists info. split; [exact Hrun|]. simpl in Hinfo. tauto.
Defined.

End samples.
End Properties.

(* ===================================================================== *)
(** * Further properties *)
(* ===================================================================== *)

Module Further.
Import Py Torch ChatGLM3 Properties.
Local Open Scope py_scope.

(** ** The forward pass, call by call *)

Section forward_calls.
Context {F : Type} `{TorchArith F} {InferenceParams : Type}.
Variable env : Env (F := F).
Implicit Types (w : World (F := F) (InferenceParams := InferenceParams)).
Implicit Types (self : ChatGLM3Model (F := F) (InferenceParams := InferenceParams)).

(** The settings after the first statement of [forward]. *)
Definition curriculum_args (curriculum_seqlen : option Z) (a : Args) : Args :=
  match curriculum_seqlen with
  | Some k => set_args_curriculum_seqlen k a
  | None =>
      if args_curriculum_learning_legacy a
      then set_args_curriculum_seqlen (args_seq_length a) a
      else a
  end.

(** The weight [forward] projects with. *)
Definition logit_weights self : Tensor F :=
  if untie_embeddings_and_output_weights self
  then lm_output_layer_weight (language_model self)
  else shared_embedding_or_output_weight (base self).

(** The tuple of the [return] statement. *)
Definition returned self (lm_output : Tensor F) (moe_losses : list (Tensor F))
    : list Returned :=
  [RTensor lm_output;
   if return_moe_loss self then RLosses moe_losses else RTensor lm_output].

Lemma bind_truncate {A Y} k (x : Tensor A) (f : Tensor A → M Y) w :
  bind (truncate k x) f w
  = match slice_to 1 k x with
    | inr x' => f x' w
    | inl e => (inl e, w)
    end.
Proof.
  unfold truncate, contiguous. rewrite bind_bind, bind_lift.
  by destruct (slice_to 1 k x).
Qed.

Lemma bind_truncate_mask {A Y} k (x : Tensor A) (f : Tensor A → M Y) w :
  bind (truncate_mask k x) f w
  = match slice_to 2 k x with
    | inr x' =>
        match slice_to 3 k x' with
        | inr x'' => f x'' w
        | inl e => (inl e, w)
        end
    | inl e => (inl e, w)
    end.
Proof.
  unfold truncate_mask, contiguous. rewrite bind_bind, bind_lift.
  destruct (slice_to 2 k x) as [e|x']; [done|].
  rewrite bind_bind, bind_lift. by destruct (slice_to 3 k x').
Qed.

(** The curriculum step changes the settings and nothing else, whether it
    succeeds or not. *)
Lemma curriculum_inputs_world input_ids position_ids attention_mask labels c w :
  (curriculum_inputs (F := F) (InferenceParams := InferenceParams)
     input_ids position_ids attention_mask labels c w).2
  = mkWorld (curriculum_args c (w_args w)) (w_trace w).
Proof.
  unfold curriculum_inputs. rewrite bind_get_args. destruct c as [k|]; simpl.
  - rewrite bind_put_args, bind_lift.
    destruct (size_at input_ids 1) as [e|s]; [done|].
    destruct (k <? Z.of_nat s); [|done].
    rewrite bind_truncate. destruct (slice_to 1 k input_ids); [done|].
    rewrite bind_truncate. destruct (slice_to 1 k position_ids); [done|].
    destruct labels as [l|].
    + rewrite bind_bind, bind_truncate. destruct (slice_to 1 k l); [done|].
      rewrite bind_ret, bind_truncate_mask.
      destruct (slice_to 2 k attention_mask) as [e|m']; [done|].
      by destruct (slice_to 3 k m').
    + rewrite bind_ret, bind_truncate_mask.
      destruct (slice_to 2 k attention_mask) as [e|m']; [done|].
      by destruct (slice_to 3 k m').
  - destruct (args_curriculum_learning_legacy (w_args w)); run;
      [done|by destruct w].
Qed.

(** Without a curriculum length the inputs go through as they are. *)
Lemma curriculum_inputs_None input_ids position_ids attention_mask labels w :
  curriculum_inputs (F := F) (InferenceParams := InferenceParams)
    input_ids position_ids attention_mask labels None w
  = (inr (input_ids, position_ids, labels, attention_mask),
     mkWorld (curriculum_args None (w_args w)) (w_trace w)).
Proof.
  unfold curriculum_inputs. rewrite bind_get_args. simpl.
  destruct (args_curriculum_learning_legacy (w_args w)); run;
    [done|by destruct w].
Qed.

(** [forward] after the curriculum step. *)
Lemma forward_run self input_ids position_ids attention_mask r1 r2 r3
    labels tokentype_ids ip c w input_ids' position_ids' labels'
    attention_mask' w1 :
  curriculum_inputs input_ids position_ids attention_mask labels c w
  = (inr (input_ids', position_ids', labels', attention_mask'), w1) →
  let out := lm_forward (language_model self) (w_args w1) input_ids'
               position_ids' attention_mask' r1 r2 r3 ip in
  let w2 := after w1 [call_language_model input_ids' position_ids'
                        attention_mask' r1 r2 r3 ip] in
  forward env self input_ids position_ids attention_mask r1 r2 r3 labels
    tokentype_ids ip c w
  = if post_process self then
      match post_language_model_processing env out.1 labels'
              (logit_weights self) (parallel_output self)
              (fp16_lm_cross_entropy self) w2 with
      | (inr t, w3) => (inr (returned self t out.2), w3)
      | (inl e, w3) => (inl e, w3)
      end
    else (inr (returned self out.1 out.2), w2).
Proof.
  intros Hc out w2. unfold forward, bind at 1. rewrite Hc.
  unfold language_model_call. run. fold w2.
  change (w_args w2) with (w_args w1). fold out.
  destruct out as [lm_output moe_losses]. simpl.
  destruct (post_process self); [|done].
  unfold bind, logit_weights.
  by destruct (post_language_model_processing _ _ _ _ _ _ _) as [[e|t] w3].
Qed.

(** X1: whatever [forward] returns or raises, it leaves
    [args.curriculum_seqlen] set to the curriculum length it was given;
    given none, it resets it to [args.seq_length] in legacy curriculum
    mode and leaves it alone otherwise.  No other setting changes, and the
    calls made so far stay recorded. *)
Theorem forward_settings self input_ids position_ids attention_mask
    r1 r2 r3 labels tokentype_ids ip c w :
  let w' := (forward env self input_ids position_ids attention_mask r1 r2 r3
               labels tokentype_ids ip c w).2 in
  w_args w' = curriculum_args c (w_args w) ∧
  (∀ k, c = Some k →
     args_curriculum_seqlen (w_args w') = Some k ∧
     args_seq_length (w_args w') = args_seq_length (w_args w) ∧
     args_curriculum_learning_legacy (w_args w')
     = args_curriculum_learning_legacy (w_args w)) ∧
  ∃ evs, w_trace w' = w_trace w ++ evs.
Proof.
  intros w'.
  assert (Hw' : w_args w' = curriculum_args c (w_args w) ∧
                ∃ evs, w_trace w' = w_trace w ++ evs).
  { subst w'.
    pose proof (curriculum_inputs_world input_ids position_ids attention_mask
                  labels c w) as Hw.
    destruct (curriculum_inputs input_ids position_ids attention_mask labels
                c w) as [[e|[[[i' p'] l'] m']] w1] eqn:Hc.
    - assert (Hf : forward env self input_ids position_ids attention_mask
                     r1 r2 r3 labels tokentype_ids ip c w = (inl e, w1))
        by (unfold forward, bind at 1; by rewrite Hc).
      rewrite Hf. simpl in *. subst w1. simpl.
      split; [done|]. exists []. by rewrite app_nil_r.
    - destruct (forward_after_curriculum env self input_ids position_ids
                  attention_mask r1 r2 r3 labels tokentype_ids ip c w
                  i' p' l' m' w1 Hc) as (evs & ->).
      simpl in Hw. subst w1. simpl. eauto. }
  destruct Hw' as [Ha Ht]. split; [done|]. split; [|done].
  intros k ->. by rewrite Ha.
Qed.

(** X2: a stage that does not post-process returns the hidden states of
    the inner stage as they are, with the MoE losses when asked for them.
    It calls the inner stage once and nothing else: no projection, no
    cross entropy, whatever the labels and the embedding tying. *)
Theorem forward_without_post_process self input_ids position_ids
    attention_mask r1 r2 r3 labels tokentype_ids ip c w
    input_ids' position_ids' labels' attention_mask' w1 :
  post_process self = false →
  curriculum_inputs input_ids position_ids attention_mask labels c w
  = (inr (input_ids', position_ids', labels', attention_mask'), w1) →
  let out := lm_forward (language_model self) (w_args w1) input_ids'
               position_ids' attention_mask' r1 r2 r3 ip in
  forward env self input_ids position_ids attention_mask r1 r2 r3 labels
    tokentype_ids ip c w
  = (inr [RTensor out.1;
          if return_moe_loss self then RLosses out.2 else RTensor out.1],
     after w1 [call_language_model input_ids' position_ids' attention_mask'
                 r1 r2 r3 ip]).
Proof.
  intros Hpp Hc out.
  rewrite (forward_run _ _ _ _ _ _ _ _ _ _ _ _ _ _ _ _ _ Hc), Hpp. done.
Qed.

(** X3: without labels and without a curriculum length, a post-processing
    stage calls the inner stage on the inputs as given and then the
    projection, with the weight of the output layer when embeddings and
    output weights are untied and the shared embedding weight when they
    are tied; it calls no cross entropy and asserts nothing, whatever
    [fp16_lm_cross_entropy].  For logits [[s, b, v]] the first element
    returned is the logits batch first, [[b, s, v]]. *)
Theorem forward_logits self input_ids position_ids attention_mask
    r1 r2 r3 tokentype_ids ip w s b v :
  post_process self = true →
  let w1 := mkWorld (curriculum_args None (w_args w)) (w_trace w) in
  let out := lm_forward (language_model self) (w_args w1) input_ids
               position_ids attention_mask r1 r2 r3 ip in
  let W := if untie_embeddings_and_output_weights self
           then lm_output_layer_weight (language_model self)
           else shared_embedding_or_output_weight (base self) in
  let logits := parallel_lm_logits env out.1 W (parallel_output self) in
  t_shape logits = [s; b; v] → wf logits →
  ∃ t,
    forward env self input_ids position_ids attention_mask r1 r2 r3 None
      tokentype_ids ip None w
    = (inr [RTensor t;
            if return_moe_loss self then RLosses out.2 else RTensor t],
       after w1 [call_language_model input_ids position_ids attention_mask
                   r1 r2 r3 ip;
                 call_parallel_lm_logits out.1 W (parallel_output self)]) ∧
    t_shape t = [b; s; v] ∧ wf t ∧
    ∀ i j k, item t [j; i; k] = item logits [i; j; k].
Proof.
  intros Hpp w1 out W logits Hs Hwf.
  destruct (transpose01_shape logits s b [v] Hs) as (t & Ht & Hst & _).
  exists t. split; [|split; [done|split; [by eapply transpose01_wf|]]].
  - rewrite (forward_run _ _ _ _ _ _ _ _ _ _ _ _ _ _ _ _ _
               (curriculum_inputs_None _ _ _ _ w)), Hpp.
    fold w1. fold out. rewrite post_language_model_processing_None.
    unfold logit_weights. fold W. fold logits. rewrite Ht, after_after. done.
  - intros. by apply item_transpose01.
Qed.


(** X5: with a curriculum length given, input ids without a sequence axis
    make [forward] raise [IndexError]; so does, once the length is smaller
    than the sequence length, a tensor without the axes the truncation
    slices (fewer than two for the position ids and the labels, fewer
    than four for the attention mask).  The inner stage is not called,
    and the curriculum length is recorded in the settings all the same. *)
Theorem forward_curriculum_rank self input_ids position_ids attention_mask
    r1 r2 r3 labels tokentype_ids ip k w :
  (length (t_shape input_ids) < 2)%nat ∨
  (∃ s, size_at input_ids 1 = inr s ∧ k < Z.of_nat s ∧
        ((length (t_shape position_ids) < 2)%nat ∨
         (∃ l, labels = Some l ∧ (length (t_shape l) < 2)%nat) ∨
         (length (t_shape attention_mask) < 4)%nat)) →
  forward env self input_ids position_ids attention_mask r1 r2 r3 labels
    tokentype_ids ip (Some k) w
  = (inl IndexError, with_curriculum_seqlen k w).
Proof.
  intros Hrank.
  assert (Hslice : ∀ {A} dim k (x : Tensor A),
            slice_to dim k x = inl IndexError ∨
            ∃ x' d, slice_to dim k x = inr x'
              ∧ t_shape x' = <[dim := d]> (t_shape x)
              ∧ (dim < length (t_shape x))%nat).
  { intros A dim k' x. unfold slice_to.
    destruct (t_shape x !! dim) as [d|] eqn:Hd; [right|by left].
    do 2 eexists. split; [done|]. split; [done|]. by eapply lookup_lt_Some. }
  assert (Hc : curriculum_inputs (F := F) (InferenceParams := InferenceParams)
                 input_ids position_ids attention_mask labels (Some k) w
               = (inl IndexError, with_curriculum_seqlen k w)).
  { destruct Hrank as [Hi|(s & Hs & Hk & Hrank)].
    { unfold curriculum_inputs.
      rewrite bind_get_args, bind_put_args, bind_lift. unfold size_at.
      rewrite lookup_ge_None_2 by lia. done. }
    rewrite (curriculum_inputs_Some _ _ _ _ _ s) by done.
    apply Z.ltb_lt in Hk. rewrite Hk.
    set (w1 := with_curriculum_seqlen k w).
    rewrite bind_truncate.
    destruct (Hslice _ 1%nat k input_ids) as [->|(i' & ? & -> & _)]; [done|].
    rewrite bind_truncate.
    destruct (Hslice _ 1%nat k position_ids) as [->|(p' & ? & -> & _ & Hp)];
      [done|].
    assert (Hmask : ∀ Y (f : Tensor bool → M Y),
              (length (t_shape attention_mask) < 4)%nat →
              bind (truncate_mask k attention_mask) f w1 = (inl IndexError, w1)).
    { intros Y f Hm. rewrite bind_truncate_mask.
      destruct (Hslice _ 2%nat k attention_mask)
        as [->|(m' & ? & -> & Hm' & _)]; [done|].
      destruct (Hslice _ 3%nat k m') as [->|(m'' & ? & _ & _ & Hlen)]; [done|].
      rewrite Hm', length_insert in Hlen. lia. }
    destruct labels as [l|].
    - rewrite bind_bind, bind_truncate.
      destruct (Hslice _ 1%nat k l) as [->|(l' & ? & -> & _ & Hl)]; [done|].
      rewrite bind_ret. apply Hmask.
      destruct Hrank as [?|[(l0 & [= <-] & ?)|?]]; lia || done.
    - rewrite bind_ret. apply Hmask.
      destruct Hrank as [?|[(l0 & ? & ?)|?]]; lia || done. }
  unfold forward, bind at 1. by rewrite Hc.
Qed.

(** The truncation to the bound of the slice, for any length. *)
Lemma truncate_stop {A} (x : Tensor A) k b s rest w :
  t_shape x = b :: s :: rest → wf x →
  ∃ x', truncate (F := F) (InferenceParams := InferenceParams) k x w
        = (inr x', w) ∧
        t_shape x' = b :: slice_stop k s :: rest ∧ wf x' ∧
        ∀ i j idx,
          item x' (i :: j :: idx)
          = if decide (j < slice_stop k s)%nat then item x (i :: j :: idx)
            else None.
Proof.
  intros Hs Hwf.
  assert (Hd : t_shape x !! 1%nat = Some s) by (by rewrite Hs).
  destruct (slice_to_shape x 1 k s Hd) as (x' & Hx' & Hs' & Hdt).
  exists x'. unfold truncate, contiguous. rewrite bind_lift, Hx'.
  split; [done|]. split; [by rewrite Hs', Hs|].
  split; [by eapply slice_to_wf|]. intros i j idx.
  by rewrite (item_slice_to x 1 k x' s (i :: j :: idx) j).
Qed.

Lemma truncate_mask_stop {A} (x : Tensor A) k m0 m1 s rest w :
  t_shape x = m0 :: m1 :: s :: s :: rest → wf x →
  ∃ x', truncate_mask (F := F) (InferenceParams := InferenceParams) k x w
        = (inr x', w) ∧
        t_shape x' = m0 :: m1 :: slice_stop k s :: slice_stop k s :: rest ∧
        wf x' ∧
        ∀ a c i j idx,
          item x' (a :: c :: i :: j :: idx)
          = if decide (i < slice_stop k s ∧ j < slice_stop k s)%nat
            then item x (a :: c :: i :: j :: idx) else None.
Proof.
  intros Hs Hwf.
  assert (Hd : t_shape x !! 2%nat = Some s) by (by rewrite Hs).
  destruct (slice_to_shape x 2 k s Hd) as (x1 & Hx1 & Hs1 & Hdt1).
  rewrite Hs in Hs1. simpl in Hs1.
  pose proof (slice_to_wf _ _ _ _ Hwf Hx1) as Hwf1.
  assert (Hd1 : t_shape x1 !! 3%nat = Some s) by (by rewrite Hs1).
  destruct (slice_to_shape x1 3 k s Hd1) as (x2 & Hx2 & Hs2 & Hdt2).
  rewrite Hs1 in Hs2. simpl in Hs2.
  exists x2. unfold truncate_mask, contiguous.
  rewrite bind_lift, Hx1, bind_lift, Hx2.
  split; [done|]. split; [done|]. split; [by eapply slice_to_wf|].
  intros a c i j idx.
  rewrite (item_slice_to x1 3 k x2 s (a :: c :: i :: j :: idx) j) by done.
  rewrite (item_slice_to x 2 k x1 s (a :: c :: i :: j :: idx) i) by done.
  destruct (decide (j < slice_stop k s)%nat),
    (decide (i < slice_stop k s)%nat);
    by (rewrite decide_True by done) || (rewrite decide_False by tauto).
Qed.

(** X6: a negative curriculum length counts from the end, as a Python
    slice does: with [k < 0] the ids, the position ids and the labels
    keep their first [max 0 (s + k)] positions and the attention mask as
    many along both trailing axes; the inner stage is called on them, and
    the negative length is recorded in the settings. *)
Theorem forward_negative_curriculum self input_ids position_ids
    attention_mask r1 r2 r3 labels tokentype_ids ip k b s m0 m1 w :
  t_shape input_ids = [b; s] → wf input_ids →
  t_shape position_ids = [b; s] → wf position_ids →
  t_shape attention_mask = [m0; m1; s; s] → wf attention_mask →
  (∀ l, labels = Some l → t_shape l = [b; s] ∧ wf l) →
  k < 0 →
  let n := Z.to_nat (Z.max 0 (Z.of_nat s + k)) in
  ∃ input_ids' position_ids' labels' attention_mask' evs,
    curriculum_inputs (F := F) (InferenceParams := InferenceParams)
      input_ids position_ids attention_mask labels (Some k) w
    = (inr (input_ids', position_ids', labels', attention_mask'),
       with_curriculum_seqlen k w) ∧
    (forward env self input_ids position_ids attention_mask r1 r2 r3 labels
       tokentype_ids ip (Some k) w).2
    = after (with_curriculum_seqlen k w)
        (call_language_model input_ids' position_ids' attention_mask'
           r1 r2 r3 ip :: evs) ∧
    t_shape input_ids' = [b; n] ∧ t_shape position_ids' = [b; n] ∧
    t_shape attention_mask' = [m0; m1; n; n] ∧
    (∀ i j, item input_ids' [i; j]
            = if decide (j < n)%nat then item input_ids [i; j] else None) ∧
    (∀ i j, item position_ids' [i; j]
            = if decide (j < n)%nat then item position_ids [i; j] else None) ∧
    (∀ a c i j, item attention_mask' [a; c; i; j]
                = if decide (i < n ∧ j < n)%nat
                  then item attention_mask [a; c; i; j] else None) ∧
    match labels with
    | Some l =>
        ∃ l', labels' = Some l' ∧ t_shape l' = [b; n] ∧
              ∀ i j, item l' [i; j]
                     = if decide (j < n)%nat then item l [i; j] else None
    | None => labels' = None
    end.
Proof.
  intros Hi Hwi Hp Hwp Hm Hwm Hl Hk n.
  assert (Hn : slice_stop k s = n).
  { unfold slice_stop, n. by rewrite (proj2 (Z.ltb_lt k 0)) by done. }
  assert (Hsize : size_at input_ids 1 = inr s)
    by (unfold size_at; by rewrite Hi).
  set (w1 := with_curriculum_seqlen k w).
  destruct (truncate_stop input_ids k b s [] w1 Hi Hwi)
    as (i' & Hti & Hsi & _ & Hii).
  destruct (truncate_stop position_ids k b s [] w1 Hp Hwp)
    as (p' & Htp & Hsp & _ & Hip).
  destruct (truncate_mask_stop attention_mask k m0 m1 s [] w1 Hm Hwm)
    as (m' & Htm & Hsm & _ & Him).
  rewrite Hn in *.
  assert (Hlab : ∃ l',
    (match labels with
     | Some labels => labels <- truncate k labels ;; ret (Some labels)
     | None => ret None
     end) w1 = (inr l', w1) ∧
    match labels with
    | Some l =>
        ∃ l0, l' = Some l0 ∧ t_shape l0 = [b; n] ∧
              ∀ i j, item l0 [i; j]
                     = if decide (j < n)%nat then item l [i; j] else None
    | None => l' = None
    end).
  { destruct labels as [l|].
    - destruct (Hl l eq_refl) as [Hsl Hwl].
      destruct (truncate_stop l k b s [] w1 Hsl Hwl)
        as (l' & Htl & Hsl' & _ & Hil).
      rewrite Hn in *. exists (Some l'). split.
      + unfold bind. by rewrite Htl.
      + exists l'. auto.
    - exists None. done. }
  destruct Hlab as (l' & Htl & Hfl).
  assert (Hc : curriculum_inputs (F := F) (InferenceParams := InferenceParams)
                 input_ids position_ids attention_mask labels (Some k) w
               = (inr (i', p', l', m'), w1)).
  { rewrite (curriculum_inputs_Some _ _ _ _ _ s) by done.
    rewrite (proj2 (Z.ltb_lt k (Z.of_nat s))) by lia. fold w1.
    unfold bind at 1. rewrite Hti. unfold bind at 1. rewrite Htp.
    unfold bind at 1. rewrite Htl. unfold bind at 1. by rewrite Htm. }
  destruct (forward_after_curriculum env self input_ids position_ids
              attention_mask r1 r2 r3 labels tokentype_ids ip (Some k) w
              i' p' l' m' w1 Hc) as (evs & Hevs).
  exists i', p', l', m', evs. auto 10.
Qed.

End forward_calls.

(** ** The loss stage, token by token *)

Section loss_tokens.
Context {F : Type} `{TorchArith F} {InferenceParams : Type}.
Variable env : Env (F := F).
Implicit Types (w : World (F := F) (InferenceParams := InferenceParams)).

(** X7: the reorientation keeps every token with its label.  When the
    cross entropy computes the loss at sequence position [p] of batch
    item [q] from the logits and the label at [[p, q]] alone, the loss
    returned at [[i, j]] is the one of position [j] of batch item [i] for
    the label given at [[i, j]]. *)
Theorem post_language_model_processing_alignment
    lm_output labels W po (fp16 : bool) w b s
    (token_loss : Tensor F → nat → nat → option Z → option F) :
  t_shape labels = [b; s] → wf labels →
  let output := parallel_lm_logits env lm_output W po in
  let logits := if fp16 then output else float output in
  (fp16 = true → t_dtype output = torch_half) →
  (∀ alg lbl,
     t_shape (cross_entropy_of env alg logits lbl) = t_shape lbl ∧
     (wf lbl → wf (cross_entropy_of env alg logits lbl)) ∧
     ∀ p q, item (cross_entropy_of env alg logits lbl) [p; q]
            = token_loss logits p q (item lbl [p; q])) →
  ∃ loss w',
    post_language_model_processing env lm_output (Some labels) W po fp16 w
    = (inr loss, w') ∧
    t_shape loss = [b; s] ∧ wf loss ∧
    ∀ i j, item loss [i; j] = token_loss logits j i (item labels [i; j]).
Proof.
  intros Hl Hwl output logits Hp Hce.
  destruct (transpose01_shape labels b s [] Hl) as (labelsT & HT & HsT & _).
  pose proof (transpose01_wf _ _ Hwl HT) as HwT.
  set (losses := cross_entropy_of env (select_cross_entropy env) logits labelsT).
  destruct (Hce (select_cross_entropy env) labelsT) as (Hls & Hwls & Hitem).
  fold losses in Hls, Hwls, Hitem. rewrite HsT in Hls.
  destruct (transpose01_shape losses s b [] Hls) as (loss & Hloss & Hsl & _).
  do 2 eexists. split; [|split; [done|split]].
  - rewrite (post_language_model_processing_Some _ _ _ labelsT) by done.
    cbv zeta. fold output.
    replace (fp16 && negb (bool_decide (t_dtype output = torch_half)))
      with false.
    + fold logits. fold losses. by rewrite Hloss.
    + destruct fp16; [|done]. by rewrite bool_decide_eq_true_2 by auto.
  - eapply transpose01_wf; [|done]. auto.
  - intros i j.
    rewrite (item_transpose01 losses loss j i []) by auto.
    by rewrite Hitem, (item_transpose01 labels labelsT i j []).
Qed.

(** X8: labels without a batch and a sequence axis make the stage raise
    [IndexError], once the projection is done and before the precision
    is asserted or a cross entropy called. *)
Theorem post_language_model_processing_flat_labels
    lm_output labels W po fp16 w :
  (length (t_shape labels) < 2)%nat →
  post_language_model_processing env lm_output (Some labels) W po fp16 w
  = (inl IndexError, after w [call_parallel_lm_logits lm_output W po]).
Proof.
  intros Hl. unfold post_language_model_processing.
  rewrite bind_emit, bind_lift. unfold transpose01.
  destruct (t_shape labels) as [|d0 [|d1 rest]]; simpl in Hl; done || lia.
Qed.

End loss_tokens.

(** ** The masked loss and its mask *)

Section mask.
Context {F : Type} `{TorchArith F} {InferenceParams : Type}.
Implicit Types (env : Env (F := F)).
Implicit Types (w : World (F := F) (InferenceParams := InferenceParams)).

Lemma view_flat_Some {A} (t : Strided A) :
  is_Some (flat_stride (s_view t)) → view_flat t = inr (flatten (s_tensor t)).
Proof. intros [st Hst]. unfold view_flat, view_view_flat. by rewrite Hst. Qed.

(** A mask [[b, s]] that is the transpose of a packed [[s, b]] tensor
    cannot be viewed flat. *)
Lemma flat_stride_transposed v b s :
  v_sizes v = [b; s] → v_strides v = [1; b]%nat → (2 ≤ b)%nat → (2 ≤ s)%nat →
  flat_stride v = None.
Proof.
  intros Hs Hst Hb Hs2. unfold flat_stride. rewrite Hs, Hst.
  cbn [zip zip_with reverse rev_append]. unfold reverse. simpl.
  rewrite bool_decide_eq_false_2 by (unfold numel; simpl; nia).
  rewrite !bool_decide_eq_true_2 by (unfold numel; simpl; nia). simpl.
  by rewrite bool_decide_eq_false_2 by nia.
Qed.

(** X9: [CrossEntropy] reads the loss mask through [view(-1)] only and
    does not compare its shape with the one of the labels: two masks that
    can be viewed flat, of the same dtype and with the same elements in
    row-major order, give the same result whatever their shapes. *)
Theorem CrossEntropy_mask_flattened env output labels mask mask' w :
  is_Some (flat_stride (s_view mask)) → is_Some (flat_stride (s_view mask')) →
  t_dtype (s_tensor mask) = t_dtype (s_tensor mask') →
  t_data (s_tensor mask) = t_data (s_tensor mask') →
  numel (t_shape (s_tensor mask)) = numel (t_shape (s_tensor mask')) →
  CrossEntropy env output (labels, mask) w
  = CrossEntropy env output (labels, mask') w.
Proof.
  intros Hv Hv' Hd Hx Hn. unfold CrossEntropy. simpl.
  rewrite (view_flat_Some mask), (view_flat_Some mask') by done.
  unfold flatten. by rewrite Hd, Hx, Hn.
Qed.


(** X11: a loss mask [[b, s]] that is the transpose of a packed [[s, b]]
    tensor, with [b] and [s] at least two, makes [CrossEntropy] raise
    [RuntimeError] whatever its elements: the mask is viewed flat as it
    is laid out, not made contiguous first.  The cross entropy is
    computed before. *)
Theorem CrossEntropy_transposed_mask
    env output labels loss_mask labelsT lossesT b s w :
  transpose01 labels = inr labelsT →
  let logits := float (contiguous output) in
  transpose01 (cross_entropy_of env vocab_parallel_cross_entropy logits labelsT)
  = inr lossesT →
  v_sizes (s_view loss_mask) = [b; s] →
  v_strides (s_view loss_mask) = [1; b]%nat →
  (2 ≤ b)%nat → (2 ≤ s)%nat →
  CrossEntropy env output (labels, loss_mask) w
  = (inl RuntimeError,
     after w [call_cross_entropy vocab_parallel_cross_entropy logits labelsT]).
Proof.
  intros HT logits HL Hs Hst Hb Hs2.
  rewrite (CrossEntropy_run _ _ _ _ labelsT) by done. fold logits.
  rewrite HL. unfold view_flat, view_view_flat.
  by rewrite (flat_stride_transposed _ b s).
Qed.

End mask.

(** What the masked loss uses of IEEE 754 on NaNs and infinities: a
    product with a NaN and the product of an infinity and a zero are NaN,
    a sum over a NaN is NaN, and so is a NaN divided. *)
Class IEEE_NaN (F : Type) `{IEEE F} : Type := {
  is_inf : F → bool;
  fmul_nan d x y : is_nan x = true → is_nan (fmul d x y) = true;
  fmul_inf_zero d x z :
    is_inf x = true → is_zero z = true → is_nan (fmul d x z) = true;
  fsum_nan d l x : x ∈ l → is_nan x = true → is_nan (fsum d l) = true;
  fdiv_nan d x y : is_nan x = true → is_nan (fdiv d x y) = true
}.

Section mask_nan.
Context {F : Type} `{IEEE_NaN F} {InferenceParams : Type}.
Implicit Types (env : Env (F := F)).
Implicit Types (w : World (F := F) (InferenceParams := InferenceParams)).

(** X12: the mask multiplies, it does not select.  A token whose loss is
    NaN makes the result NaN whatever its mask, and so does a token of
    infinite loss that the mask sets to zero. *)
Theorem CrossEntropy_masked_nan
    env output labels loss_mask labelsT lossesT b s w q l m :
  transpose01 labels = inr labelsT →
  let logits := float (contiguous output) in
  transpose01 (cross_entropy_of env vocab_parallel_cross_entropy logits labelsT)
  = inr lossesT →
  t_shape lossesT = [b; s] → t_shape (s_tensor loss_mask) = [b; s] →
  laid_out loss_mask → view_is_contiguous (s_view loss_mask) = true →
  t_data lossesT !! q = Some l → t_data (s_tensor loss_mask) !! q = Some m →
  is_nan l = true ∨ (is_inf l = true ∧ is_zero m = true) →
  ∃ loss x w',
    CrossEntropy env output (labels, loss_mask) w = (inr loss, w') ∧
    t_shape loss = [] ∧ t_data loss = [x] ∧ is_nan x = true.
Proof.
  intros HT logits HL Hsl Hsm [_ Hlen] Hc Hl Hm Hnan.
  pose proof (view_flat_contiguous loss_mask Hlen Hc) as Hview.
  do 3 eexists. split; [|split; [|split]].
  - by apply (CrossEntropy_value env _ _ _ labelsT lossesT b s).
  - done.
  - done.
  - unfold masked_mean. apply fdiv_nan.
    set (dw := promote_types (t_dtype lossesT) (t_dtype (s_tensor loss_mask))).
    apply (fsum_nan _ _ (fmul dw l m)).
    + apply list_elem_of_lookup. exists q.
      by rewrite lookup_zip_with, Hl, Hm.
    + destruct Hnan as [Hn|[Hi Hz]];
        [by apply fmul_nan|by apply fmul_inf_zero].
Qed.

End mask_nan.

(** The binary floating-point numbers have these NaNs. *)
Section binary_nan.
Import Binary.

Definition infinite (x : spec_float) : bool :=
  match x with S754_infinity _ => true | _ => false end.

Lemma foldl_SFadd_nan p e l : foldl (SFadd p e) S754_nan l = S754_nan.
Proof. induction l as [|x l IH]; [done|]. by simpl. Qed.

Lemma sum_list_nan d l x :
  x ∈ l → nan x = true → nan (sum_list d l) = true.
Proof.
  unfold sum_list. generalize (S754_zero false).
  induction l as [|y l IH]; intros acc Hin Hx.
  - by apply elem_of_nil in Hin.
  - simpl. apply elem_of_cons in Hin as [<-|Hin]; [|by apply IH].
    destruct x; try done.
    replace (SFadd _ _ acc S754_nan) with S754_nan by (by destruct acc).
    by rewrite foldl_SFadd_nan.
Qed.

#[global] Instance binary_ieee_nan : IEEE_NaN spec_float.
Proof.
  refine {| is_inf := infinite |}.
  - intros d x y Hx. by destruct x.
  - intros d x z Hx Hz. by destruct x, z.
  - intros d l x. apply sum_list_nan.
  - intros d x y Hx. by destruct x.
Defined.

End binary_nan.

(** ** The checkpoint adapter, key by key *)

Section checkpoint_keys.
Context {F : Type} `{TorchArith F} {InferenceParams : Type}.
Implicit Types (w : World (F := F) (InferenceParams := InferenceParams)).
Implicit Types (self : ChatGLM3Model (F := F) (InferenceParams := InferenceParams)).
Implicit Types (d : StateDict F).

Lemma lookup_experts d k :
  experts d !! k = if is_expert_key k then d !! k else None.
Proof.
  unfold experts. rewrite lookup_filter_decide.
  destruct (d !! k) as [x|]; [|by destruct (is_expert_key k)]. simpl.
  destruct (is_expert_key k);
    [by rewrite decide_True|by rewrite decide_False].
Qed.

Lemma lookup_others d k :
  others d !! k = if is_expert_key k then None else d !! k.
Proof.
  unfold others. rewrite lookup_filter_decide.
  destruct (d !! k) as [x|]; [|by destruct (is_expert_key k)]. simpl.
  destruct (is_expert_key k);
    [by rewrite decide_False|by rewrite decide_True].
Qed.

Lemma size_experts d : (0 < size (experts d))%nat ↔ experts d ≠ ∅.
Proof. rewrite <-map_size_non_empty_iff. lia. Qed.

(** X13: the dict [state_dict_for_save_checkpoint] returns, key by key.
    The head key, when the head embeddings are saved, holds their state;
    the language-model key holds the dict of the inner stage without its
    [moe_state_dict] entry; every other key holds what the MoE entry held
    under it.  A key of the MoE entry that equals one of the two fixed
    keys is thus overwritten.  A [moe_state_dict] entry that is a tensor,
    not a dict, makes the method raise [AttributeError]. *)
Theorem state_dict_for_save_checkpoint_keys self prefix keep_vars w :
  let lm_key := _language_model_key self in
  let we_key := _word_embeddings_for_head_key (base self) in
  let lm_sd :=
    lm_state_dict_for_save_checkpoint (language_model self) prefix keep_vars in
  let we_sd := word_embeddings_state_dict (base self) prefix keep_vars in
  let hoisted :=
    match lm_sd !! "moe_state_dict" with
    | Some (SVDict moe) => moe
    | _ => ∅
    end in
  (∀ t, lm_sd !! "moe_state_dict" = Some (SVTensor t) →
     state_dict_for_save_checkpoint self prefix keep_vars w
     = (inl AttributeError, w)) ∧
  ((∀ t, lm_sd !! "moe_state_dict" ≠ Some (SVTensor t)) →
   ∃ saved,
     state_dict_for_save_checkpoint self prefix keep_vars w = (inr saved, w) ∧
     ∀ k, saved !! k
          = if decide (saves_word_embeddings self = true ∧ k = we_key)
            then Some (SVDict we_sd)
            else if decide (k = lm_key)
                 then Some (SVDict (delete "moe_state_dict" lm_sd))
                 else hoisted !! k).
Proof.
  intros lm_key we_key lm_sd we_sd hoisted. split.
  - intros t Ht. rewrite state_dict_for_save_checkpoint_run.
    fold lm_sd. by rewrite Ht.
  - intros Hdict.
    assert (Hsave : state_dict_for_save_checkpoint self prefix keep_vars w
                    = (inr (with_head self prefix keep_vars
                              (<[lm_key := SVDict (delete "moe_state_dict" lm_sd)]>
                                 hoisted)), w)).
    { rewrite state_dict_for_save_checkpoint_run. fold lm_sd lm_key.
      unfold hoisted.
      destruct (lm_sd !! "moe_state_dict") as [[t|moe]|] eqn:Hmoe.
      - by destruct (Hdict t).
      - done.
      - by rewrite delete_id. }
    eexists. split; [exact Hsave|]. intros k. unfold with_head.
    fold we_key we_sd.
    destruct (saves_word_embeddings self).
    + destruct (decide (k = we_key)) as [->|Hne].
      * rewrite lookup_insert_eq. by rewrite decide_True.
      * rewrite lookup_insert_ne by done.
        rewrite decide_False by (by intros [_ ?]).
        destruct (decide (k = lm_key)) as [->|Hne'].
        -- by rewrite lookup_insert_eq.
        -- by rewrite lookup_insert_ne.
    + rewrite decide_False by (by intros [? _]).
      destruct (decide (k = lm_key)) as [->|Hne'].
      * by rewrite lookup_insert_eq.
      * by rewrite lookup_insert_ne.
Qed.

(** [load_state_dict] once the head embeddings are loaded, when it
    succeeds. *)
Lemma load_gathered_inv self state_dict strict w final w' :
  load_gathered self state_dict strict w = (inr final, w') →
  let lm_key := _language_model_key self in
  ∃ handed,
    w' = after w [call_language_model_load_state_dict handed strict] ∧
    (∀ k, is_Some (final !! k) → is_expert_key k = false) ∧
    (∀ k, is_expert_key k = false → k ≠ lm_key → k ≠ "moe_state_dict" →
          final !! k = state_dict !! k) ∧
    (experts state_dict ≠ ∅ →
     ∃ d, handed = SVDict d ∧
          d !! "moe_state_dict" = Some (SVDict (experts state_dict))) ∧
    (is_Some (state_dict !! lm_key) → is_expert_key lm_key = false →
     final !! lm_key = Some handed) ∧
    (state_dict !! lm_key = None → handed = SVDict final).
Proof.
  intros Hrun lm_key. unfold load_gathered in Hrun. fold lm_key in Hrun.
  assert (Hother : ∀ k, is_Some (others state_dict !! k) →
                        is_expert_key k = false).
  { intros k [v Hv]. rewrite lookup_others in Hv.
    by destruct (is_expert_key k). }
  assert (Hkeep : ∀ k, is_expert_key k = false →
                       others state_dict !! k = state_dict !! k).
  { intros k Hk. by rewrite lookup_others, Hk. }
  destruct (others state_dict !! lm_key) as [inner|] eqn:Hlm.
  - assert (Hlmk : is_expert_key lm_key = false) by (apply Hother; eauto).
    assert (∃ handed,
      (if decide (0 < size (experts state_dict))%nat
       then lift (setitem inner "moe_state_dict"
                    (SVDict (experts state_dict)))
       else ret inner) w = (inr handed, w) ∧
      (experts state_dict ≠ ∅ →
       ∃ d, handed = SVDict d ∧
            d !! "moe_state_dict" = Some (SVDict (experts state_dict))))
      as (handed & Hh & Hmoe).
    { destruct (decide (0 < size (experts state_dict))%nat) as [Hsz|Hsz].
      - rewrite bind_lift in Hrun. destruct inner as [t|d]; [done|].
        eexists. split; [done|]. intros _. eexists. split; [done|].
        apply lookup_insert_eq.
      - eexists. split; [done|]. intros Hne. by apply size_experts in Hne. }
    unfold bind at 1 in Hrun. rewrite Hh in Hrun. rewrite bind_emit in Hrun.
    injection Hrun as <- <-. exists handed. split; [done|].
    split; [|split; [|split; [done|split]]].
    + intros k Hk. destruct (decide (k = lm_key)) as [->|Hne]; [done|].
      rewrite lookup_insert_ne in Hk by done. by apply Hother.
    + intros k Hk Hne _. rewrite lookup_insert_ne by done. by apply Hkeep.
    + intros _ _. apply lookup_insert_eq.
    + intros Hnone. rewrite Hkeep, Hnone in Hlm by done. done.
  - rewrite bind_emit in Hrun. injection Hrun as <- <-.
    eexists. split; [done|].
    assert (Hm : is_expert_key "moe_state_dict" = false) by reflexivity.
    split; [|split; [|split; [|split]]].
    + intros k Hk. destruct (decide _); [|by apply Hother].
      destruct (decide (k = "moe_state_dict")) as [->|Hne]; [done|].
      rewrite lookup_insert_ne in Hk by done. by apply Hother.
    + intros k Hk _ Hne. destruct (decide _); [|by apply Hkeep].
      rewrite lookup_insert_ne by done. by apply Hkeep.
    + intros Hne. apply size_experts in Hne. rewrite decide_True by done.
      eexists. split; [done|]. apply lookup_insert_eq.
    + intros Hsome Hk. rewrite Hkeep in Hlm by done.
      rewrite Hlm in Hsome. by destruct Hsome.
    + done.
Qed.

(** X14: what [load_state_dict] does to the dict it is given.  When it
    returns, the caller's dict holds no expert-marked key any more: the
    scan popped them.  The keys that are not expert-marked are still
    there with their values, apart from the language-model key and
    [moe_state_dict].  The last call made is the load of the inner stage;
    when expert entries were found, the dict it receives holds them as
    its [moe_state_dict] entry, and when the caller's dict wraps the
    inner dict under the language-model key, that entry of the caller's
    dict is the dict handed over, MoE entry included. *)
Theorem load_state_dict_caller_dict self state_dict strict w final w' :
  load_state_dict self state_dict strict w = (inr final, w') →
  let lm_key := _language_model_key self in
  (∀ k, is_Some (final !! k) → is_expert_key k = false) ∧
  (∀ k, is_expert_key k = false → k ≠ lm_key → k ≠ "moe_state_dict" →
        final !! k = state_dict !! k) ∧
  ∃ handed,
    last (w_trace w')
    = Some (call_language_model_load_state_dict handed strict) ∧
    (experts state_dict ≠ ∅ →
     ∃ d, handed = SVDict d ∧
          d !! "moe_state_dict" = Some (SVDict (experts state_dict))) ∧
    (is_Some (state_dict !! lm_key) → is_expert_key lm_key = false →
     final !! lm_key = Some handed).
Proof.
  intros Hrun lm_key. rewrite load_state_dict_run in Hrun.
  assert (∃ w1, load_gathered self state_dict strict w1 = (inr final, w'))
    as (w1 & Hg).
  { destruct (saves_word_embeddings self); [|eauto].
    destruct (state_dict !! _); [eauto|done]. }
  destruct (load_gathered_inv _ _ _ _ _ _ Hg)
    as (handed & -> & Hexp & Hkeep & Hmoe & Hlm & _).
  split; [done|]. split; [done|]. exists handed.
  split; [|done]. simpl. apply last_snoc.
Qed.

(** X15: a dict without the language-model key is taken as the dict of
    the inner stage itself.  The inner stage is handed all its entries
    that are not expert-marked and, when there are expert-marked ones,
    these under one [moe_state_dict] entry, which replaces an entry of
    that name; the caller's dict is left in that state. *)
Theorem load_state_dict_unwrapped self state_dict strict w :
  let lm_key := _language_model_key self in
  let we_key := _word_embeddings_for_head_key (base self) in
  state_dict !! lm_key = None →
  (saves_word_embeddings self = true → is_Some (state_dict !! we_key)) →
  let handed :=
    if decide (experts state_dict = ∅) then others state_dict
    else <["moe_state_dict" := SVDict (experts state_dict)]>
           (others state_dict) in
  load_state_dict self state_dict strict w
  = (inr handed,
     after w
       ((if saves_word_embeddings self then
           match state_dict !! we_key with
           | Some sd => [call_word_embeddings_load_state_dict sd strict]
           | None => []
           end
         else [])
        ++ [call_language_model_load_state_dict (SVDict handed) strict])).
Proof.
  intros lm_key we_key Hlm Hwe handed.
  assert (Hg : ∀ w1, load_gathered self state_dict strict w1
            = (inr handed,
               after w1 [call_language_model_load_state_dict
                           (SVDict handed) strict])).
  { intros w1. unfold load_gathered. fold lm_key.
    replace (others state_dict !! lm_key) with (@None (StateValue F))
      by (rewrite lookup_others, Hlm; by destruct (is_expert_key lm_key)).
    rewrite bind_emit. unfold handed, ret.
    destruct (decide (0 < size (experts state_dict))%nat) as [Hsz|Hsz].
    - rewrite decide_False by (by apply size_experts). done.
    - rewrite decide_True; [done|].
      destruct (decide (experts state_dict = ∅)) as [|Hne]; [done|].
      by apply size_experts in Hne. }
  rewrite load_state_dict_run. fold we_key.
  destruct (saves_word_embeddings self).
  - destruct (Hwe eq_refl) as [sd Hsd]. rewrite Hsd.
    by rewrite Hg, after_after.
  - by rewrite Hg.
Qed.

(** X16: save then load keeps under [moe_state_dict] the expert-marked
    keys only.  For any MoE entry of the inner stage, the dict handed
    back to the inner stage is the saved one with its [moe_state_dict]
    entry cut down to the keys the scan recognises (and without the
    entry when there is none); a key of the entry that is not
    expert-marked, such as a gate weight, is hoisted by save, left at the
    top level of the caller's dict by load, and does not reach the inner
    stage. *)
Theorem round_trip_keeps_experts_only
    self prefix keep_vars strict w moe :
  let lm_key := _language_model_key self in
  let we_key := _word_embeddings_for_head_key (base self) in
  let lm_sd :=
    lm_state_dict_for_save_checkpoint (language_model self) prefix keep_vars in
  let we_sd := word_embeddings_state_dict (base self) prefix keep_vars in
  is_expert_key lm_key = false → is_expert_key we_key = false →
  lm_key ≠ we_key →
  lm_sd !! "moe_state_dict" = Some (SVDict moe) →
  let restored :=
    if decide (experts moe = ∅) then delete "moe_state_dict" lm_sd
    else <["moe_state_dict" := SVDict (experts moe)]> lm_sd in
  ∃ saved final,
    state_dict_for_save_checkpoint self prefix keep_vars w = (inr saved, w) ∧
    load_state_dict self saved strict w
    = (inr final,
       after w
         ((if saves_word_embeddings self
           then [call_word_embeddings_load_state_dict (SVDict we_sd) strict]
           else [])
          ++ [call_language_model_load_state_dict (SVDict restored) strict])) ∧
    ∀ k v,
      moe !! k = Some v → is_expert_key k = false →
      k ≠ lm_key → k ≠ we_key →
      saved !! k = Some v ∧ final !! k = Some v ∧
      ∀ d, restored !! "moe_state_dict" = Some (SVDict d) → d !! k = None.
Proof.
  intros lm_key we_key lm_sd we_sd Hlm Hwe Hne Hmoe restored.
  set (inner := delete "moe_state_dict" lm_sd).
  set (saved := with_head self prefix keep_vars
                  (<[lm_key := SVDict inner]> moe)).
  assert (Hsave : state_dict_for_save_checkpoint self prefix keep_vars w
                  = (inr saved, w)).
  { rewrite state_dict_for_save_checkpoint_run. fold lm_sd.
    by rewrite Hmoe. }
  assert (Hexp : experts saved = experts moe).
  { unfold saved, with_head. destruct (saves_word_embeddings self).
    - by rewrite !experts_insert_other.
    - by rewrite experts_insert_other. }
  assert (Hsaved : ∀ k, k ≠ lm_key → k ≠ we_key → saved !! k = moe !! k).
  { intros k Hk1 Hk2. unfold saved, with_head.
    destruct (saves_word_embeddings self).
    - by rewrite !lookup_insert_ne.
    - by rewrite lookup_insert_ne. }
  assert (Hoth : others saved !! lm_key = Some (SVDict inner)).
  { rewrite lookup_others, Hlm. unfold saved, with_head.
    destruct (saves_word_embeddings self).
    - rewrite lookup_insert_ne by done. apply lookup_insert_eq.
    - apply lookup_insert_eq. }
  assert (Hhead : saves_word_embeddings self = true →
                  saved !! we_key = Some (SVDict we_sd)).
  { intros Hs. unfold saved, with_head. rewrite Hs. apply lookup_insert_eq. }
  assert (Hgather : ∀ w1, load_gathered self saved strict w1
            = (inr (<[lm_key := SVDict restored]> (others saved)),
               after w1 [call_language_model_load_state_dict
                           (SVDict restored) strict])).
  { intros w1. unfold load_gathered. fold lm_key. rewrite Hoth, Hexp.
    unfold restored.
    destruct (decide (0 < size (experts moe))%nat) as [Hsz|Hsz].
    - rewrite decide_False by (by apply size_experts).
      rewrite bind_lift. simpl. rewrite bind_emit.
      unfold inner, ret. by rewrite insert_delete_eq.
    - rewrite decide_True; [by rewrite bind_ret, bind_emit|].
      destruct (decide (experts moe = ∅)) as [|Hn]; [done|].
      by apply size_experts in Hn. }
  exists saved, (<[lm_key := SVDict restored]> (others saved)).
  split; [done|]. split.
  - rewrite load_state_dict_run. fold we_key.
    destruct (saves_word_embeddings self) eqn:Hs.
    + rewrite (Hhead eq_refl), Hgather, after_after. done.
    + by rewrite Hgather.
  - intros k v Hk Hek Hk1 Hk2. split; [|split].
    + by rewrite Hsaved.
    + rewrite lookup_insert_ne by done.
      by rewrite lookup_others, Hek, Hsaved.
    + intros d Hd. unfold restored in Hd.
      destruct (decide (experts moe = ∅)).
      * by rewrite lookup_delete_eq in Hd.
      * rewrite lookup_insert_eq in Hd. injection Hd as <-.
        by rewrite lookup_experts, Hek.
Qed.

End checkpoint_keys.

(** ** The properties at sample inputs *)

Section samples.
Import Binary.

(** Position ids that lost their batch axis. *)
Definition flat_position_ids : Tensor Z :=
  mkTensor torch_long [4]%nat [0; 1; 2; 3].

(** Labels that lost their batch axis. *)
Definition flat_labels : Tensor Z :=
  mkTensor torch_long [8]%nat [12; 13; 14; 15; 22; 23; 24; 25].

(** A cross entropy stub whose loss is NaN at every label. *)
Definition nan_token (alg : Algorithm) (logits : Tensor spec_float)
    (labels : Tensor Z) : Tensor spec_float :=
  mkTensor torch_float (t_shape labels) ((λ _, S754_nan) <$> t_data labels).

Definition nan_env : Env :=
  mkEnv Sample.project nan_token 1 true
    "vocabulary_parameter_patterns"
    "tp_replicated_parameter_patterns"
    "parameter_with_row_parallelism_patterns".

(** An inner stage that keeps a gate weight in its MoE entry. *)
Definition gated_state_dict : StateDict spec_float :=
  {[ "encoder" :=
       SVDict {[ "layers.0.input_layernorm.weight" :=
                   SVTensor (Sample.full torch_half [2]%nat Sample.one) ]};
     "moe_state_dict" :=
       SVDict {[ Sample.expert_key :=
                   SVTensor (Sample.full torch_half [2; 2]%nat Sample.one);
                 Sample.gate_key :=
                   SVTensor (Sample.full torch_half [1; 2]%nat Sample.one) ]} ]}.

Definition gated_inner
    : LanguageModel (F := spec_float) (InferenceParams := unit) :=
  mkLanguageModel (lm_forward Sample.inner)
    (lm_output_layer_weight Sample.inner) (λ _ _, gated_state_dict).

Definition gated_model : ChatGLM3Model :=
  mkChatGLM3Model Sample.megatron true false true false true false
    gated_inner "language_model".

(** A checkpoint of a last stage: the wrapped inner dict, an expert
    weight at the top level and the head embeddings. *)
Definition checkpoint : StateDict spec_float :=
  {[ "language_model" :=
       SVDict {[ "encoder" :=
                   SVDict {[ "layers.0.input_layernorm.weight" :=
                               SVTensor (Sample.full torch_half [2]%nat
                                           Sample.one) ]} ]};
     Sample.expert_key :=
       SVTensor (Sample.full torch_half [2; 2]%nat Sample.one);
     "word_embeddings_for_head" :=
       SVDict {[ "weight" :=
                   SVTensor (Sample.full torch_half [3; 2]%nat Sample.one) ]} ]}.

(** The dict of an inner stage, not wrapped. *)
Definition unwrapped : StateDict spec_float :=
  {[ "encoder" :=
       SVDict {[ "layers.0.input_layernorm.weight" :=
                   SVTensor (Sample.full torch_half [2]%nat Sample.one) ]};
     Sample.expert_key :=
       SVTensor (Sample.full torch_half [2; 2]%nat Sample.one) ]}.

(** An intermediate stage given labels. *)
Lemma forward_without_post_process_witness :
  forward (Sample.env 1) (Sample.model true false true false)
    Sample.input_ids Sample.position_ids Sample.attention_mask
    None None None (Some Sample.labels) None None None Sample.world
  = (inr [RTensor (Sample.hidden Sample.input_ids);
          RLosses [Sample.full torch_float []%nat Sample.one]],
     after Sample.world
       [call_language_model Sample.input_ids Sample.position_ids
          Sample.attention_mask None None None None]).
Proof.
  exact (forward_without_post_process (Sample.env 1)
           (Sample.model true false true false)
           Sample.input_ids Sample.position_ids Sample.attention_mask
           None None None (Some Sample.labels) None None None Sample.world
           Sample.input_ids Sample.position_ids (Some Sample.labels)
           Sample.attention_mask Sample.world eq_refl eq_refl).
Defined.

(** Inference on a batch of two sequences of four tokens. *)
Lemma forward_logits_witness :
  ∃ t,
    (forward (Sample.env 1) (Sample.model true true true false)
       Sample.input_ids Sample.position_ids Sample.attention_mask
       None None None None None None None Sample.world).1
    = inr [RTensor t; RLosses [Sample.full torch_float []%nat Sample.one]] ∧
    t_shape t = [2; 4; 3]%nat.
Proof.
  destruct (forward_logits (Sample.env 1) (Sample.model true true true false)
              Sample.input_ids Sample.position_ids Sample.attention_mask
              None None None None None Sample.world 4 2 3
              eq_refl eq_refl eq_refl) as (t & Hrun & Hs & _).
  exists t. split; [|exact Hs]. rewrite Hrun. reflexivity.
Defined.


(** Position ids without a batch axis under a curriculum length of two. *)
Lemma forward_curriculum_rank_witness :
  forward (Sample.env 1) (Sample.model true true true false)
    Sample.input_ids flat_position_ids Sample.attention_mask
    None None None None None None (Some 2) Sample.world
  = (inl IndexError, with_curriculum_seqlen 2 Sample.world).
Proof.
  apply forward_curriculum_rank. right. exists 4%nat.
  split; [reflexivity|]. split; [lia|]. left. simpl. lia.
Defined.

(** A curriculum length of -1 on sequences of four tokens. *)
Lemma forward_negative_curriculum_witness :
  ∃ input_ids' position_ids' labels' attention_mask',
    curriculum_inputs (F := spec_float) (InferenceParams := unit)
      Sample.input_ids Sample.position_ids Sample.attention_mask None
      (Some (-1)) Sample.world
    = (inr (input_ids', position_ids', labels', attention_mask'),
       with_curriculum_seqlen (-1) Sample.world) ∧
    t_shape input_ids' = [2; 3]%nat ∧
    t_shape attention_mask' = [1; 1; 3; 3]%nat.
Proof.
  assert (Hl : ∀ l, @None (Tensor Z) = Some l →
                    t_shape l = [2; 4]%nat ∧ wf l) by discriminate.
  assert (Hk : -1 < 0) by lia.
  destruct (forward_negative_curriculum (Sample.env 1)
              (Sample.model true true true false)
              Sample.input_ids Sample.position_ids Sample.attention_mask
              None None None None None None (-1) 2 4 1 1 Sample.world
              eq_refl eq_refl eq_refl eq_refl eq_refl eq_refl Hl Hk)
    as (i' & p' & l' & m' & evs & Hc & _ & Hi & _ & Hm & _).
  exists i', p', l', m'. split; [exact Hc|]. split; [exact Hi|exact Hm].
Defined.

(** The sample cross entropy works token by token. *)
Lemma per_token_item alg logits (lbl : Tensor Z) p q :
  item (Sample.per_token alg logits lbl) [p; q]
  = (λ _, Sample.one) <$> item lbl [p; q].
Proof.
  unfold item, Sample.per_token. cbn [t_shape t_data].
  destruct (ravel (t_shape lbl) [p; q]) as [r|]; [|done]. simpl.
  by rewrite list_lookup_fmap.
Qed.

Lemma per_token_wf alg logits (lbl : Tensor Z) :
  wf lbl → wf (Sample.per_token alg logits lbl).
Proof. unfold wf, Sample.per_token. simpl. by rewrite length_fmap. Qed.

(** The loss of the sample batch, token by token. *)
Lemma post_language_model_processing_alignment_witness :
  ∃ loss w',
    post_language_model_processing (Sample.env 1) Sample.lm_output
      (Some Sample.labels) Sample.weight true false Sample.world
    = (inr loss, w') ∧
    ∀ i j, item loss [i; j]
           = (λ _, Sample.one) <$> item Sample.labels [i; j].
Proof.
  assert (Hp : false = true →
               t_dtype (parallel_lm_logits (Sample.env 1) Sample.lm_output
                          Sample.weight true) = torch_half) by discriminate.
  destruct (post_language_model_processing_alignment (Sample.env 1)
              Sample.lm_output Sample.labels Sample.weight true false
              Sample.world 2 4 (λ _ _ _ o, (λ _, Sample.one) <$> o)
              eq_refl eq_refl Hp
              (λ alg lbl,
                 conj eq_refl
                   (conj (per_token_wf alg _ lbl)
                      (per_token_item alg _ lbl))))
    as (loss & w' & Hrun & _ & _ & Hitem).
  exists loss, w'. split; [exact Hrun|exact Hitem].
Defined.

(** Labels without a batch axis. *)
Lemma post_language_model_processing_flat_labels_witness :
  post_language_model_processing (Sample.env 1) Sample.lm_output
    (Some flat_labels) Sample.weight true true Sample.world
  = (inl IndexError,
     after Sample.world
       [call_parallel_lm_logits Sample.lm_output Sample.weight true]).
Proof.
  apply post_language_model_processing_flat_labels. simpl. lia.
Defined.

(** The all-ones mask given as [[4, 2]]. *)
Lemma CrossEntropy_mask_flattened_witness :
  CrossEntropy (Sample.env 1) Sample.lm_output
    (Sample.labels, Sample.ones_mask) Sample.world
  = CrossEntropy (Sample.env 1) Sample.lm_output
      (Sample.labels,
       packed_in 1 (Sample.full torch_float [4; 2]%nat Sample.one))
      Sample.world.
Proof.
  exact (CrossEntropy_mask_flattened (Sample.env 1) Sample.lm_output
           Sample.labels Sample.ones_mask
           (packed_in 1 (Sample.full torch_float [4; 2]%nat Sample.one))
           Sample.world (mk_is_Some _ _ eq_refl) (mk_is_Some _ _ eq_refl)
           eq_refl eq_refl eq_refl).
Defined.


(** The all-zero mask transposed in memory. *)
Lemma CrossEntropy_transposed_mask_witness :
  CrossEntropy (Sample.env 1) Sample.lm_output
    (Sample.labels, Sample.transposed_zero_mask) Sample.world
  = (inl RuntimeError,
     after Sample.world
       [call_cross_entropy vocab_parallel_cross_entropy
          (float (contiguous Sample.lm_output)) Sample.labels_sb]).
Proof.
  apply (CrossEntropy_transposed_mask (Sample.env 1) Sample.lm_output
           Sample.labels Sample.transposed_zero_mask Sample.labels_sb
           (Sample.full torch_float [2; 4]%nat Sample.one) 2 4 Sample.world
           eq_refl eq_refl eq_refl eq_refl); lia.
Defined.

(** NaN losses under a mask that is zero everywhere. *)
Lemma CrossEntropy_masked_nan_witness :
  ∃ loss w',
    CrossEntropy nan_env Sample.lm_output (Sample.labels, Sample.zero_mask)
      Sample.world = (inr loss, w') ∧
    t_data loss = [S754_nan].
Proof.
  assert (Hnan : is_nan S754_nan = true ∨
                 (is_inf S754_nan = true ∧ is_zero (S754_zero false) = true))
    by (left; reflexivity).
  destruct (CrossEntropy_masked_nan nan_env Sample.lm_output Sample.labels
              Sample.zero_mask Sample.labels_sb
              (Sample.full torch_float [2; 4]%nat S754_nan) 2 4 Sample.world
              0%nat S754_nan (S754_zero false)
              eq_refl eq_refl eq_refl eq_refl (conj eq_refl eq_refl) eq_refl
              eq_refl eq_refl Hnan)
    as (loss & x & w' & Hrun & _ & Hdata & Hx).
  exists loss, w'. split; [exact Hrun|].
  rewrite Hdata. destruct x; try discriminate Hx. reflexivity.
Defined.

(** The saved dict of a last stage with tied embeddings and one expert. *)
Lemma state_dict_for_save_checkpoint_keys_witness :
  let self := Sample.model false true true false in
  ∃ saved,
    state_dict_for_save_checkpoint self "" false Sample.world
    = (inr saved, Sample.world) ∧
    saved !! Sample.expert_key
    = Some (SVTensor (Sample.full torch_half [2; 2]%nat Sample.one)) ∧
    saved !! "moe_state_dict" = None.
Proof.
  intros self.
  assert (Hdict : ∀ t,
    lm_state_dict_for_save_checkpoint (language_model self) "" false
      !! "moe_state_dict" ≠ Some (SVTensor t)).
  { intros t. change (Sample.inner_state_dict !! "moe_state_dict"
                      ≠ Some (SVTensor t)).
    rewrite sample_moe_entry. discriminate. }
  destruct (proj2 (state_dict_for_save_checkpoint_keys self "" false
                     Sample.world) Hdict) as (saved & Hrun & Hkeys).
  exists saved. split; [exact Hrun|].
  split; rewrite Hkeys; vm_compute; exact eq_refl.
Defined.

(** Loading the sample checkpoint on a last stage with tied embeddings. *)
Lemma load_state_dict_caller_dict_witness :
  ∃ final,
    (load_state_dict (Sample.model false true true false) checkpoint true
       Sample.world).1 = inr final ∧
    final !! Sample.expert_key = None.
Proof.
  assert (Hok : match (load_state_dict (Sample.model false true true false)
                         checkpoint true Sample.world).1 with
                | inr _ => True
                | inl _ => False
                end) by (vm_compute; exact I).
  revert Hok.
  destruct (load_state_dict (Sample.model false true true false) checkpoint
              true Sample.world) as [[e|final] w'] eqn:Hrun; intros Hok.
  - destruct Hok.
  - exists final. split; [reflexivity|].
    destruct (load_state_dict_caller_dict _ _ _ _ _ _ Hrun) as (Hexp & _).
    destruct (final !! Sample.expert_key) as [v|] eqn:Hv; [|reflexivity].
    assert (Hk : is_expert_key Sample.expert_key = false)
      by (apply Hexp; rewrite Hv; eauto).
    assert (Ht : is_expert_key Sample.expert_key = true)
      by (vm_compute; exact eq_refl).
    rewrite Ht in Hk. discriminate.
Defined.

(** Loading a dict that is not wrapped, on a first stage. *)
Lemma load_state_dict_unwrapped_witness :
  ∃ handed evs,
    load_state_dict (Sample.model true false true false) unwrapped true
      Sample.world
    = (inr handed, after Sample.world evs) ∧
    handed !! Sample.expert_key = None ∧
    is_Some (handed !! "moe_state_dict").
Proof.
  assert (Hlm : unwrapped
                !! _language_model_key (Sample.model true false true false)
                = None) by (vm_compute; exact eq_refl).
  assert (Hwe : saves_word_embeddings (Sample.model true false true false)
                = true →
                is_Some (unwrapped !! "word_embeddings_for_head"))
    by (intros Hs; vm_compute in Hs; discriminate Hs).
  pose proof (load_state_dict_unwrapped (Sample.model true false true false)
                unwrapped true Sample.world Hlm Hwe) as Hrun.
  cbv zeta in Hrun.
  match type of Hrun with _ = (inr ?h, after _ ?evs) => exists h, evs end.
  split; [exact Hrun|]. split.
  - vm_compute. exact eq_refl.
  - apply (bool_decide_unpack _). vm_compute. exact I.
Defined.

(** Save and load with a gate weight in the MoE entry. *)
Lemma round_trip_keeps_experts_only_witness :
  ∃ saved final,
    state_dict_for_save_checkpoint gated_model "" false Sample.world
    = (inr saved, Sample.world) ∧
    (load_state_dict gated_model saved true Sample.world).1 = inr final ∧
    is_Some (saved !! Sample.gate_key) ∧
    is_Some (final !! Sample.gate_key).
Proof.
  assert (Hne : _language_model_key gated_model
                ≠ _word_embeddings_for_head_key (base gated_model))
    by discriminate.
  assert (Hmoe : gated_state_dict !! "moe_state_dict"
                 = Some (SVDict
                           {[ Sample.expert_key :=
                                SVTensor (Sample.full torch_half [2; 2]%nat
                                            Sample.one);
                              Sample.gate_key :=
                                SVTensor (Sample.full torch_half [1; 2]%nat
                                            Sample.one) ]}))
    by (vm_compute; exact eq_refl).
  assert (Hgk : ∀ m : StateDict spec_float,
            m = {[ Sample.expert_key :=
                     SVTensor (Sample.full torch_half [2; 2]%nat Sample.one);
                   Sample.gate_key :=
                     SVTensor (Sample.full torch_half [1; 2]%nat
                                 Sample.one) ]} →
            m !! Sample.gate_key
            = Some (SVTensor (Sample.full torch_half [1; 2]%nat Sample.one)))
    by (intros m ->; vm_compute; exact eq_refl).
  assert (He : is_expert_key Sample.gate_key = false)
    by (vm_compute; exact eq_refl).
  destruct (round_trip_keeps_experts_only gated_model "" false true
              Sample.world _ eq_refl eq_refl Hne Hmoe)
    as (saved & final & Hsave & Hload & Hgate).
  exists saved, final. split; [exact Hsave|].
  split; [by rewrite Hload|].
  destruct (Hgate Sample.gate_key _ (Hgk _ eq_refl) He)
    as (Hs & Hf & _); [discriminate|discriminate|].
  rewrite Hs, Hf. eauto.
Defined.

End samples.

End Further.
